(** * Contaxt-Packer: pattern matcher, filter pipeline, bundle selector
      and chunk packer

    A shallow embedding of
      - [src/utils/patternMatcher.ts]   ([globToRegex], [matchesAnyPattern],
        [hasIgnoredExtension]),
      - [src/utils/fileProcessor.ts]    ([processFiles]),
      - [src/components/OutputViewer.tsx] ([filteredFiles], [findSplitPoint]
        and the [chunks] computation, [estimateTokens], [generateContent]),
      - [src/utils/dependencyAnalyzer.ts] ([resolvePath]),
      - the tree generator ([generateAsciiTree] with [sortNodes] and
        [draw]),
    followed by the properties established about them.

    Conventions of the embedding.
      - A JavaScript string is the list of its code units.  Code units are
        taken in the range 0..255 (type [ascii]); on that range
        [toLowerCase] and the case folding of the [i] flag of [RegExp] are
        the Latin-1 ones written out below.
      - A JavaScript number that holds a length, an index or a budget is an
        integer ([Z]); the one fractional quantity of the code,
        [maxChars * 0.2], is an exact rational ([Q]).  For integer
        [maxChars] the IEEE comparison of the source has the same outcome:
        [0.8 * maxChars] is either an integer that the double computation
        reproduces exactly or at distance at least [0.2] from every
        integer.
      - The [while] loop of the packer may run forever; it is embedded with
        a fuel argument and returns [None] when the fuel is exhausted.
      - The drawing of the tree uses connectors outside the range 0..255;
        its output is a list of code units as integers. *)

From Stdlib Require Import ZArith QArith Qminmax List Ascii String Bool Lia.
From Stdlib Require Import Permutation DecimalString DecimalNat DecimalFacts.
From stdpp Require Import base tactics option list list_numbers sorting.

Import ListNotations.
Close Scope Q_scope.
Open Scope Z_scope.

(* ===================================================================== *)
(** * Part I: definitions                                                 *)
(* ===================================================================== *)

(** ** JavaScript strings *)

Abbreviation jsstring := (list ascii).

Definition js (s : string) : jsstring := list_ascii_of_string s.

Definition code (c : ascii) : Z := Z.of_nat (nat_of_ascii c).

Definition chr (n : Z) : ascii := ascii_of_nat (Z.to_nat n).

(** [s.length] *)
Definition jslen (s : jsstring) : Z := Z.of_nat (length s).

(** [a === b] on strings *)
Fixpoint str_eqb (a b : jsstring) : bool :=
  match a, b with
  | [], [] => true
  | x :: a', y :: b' => Ascii.eqb x y && str_eqb a' b'
  | _, _ => false
  end.

(** [s.startsWith(p)] *)
Fixpoint startsWith (s p : jsstring) {struct p} : bool :=
  match p, s with
  | [], _ => true
  | y :: p', x :: s' => Ascii.eqb x y && startsWith s' p'
  | _ :: _, [] => false
  end.

(** [s.includes(p)] *)
Fixpoint includes (s p : jsstring) : bool :=
  startsWith s p ||
  match s with
  | [] => false
  | _ :: s' => includes s' p
  end.

(** [s.endsWith(p)]: [p] occupies the last [p.length] code units of [s]. *)
Definition endsWith (s p : jsstring) : bool :=
  (length p <=? length s)%nat &&
  str_eqb (skipn (length s - length p)%nat s) p.

(** Relative indices of [slice]: a negative index counts from the end, and
    the result is clamped to [0 .. len]. *)
Definition relIndex (len i : Z) : Z :=
  if i <? 0 then Z.max (len + i) 0 else Z.min i len.

(** [s.slice(start, end)]; [end_ = None] is the call with one argument. *)
Definition slice (s : jsstring) (start : Z) (end_ : option Z) : jsstring :=
  let len := jslen s in
  let from := relIndex len start in
  let to := match end_ with None => len | Some e => relIndex len e end in
  let span := Z.max (to - from) 0 in
  firstn (Z.to_nat span) (skipn (Z.to_nat from) s).

(** Scan for [lastIndexOf]: [i] is the index of the head of [s], [acc] the
    last index seen so far that holds [c] and does not exceed [start]. *)
Fixpoint lastIndexOf_scan (s : jsstring) (c : ascii) (start i acc : Z) : Z :=
  match s with
  | [] => acc
  | x :: s' =>
      if start <? i then acc
      else lastIndexOf_scan s' c start (i + 1) (if Ascii.eqb x c then i else acc)
  end.

(** [s.lastIndexOf(c, fromIndex)] for a one-unit search string: the greatest
    index [k <= min(max(fromIndex, 0), len)] with [s[k] = c], or [-1]. *)
Definition lastIndexOf (s : jsstring) (c : ascii) (fromIndex : Z) : Z :=
  let start := Z.min (Z.max fromIndex 0) (jslen s) in
  lastIndexOf_scan s c start 0 (-1).

(** [s.toLowerCase()] on code units 0..255: A-Z and the capital letters
    U+00C0..U+00DE except the multiplication sign U+00D7. *)
Definition lower_unit (c : ascii) : ascii :=
  let n := code c in
  if ((65 <=? n) && (n <=? 90)) || ((192 <=? n) && (n <=? 222) && negb (n =? 215))
  then chr (n + 32) else c.

Definition toLowerCase (s : jsstring) : jsstring := map lower_unit s.

(** [s.split('.')]: never empty; the pieces between the dots. *)
Fixpoint split_dot (s : jsstring) : list jsstring :=
  match s with
  | [] => [[]]
  | c :: s' =>
      if Ascii.eqb c "."%char then [] :: split_dot s'
      else match split_dot s' with
           | seg :: segs => (c :: seg) :: segs
           | [] => [[c]]
           end
  end.

(** [arr.pop()]: the last element, [undefined] on the empty array. *)
Definition pop {A} (l : list A) : option A := last l.

(** Decimal rendering of a non-negative index inside a template literal. *)
Definition str_of_nat (n : nat) : jsstring :=
  js (NilZero.string_of_uint (Nat.to_uint n)).

(** ** patternMatcher.ts *)

(** The character class of [/[.+^${}()|[\]\\]/]. *)
Definition regex_special (c : ascii) : bool :=
  existsb (Ascii.eqb c) (js ".+^${}()|[]\").

(** [pattern.replace(/[.+^${}()|[\]\\]/g, '\\$&')] *)
Definition escape_special (s : jsstring) : jsstring :=
  flat_map (fun c => if regex_special c then ["\"%char; c] else [c]) s.

(** [.replace(/\*\*/g, '.*')]: leftmost, non-overlapping pairs of stars. *)
Fixpoint replace_starstar (s : jsstring) : jsstring :=
  match s with
  | [] => []
  | c :: s' =>
      match s' with
      | d :: s'' =>
          if Ascii.eqb c "*"%char && Ascii.eqb d "*"%char
          then js ".*" ++ replace_starstar s''
          else c :: replace_starstar s'
      | [] => [c]
      end
  end.

(** [.replace(/\*/g, '[^/]*')] *)
Definition replace_star (s : jsstring) : jsstring :=
  flat_map (fun c => if Ascii.eqb c "*"%char then js "[^/]*" else [c]) s.

(** [.replace(/\?/g, '.')] *)
Definition replace_question (s : jsstring) : jsstring :=
  map (fun c => if Ascii.eqb c "?"%char then "."%char else c) s.

(** The source text handed to [new RegExp(..., 'i')] by [globToRegex]. *)
Definition globToRegex_source (pattern : jsstring) : jsstring :=
  let regexString := escape_special pattern in
  let regexString :=
    replace_question (replace_star (replace_starstar regexString)) in
  js "^" ++ regexString ++ js "$".


(** The regular expressions that [globToRegex] can build.  After the
    escaping pass the only unescaped syntax characters of the source text
    are the ones the three replacements insert, so the expression is a
    sequence of atoms, each matched once or under a star, between [^] and
    [$]. *)
Inductive atom : Type :=
  | AChar (c : ascii)     (* a pattern character or an identity escape *)
  | ADot                  (* [.] *)
  | ANotSlash.            (* [[^/]] *)

Inductive term : Type :=
  | Once (a : atom)
  | Star (a : atom).

Inductive token : Type :=
  | TAtom (a : atom)
  | TStar
  | TCaret
  | TDollar.

(** The syntax characters of a pattern of [RegExp]. *)
Definition syntax_char (c : ascii) : bool :=
  existsb (Ascii.eqb c) (js "^$\.*+?()[]{}|").

(** Lexing of the source text; [None] outside the fragment above. *)
Fixpoint tokenize (s : jsstring) : option (list token) :=
  match s with
  | [] => Some []
  | c :: s' =>
      if Ascii.eqb c "\"%char then
        match s' with
        | d :: s'' =>
            if syntax_char d then cons (TAtom (AChar d)) <$> tokenize s''
            else None
        | [] => None
        end
      else if Ascii.eqb c "["%char then
        match s' with
        | c1 :: c2 :: c3 :: s'' =>
            if Ascii.eqb c1 "^"%char && Ascii.eqb c2 "/"%char
               && Ascii.eqb c3 "]"%char
            then cons (TAtom ANotSlash) <$> tokenize s''
            else None
        | _ => None
        end
      else if Ascii.eqb c "."%char then cons (TAtom ADot) <$> tokenize s'
      else if Ascii.eqb c "*"%char then cons TStar <$> tokenize s'
      else if Ascii.eqb c "^"%char then cons TCaret <$> tokenize s'
      else if Ascii.eqb c "$"%char then cons TDollar <$> tokenize s'
      else if syntax_char c then None
      else cons (TAtom (AChar c)) <$> tokenize s'
  end.

(** The terms up to the closing [$]. *)
Fixpoint terms_of (ts : list token) : option (list term) :=
  match ts with
  | [TDollar] => Some []
  | TAtom a :: ts' =>
      match ts' with
      | TStar :: ts'' => cons (Star a) <$> terms_of ts''
      | _ => cons (Once a) <$> terms_of ts'
      end
  | _ => None
  end.

(** [new RegExp(source, 'i')] for a source of the shape [^ ... $]. *)
Definition RegExp_i (source : jsstring) : option (list term) :=
  match tokenize source with
  | Some (TCaret :: ts) => terms_of ts
  | _ => None
  end.

(** [globToRegex] *)
Definition globToRegex (pattern : jsstring) : option (list term) :=
  RegExp_i (globToRegex_source pattern).

(** Canonicalize of the [i] flag, on code units 0..255: a-z and
    U+00E0..U+00FE except the division sign U+00F7 fold to their capitals;
    every other unit is alone in its class. *)
Definition canonicalize (c : ascii) : ascii :=
  let n := code c in
  if ((97 <=? n) && (n <=? 122)) || ((224 <=? n) && (n <=? 254) && negb (n =? 247))
  then chr (n - 32) else c.

(** Line terminators, which [.] does not match (no [s] flag). *)
Definition lineTerminator (c : ascii) : bool :=
  let n := code c in (n =? 10) || (n =? 13).

Definition atom_matches (a : atom) (x : ascii) : bool :=
  match a with
  | AChar c => Ascii.eqb (canonicalize x) (canonicalize c)
  | ADot => negb (lineTerminator x)
  | ANotSlash => negb (Ascii.eqb x "/"%char)
  end.

(** A starred atom followed by the continuation [k]: the atom consumes
    some number of code units, then [k] takes the rest. *)
Fixpoint star_test (k : jsstring -> bool) (a : atom) (s : jsstring) : bool :=
  k s ||
  match s with
  | x :: s' => atom_matches a x && star_test k a s'
  | [] => false
  end.

(** [regex.test(s)] for the anchored expression [^ ts $]: some way of
    letting the starred atoms consume code units matches all of [s]
    (the backtracking matcher of the engine finds it when there is one). *)
Fixpoint regex_test (ts : list term) (s : jsstring) : bool :=
  match ts with
  | [] => match s with [] => true | _ :: _ => false end
  | Once a :: ts' =>
      match s with
      | x :: s' => atom_matches a x && regex_test ts' s'
      | [] => false
      end
  | Star a :: ts' => star_test (regex_test ts') a s
  end.

(** [filePath.replace(/\\/g, '/')] *)
Definition normalizePath (filePath : jsstring) : jsstring :=
  map (fun c => if Ascii.eqb c "\"%char then "/"%char else c) filePath.

(** The callback of [patterns.some] in [matchesAnyPattern]. *)
Definition matchesPattern (normalizedPath pattern : jsstring) : bool :=
  if str_eqb pattern normalizedPath then true
  else if negb (includes pattern (js "/")) && negb (includes pattern (js "*"))
  then
    includes normalizedPath (js "/" ++ pattern ++ js "/")
    || startsWith normalizedPath (pattern ++ js "/")
    || endsWith normalizedPath (js "/" ++ pattern)
    || str_eqb normalizedPath pattern
  else
    match globToRegex pattern with
    | Some regex => regex_test regex normalizedPath
    | None => false        (* the [catch] branch *)
    end.

Definition matchesAnyPattern (filePath : jsstring) (patterns : list jsstring)
  : bool :=
  let normalizedPath := normalizePath filePath in
  existsb (matchesPattern normalizedPath) patterns.

(** The extension looked up by [hasIgnoredExtension]:
    ['.' + fileName.split('.').pop()?.toLowerCase()]. *)
Definition dotted_extension (fileName : jsstring) : jsstring :=
  js "." ++ match pop (split_dot fileName) with
            | Some seg => toLowerCase seg
            | None => js "undefined"
            end.

Definition hasIgnoredExtension (fileName : jsstring)
    (ignoredExtensions : list jsstring) : bool :=
  existsb (str_eqb (dotted_extension fileName)) ignoredExtensions.

(** ** fileProcessor.ts *)

(** What the loop of [processFiles] uses of a browser [File].  [text] is the
    outcome of [readFileContent]: [Some] is the resolved text, [None] a
    rejected read. *)
Module File.
Record t : Type := mk {
  webkitRelativePath : jsstring;
  name : jsstring;
  size : Z;
  text : option jsstring }.
End File.

Module FileEntry.
Record t : Type := mk {
  path : jsstring;
  name : jsstring;
  content : jsstring;
  size : Z;
  extension : jsstring }.
End FileEntry.

(** [file.webkitRelativePath || file.name] *)
Definition path_of (file : File.t) : jsstring :=
  match File.webkitRelativePath file with
  | [] => File.name file
  | p => p
  end.

(** [file.name.split('.').pop() || ''] *)
Definition extension_of (fileName : jsstring) : jsstring :=
  match pop (split_dot fileName) with
  | Some seg => seg
  | None => []
  end.

(** The size ceiling of the third check. *)
Definition MAX_FILE_SIZE : Z := 500 * 1024.

(** One turn of the [for] loop: [None] is a [continue] or the [catch]
    branch, [Some] the entry pushed on [processedFiles].  The progress
    callback and the console warning do not feed back into the result. *)
Definition processFile (ignorePatterns ignoreExtensions : list jsstring)
    (file : File.t) : option FileEntry.t :=
  let path := path_of file in
  if matchesAnyPattern path ignorePatterns then None
  else if hasIgnoredExtension (File.name file) ignoreExtensions then None
  else if File.size file >? MAX_FILE_SIZE then None
  else
    match File.text file with
    | Some content =>
        if includes content [chr 0] then None
        else Some (FileEntry.mk path (File.name file) content (File.size file)
                     (extension_of (File.name file)))
    | None => None
    end.

Section processFiles.
(** [String.prototype.localeCompare] depends on the host locale; it is a
    parameter of the development. *)
Variable localeCompare : jsstring -> jsstring -> Z.

Definition path_order (a b : FileEntry.t) : Prop :=
  localeCompare (FileEntry.path a) (FileEntry.path b) <= 0.

(** [Array.prototype.sort] with [(a, b) => a.path.localeCompare(b.path)].
    The sort is stable: an entry goes behind the entries it compares
    greater than and before the first other one, so entries that compare
    equal keep the order in which they were pushed. *)
Fixpoint insert_entry (x : FileEntry.t) (sorted : list FileEntry.t) :
    list FileEntry.t :=
  match sorted with
  | [] => [x]
  | y :: rest =>
      if localeCompare (FileEntry.path x) (FileEntry.path y) >? 0
      then y :: insert_entry x rest
      else x :: sorted
  end.

Definition sort_entries (entries : list FileEntry.t) : list FileEntry.t :=
  foldr insert_entry [] entries.

Definition processFiles (fileList : list File.t)
    (ignorePatterns ignoreExtensions : list jsstring) : list FileEntry.t :=
  let processedFiles := omap (processFile ignorePatterns ignoreExtensions) fileList in
  sort_entries processedFiles.
End processFiles.

(** ** OutputViewer.tsx: bundle selection *)

Module Bundle.
Record t : Type := mk {
  id : jsstring;
  name : jsstring;
  patterns : list jsstring }.
End Bundle.

Definition filteredFiles (files : list FileEntry.t) (bundles : list Bundle.t)
    (activeBundleId : jsstring) : list FileEntry.t :=
  if str_eqb activeBundleId (js "all") then files
  else
    match List.find (fun b => str_eqb (Bundle.id b) activeBundleId) bundles with
    | None => files
    | Some bundle =>
        List.filter
          (fun f => matchesAnyPattern (FileEntry.path f) (Bundle.patterns bundle))
          files
    end.

(** ** OutputViewer.tsx: the chunk packer *)

Module ChunkFileEntry.
Record t : Type := mk {
  path : jsstring;
  name : jsstring;
  content : jsstring;
  size : Z;
  extension : jsstring;
  originalPath : jsstring;
  isSplit : bool;
  partIndex : Z;
  totalParts : Z }.

(** [{...file, content: c, partIndex: i}] *)
Definition with_content (file : t) (c : jsstring) (i : Z) : t :=
  mk (path file) (name file) c (size file) (extension file)
     (originalPath file) (isSplit file) i (totalParts file).

(** [p.isSplit = true; p.totalParts = n] *)
Definition stamp (n : Z) (p : t) : t :=
  mk (path p) (name p) (content p) (size p) (extension p)
     (originalPath p) true (partIndex p) n.
End ChunkFileEntry.

Module Chunk.
Record t : Type := mk {
  id : jsstring;
  content : jsstring;
  files : list ChunkFileEntry.t;
  label : jsstring }.
End Chunk.

Definition PER_FILE_OVERHEAD : Z := 200.
Definition CHUNK_OVERHEAD : Z := 100.

Definition newline : ascii := chr 10.

(** [allFilesAsChunkFiles] *)
Definition asChunkFile (f : FileEntry.t) : ChunkFileEntry.t :=
  ChunkFileEntry.mk (FileEntry.path f) (FileEntry.name f) (FileEntry.content f)
    (FileEntry.size f) (FileEntry.extension f) (FileEntry.path f) false 1 1.

(** [Math.min(1000, maxChars * 0.2)] *)
Definition searchWindow (maxChars : Z) : Q :=
  Qmin (inject_Z 1000) (inject_Z maxChars * 0.2)%Q.

Definition findSplitPoint (text : jsstring) (maxChars : Z) : Z :=
  if jslen text <=? maxChars then jslen text
  else
    let lastNewline := lastIndexOf text newline maxChars in
    (* lastNewline > maxChars - searchWindow *)
    if negb (Qle_bool (inject_Z lastNewline)
                      (inject_Z maxChars - searchWindow maxChars)%Q)
    then lastNewline + 1
    else maxChars.

(** The part objects are shared: the array [fileParts] and the chunk that
    received a part hold the same object, and the loop over [fileParts]
    that ends the processing of a file writes [isSplit] and [totalParts]
    into it.  [heap] holds the part objects in allocation order and a
    reference is a position in it. *)
Abbreviation ref := nat.

Record TempChunk : Type := mkTemp {
  temp_id : jsstring;
  temp_files : list ref }.

Record PackState : Type := mkState {
  heap : list ChunkFileEntry.t;
  resultChunks : list TempChunk;
  currentChunkFiles : list ref;
  currentChunkSize : Z }.

(** The variables of the [while] loop of one file. *)
Record FileLoop : Type := mkLoop {
  state : PackState;
  remainingContent : jsstring;
  partCounter : Z;
  fileParts : list ref }.

(** [resultChunks.push({ id: `temp-${resultChunks.length}`, files:
    currentChunkFiles })] *)
Definition push_chunk (st : PackState) : list TempChunk :=
  resultChunks st ++
  [mkTemp (js "temp-" ++ str_of_nat (length (resultChunks st)))
          (currentChunkFiles st)].

(** push, then [currentChunkFiles = []; currentChunkSize = CHUNK_OVERHEAD] *)
Definition flush (st : PackState) : PackState :=
  mkState (heap st) (push_chunk st) [] CHUNK_OVERHEAD.

(** The [if]/[else] that cuts the next part off [remainingContent]: the
    part pushed on [fileParts], what remains, and the next [partCounter]. *)
Definition take_part (file : ChunkFileEntry.t) (remainingContent : jsstring)
    (partCounter currentSpace : Z) : ChunkFileEntry.t * jsstring * Z :=
  if jslen remainingContent <=? currentSpace then
    (ChunkFileEntry.with_content file remainingContent partCounter,
     [], partCounter)
  else
    let splitLength := findSplitPoint remainingContent currentSpace in
    let chunkContent := slice remainingContent 0 (Some splitLength) in
    (ChunkFileEntry.with_content file chunkContent partCounter,
     slice remainingContent splitLength None,
     partCounter + 1).

(** [currentChunkFiles.push(lastPart); currentChunkSize +=
    lastPart.content.length + PER_FILE_OVERHEAD], where [lastPart] is the
    object just allocated. *)
Definition push_part (st : PackState) (part : ChunkFileEntry.t) : PackState :=
  mkState (heap st ++ [part]) (resultChunks st)
    (currentChunkFiles st ++ [length (heap st)])
    (currentChunkSize st + jslen (ChunkFileEntry.content part)
     + PER_FILE_OVERHEAD).

(** One turn of the [while] loop for [file]. *)
Definition iteration (limitChars : Z) (file : ChunkFileEntry.t) (l : FileLoop)
  : FileLoop :=
  let st := state l in
  let spaceInCurrent := limitChars - currentChunkSize st in
  let maxContentInCurrent := spaceInCurrent - PER_FILE_OVERHEAD in
  if (maxContentInCurrent <? 500) && (0 <? length (currentChunkFiles st))%nat
  then (* flush and [continue] *)
    mkLoop (flush st) (remainingContent l) (partCounter l) (fileParts l)
  else
    let currentSpace := limitChars - currentChunkSize st - PER_FILE_OVERHEAD in
    let '(part, remaining', counter') :=
      take_part file (remainingContent l) (partCounter l) currentSpace in
    let lastPart : ref := length (heap st) in
    let st' := push_part st part in
    mkLoop (if 0 <? jslen remaining' then flush st' else st')
      remaining' counter' (fileParts l ++ [lastPart]).

(** [while (remainingContent.length > 0) { ... }]; [None]: out of fuel. *)
Fixpoint while_remaining (fuel : nat) (limitChars : Z)
    (file : ChunkFileEntry.t) (l : FileLoop) : option FileLoop :=
  if 0 <? jslen (remainingContent l) then
    match fuel with
    | O => None
    | S fuel' => while_remaining fuel' limitChars file (iteration limitChars file l)
    end
  else Some l.

(** [if (totalParts > 1) fileParts.forEach(p => { p.isSplit = true;
    p.totalParts = totalParts })] *)
Definition stamp_parts (fileParts : list ref) (h : list ChunkFileEntry.t)
  : list ChunkFileEntry.t :=
  let totalParts := Z.of_nat (length fileParts) in
  if 1 <? totalParts
  then foldl (fun h p => alter (ChunkFileEntry.stamp totalParts) p h) h fileParts
  else h.

(** The body of [for (const file of allFilesAsChunkFiles)]. *)
Definition pack_file (fuel : nat) (limitChars : Z) (file : ChunkFileEntry.t)
    (st : PackState) : option PackState :=
  l ← while_remaining fuel limitChars file
         (mkLoop st (ChunkFileEntry.content file) 1 []);
  let st' := state l in
  Some (mkState (stamp_parts (fileParts l) (heap st')) (resultChunks st')
          (currentChunkFiles st') (currentChunkSize st')).

Fixpoint pack_files (fuel : nat) (limitChars : Z)
    (files : list ChunkFileEntry.t) (st : PackState) : option PackState :=
  match files with
  | [] => Some st
  | file :: files' =>
      st' ← pack_file fuel limitChars file st;
      pack_files fuel limitChars files' st'
  end.

(** The objects a list of references stands for. *)
Definition deref (h : list ChunkFileEntry.t) (rs : list ref)
  : list ChunkFileEntry.t :=
  omap (fun r => h !! r) rs.

Section chunks.
(** [generateContent] renders a chunk in the selected output format; the
    packer only stores its result. *)
Variable generateContent :
  list ChunkFileEntry.t -> option Z -> option Z -> jsstring.

(** [if (currentChunkFiles.length > 0) resultChunks.push(...)] *)
Definition final_chunks (st : PackState) : list TempChunk :=
  if (0 <? length (currentChunkFiles st))%nat then push_chunk st
  else resultChunks st.

(** [resultChunks.map((chunk, index) => ...)] *)
Definition render_chunks (h : list ChunkFileEntry.t)
    (resultChunks : list TempChunk) : list Chunk.t :=
  let total := length resultChunks in
  imap (fun index chunk =>
          let files := deref h (temp_files chunk) in
          Chunk.mk (js "part-" ++ str_of_nat (index + 1))
            (generateContent files (Some (Z.of_nat (index + 1)))
               (Some (Z.of_nat total)))
            files
            (js "Part " ++ str_of_nat (index + 1) ++ js " of "
             ++ str_of_nat total))
       resultChunks.

(** The [chunks] memo: [None] when a [while] loop runs out of fuel. *)
Definition chunks (fuel : nat) (filteredFiles : list FileEntry.t)
    (enableSplitting : bool) (maxTokens : Z) : option (list Chunk.t) :=
  let allFilesAsChunkFiles := map asChunkFile filteredFiles in
  if (length allFilesAsChunkFiles =? 0)%nat then Some []
  else if negb enableSplitting then
    Some [Chunk.mk (js "full") (generateContent allFilesAsChunkFiles None None)
            allFilesAsChunkFiles (js "Full Context")]
  else
    let limitChars := maxTokens * 4 in
    st ← pack_files fuel limitChars allFilesAsChunkFiles
           (mkState [] [] [] CHUNK_OVERHEAD);
    Some (render_chunks (heap st) (final_chunks st)).
End chunks.

(** ** Notions used to state the properties *)

(** The segment-shorthand reading of a bare pattern, in the words of the
    specification: the path equals the pattern, starts with [pattern/],
    ends with [/pattern], or contains [/pattern/]. *)
Definition shorthand_spec (p pattern : jsstring) : Prop :=
  p = pattern
  \/ (pattern ++ js "/") `prefix_of` p
  \/ (js "/" ++ pattern) `suffix_of` p
  \/ exists k1 k2, p = k1 ++ (js "/" ++ pattern ++ js "/") ++ k2.

(** The entry [processFiles] pushes for a file whose text is [content]. *)
Definition entry_of (file : File.t) (content : jsstring) : FileEntry.t :=
  FileEntry.mk (path_of file) (File.name file) content (File.size file)
    (extension_of (File.name file)).

(** The four checks, in the order of the loop body. *)
Definition passes_checks (ignorePatterns ignoreExtensions : list jsstring)
    (path name : jsstring) (size : Z) (content : jsstring) : Prop :=
  matchesAnyPattern path ignorePatterns = false
  /\ (dotted_extension name ∉ ignoreExtensions)
  /\ size <= 500 * 1024
  /\ (chr 0 ∉ content).

(** The references held by the chunks, finished ones first. *)
Definition flat_refs (st : PackState) : list ref :=
  concat (map temp_files (resultChunks st)) ++ currentChunkFiles st.

(** The part objects of [file] for the content slices [cs], as [take_part]
    allocates them. *)
Definition mk_parts (file : ChunkFileEntry.t) (cs : list jsstring)
  : list ChunkFileEntry.t :=
  imap (fun i c => ChunkFileEntry.with_content file c (Z.of_nat i + 1)) cs.

(** The same objects once the file is finished: stamped when there is more
    than one. *)
Definition final_parts (file : ChunkFileEntry.t) (cs : list jsstring)
  : list ChunkFileEntry.t :=
  if 1 <? Z.of_nat (length cs)
  then ChunkFileEntry.stamp (Z.of_nat (length cs)) <$> mk_parts file cs
  else mk_parts file cs.

(** [b] is the sequence of parts of [f]: they carry its path, are numbered
    from 1 in order, and their contents put end to end are its content. *)
Definition reconstructs (f : FileEntry.t) (b : list ChunkFileEntry.t) : Prop :=
  Forall (fun p => ChunkFileEntry.originalPath p = FileEntry.path f) b
  /\ map ChunkFileEntry.partIndex b = seqZ 1 (Z.of_nat (length b))
  /\ concat (map ChunkFileEntry.content b) = FileEntry.content f.

(** All parts emitted by a run, in chunk order. *)
Definition emitted (cs : list Chunk.t) : list ChunkFileEntry.t :=
  concat (map Chunk.files cs).

(** The parts emitted for the file of path [p]. *)
Definition parts_of (p : jsstring) (cs : list Chunk.t) : list ChunkFileEntry.t :=
  List.filter (fun q => str_eqb (ChunkFileEntry.originalPath q) p) (emitted cs).

(** What bounds the number of turns the [while] loop still makes when every
    cutting turn consumes content: two per remaining unit, one more for a
    pending flush. *)
Definition loop_measure (l : FileLoop) : nat :=
  (2 * length (remainingContent l)
   + if (0 <? length (currentChunkFiles (state l)))%nat then 1 else 0)%nat.

(** The expression [globToRegex] builds, read off the pattern: [**] is one
    unit that is not a line terminator followed by a run of non-separators
    (the pass for [*] rewrites the star of the [.*] that the pass for [**]
    has inserted), a remaining [*] is a run of non-separators, [?] is one
    unit that is not a line terminator, and any other unit stands for
    itself. *)
Fixpoint compile_glob (pattern : jsstring) : list term :=
  match pattern with
  | [] => []
  | c :: p' =>
      if Ascii.eqb c "*"%char then
        match p' with
        | d :: p'' =>
            if Ascii.eqb d "*"%char
            then Once ADot :: Star ANotSlash :: compile_glob p''
            else Star ANotSlash :: compile_glob p'
        | [] => [Star ANotSlash]
        end
      else if Ascii.eqb c "?"%char then Once ADot :: compile_glob p'
      else Once (AChar c) :: compile_glob p'
  end.

(** The text between [^] and [$] in [globToRegex_source]. *)
Definition regex_body (pattern : jsstring) : jsstring :=
  replace_question (replace_star (replace_starstar (escape_special pattern))).

(** A chunk without files is a fresh one: its size is the bare overhead. *)
Definition fresh_inv (st : PackState) : Prop :=
  currentChunkFiles st = [] -> currentChunkSize st = CHUNK_OVERHEAD.

(** Fuel that lets every [while] loop of a run finish when the budget leaves
    room for content. *)
Definition enough_fuel (files : list FileEntry.t) : nat :=
  S (2 * length (concat (map FileEntry.content files))).

(** The state of the loop for [file], started on a heap [h0]: the parts
    allocated so far are those of the content slices [cs], [fileParts]
    refers to them, and [cs] followed by what remains is the content. *)
Definition loop_inv (h0 : list ChunkFileEntry.t) (file : ChunkFileEntry.t)
    (l : FileLoop) : Prop :=
  exists cs : list jsstring,
    heap (state l) = h0 ++ mk_parts file cs
    /\ fileParts l = seq (length h0) (length cs)
    /\ flat_refs (state l) = seq 0 (length (heap (state l)))
    /\ (remainingContent l <> [] -> partCounter l = Z.of_nat (length cs) + 1)
    /\ concat cs ++ remainingContent l = ChunkFileEntry.content file.

(** The block of parts of each file, in file order. *)
Definition file_block (file : ChunkFileEntry.t) (b : list ChunkFileEntry.t)
  : Prop :=
  exists cs,
    b = final_parts file cs
    /\ concat cs = ChunkFileEntry.content file
    /\ (ChunkFileEntry.content file = [] -> cs = []).

(** ** Notions for the further properties of the packer *)

(** The size the packer accounts for a chunk that holds the parts [ps]: the
    chunk overhead, and for each part its content and the file overhead. *)
Definition accounted_size (ps : list ChunkFileEntry.t) : Z :=
  CHUNK_OVERHEAD
  + foldr (fun c acc => jslen c + PER_FILE_OVERHEAD + acc) 0
      (ChunkFileEntry.content <$> ps).

(** Every finished chunk holds at least one part. *)
Definition chunks_inhabited (st : PackState) : Prop :=
  Forall (fun ch => temp_files ch <> []) (resultChunks st).

(** The accounting of the packer for the limit [limitChars]: the running
    size is the accounted size of the chunk being built, no chunk is
    accounted more than one unit above the limit, and every part is
    non-empty and at most one unit longer than the space of a fresh chunk. *)
Definition size_inv (limitChars : Z) (st : PackState) : Prop :=
  flat_refs st = seq 0 (length (heap st))
  /\ currentChunkSize st
     = accounted_size (deref (heap st) (currentChunkFiles st))
  /\ currentChunkSize st <= limitChars + 1
  /\ Forall (fun ch =>
               accounted_size (deref (heap st) (temp_files ch)) <= limitChars + 1)
       (resultChunks st)
  /\ Forall (fun c =>
               1 <= jslen c <= limitChars - CHUNK_OVERHEAD - PER_FILE_OVERHEAD + 1)
       (ChunkFileEntry.content <$> heap st).

(** The marks of a finished file on its block of parts: every part carries
    the number of parts, and is marked split when there are several. *)
Definition split_marks (b : list ChunkFileEntry.t) : Prop :=
  Forall (fun p =>
            ChunkFileEntry.totalParts p = Z.of_nat (length b)
            /\ ChunkFileEntry.isSplit p = (1 <? Z.of_nat (length b)))
    b.

(** Index [k] lies in the search window before [maxChars]:
    [k > maxChars - Math.min(1000, maxChars * 0.2)]. *)
Definition in_window (maxChars k : Z) : Prop :=
  if 5000 <=? maxChars then maxChars - 1000 < k else 4 * maxChars < 5 * k.

(** ** Notions for the further properties of the matcher *)

(** What an anchored expression accepts: each atom one unit it matches,
    each starred atom a run of such units. *)
Fixpoint regex_accepts (ts : list term) (s : jsstring) : Prop :=
  match ts with
  | [] => s = []
  | Once a :: ts' =>
      exists x rest,
        s = x :: rest /\ atom_matches a x = true /\ regex_accepts ts' rest
  | Star a :: ts' =>
      exists run rest,
        s = run ++ rest
        /\ Forall (fun x => atom_matches a x = true) run
        /\ regex_accepts ts' rest
  end.

(** Two strings that differ at most in the case of their letters. *)
Definition same_fold (s t : jsstring) : Prop :=
  map canonicalize s = map canonicalize t.

(** A pattern character that stands for itself. *)
Definition literal_unit (c : ascii) : Prop :=
  c <> "*"%char /\ c <> "?"%char.

(** The comparator sorts any two paths one way or the other. *)
Definition total_compare (localeCompare : jsstring -> jsstring -> Z) : Prop :=
  forall a b, localeCompare a b <= 0 \/ localeCompare b a <= 0.

(** ** OutputViewer.tsx: the token estimate *)

(** [Math.ceil(text.length / 4)] *)
Definition estimateTokens (text : jsstring) : Z := (jslen text + 3) / 4.

(** ** dependencyAnalyzer.ts: path resolution *)

(** [s.split(sep)] for a one-unit separator: never empty. *)
Fixpoint split_on (sep : ascii) (s : jsstring) : list jsstring :=
  match s with
  | [] => [[]]
  | c :: s' =>
      if Ascii.eqb c sep then [] :: split_on sep s'
      else match split_on sep s' with
           | seg :: segs => (c :: seg) :: segs
           | [] => [[c]]
           end
  end.

(** [parts.join(sep)] *)
Fixpoint join (sep : jsstring) (parts : list jsstring) : jsstring :=
  match parts with
  | [] => []
  | [p] => p
  | p :: ps => p ++ sep ++ join sep ps
  end.

(** [allPaths.has(p)] for the set built from the elements [allPaths]. *)
Definition set_has (allPaths : list jsstring) (p : jsstring) : bool :=
  existsb (str_eqb p) allPaths.

(** The first candidate [base + ext] that the set holds. *)
Fixpoint first_candidate (allPaths : list jsstring) (base : jsstring)
    (extensions : list jsstring) : option jsstring :=
  match extensions with
  | [] => None
  | ext :: exts =>
      if set_has allPaths (base ++ ext) then Some (base ++ ext)
      else first_candidate allPaths base exts
  end.

(** The loop over [importParts]: [.] is skipped, [..] pops a directory
    (nothing when there is none), any other part is pushed. *)
Definition walk_parts (currentParts importParts : list jsstring)
  : list jsstring :=
  foldl (fun cur part =>
           if str_eqb part (js ".") then cur
           else if str_eqb part (js "..") then removelast cur
           else cur ++ [part])
        currentParts importParts.

(** [resolvedPath] of the relative branch. *)
Definition relative_base (currentPath importPath : jsstring) : jsstring :=
  let currentParts := removelast (split_on "/"%char currentPath) in
  join (js "/") (walk_parts currentParts (split_on "/"%char importPath)).

Definition RELATIVE_EXTENSIONS : list jsstring :=
  [[]; js ".ts"; js ".tsx"; js ".js"; js ".jsx"; js ".css"; js ".json";
   js "/index.ts"; js "/index.js"].

Definition ROOT_EXTENSIONS : list jsstring :=
  [[]; js ".ts"; js ".tsx"; js ".js"; js ".jsx"].

(** The last loop: for each extension, [normalized + ext], then
    [src/normalized + ext]. *)
Fixpoint root_candidate (allPaths : list jsstring) (normalized : jsstring)
    (extensions : list jsstring) : option jsstring :=
  match extensions with
  | [] => None
  | ext :: exts =>
      if set_has allPaths (normalized ++ ext) then Some (normalized ++ ext)
      else if set_has allPaths (js "src/" ++ normalized ++ ext)
      then Some (js "src/" ++ normalized ++ ext)
      else root_candidate allPaths normalized exts
  end.

(** [resolvePath]; [None] is [null]. *)
Definition resolvePath (currentPath importPath : jsstring)
    (allPaths : list jsstring) : option jsstring :=
  let normalized := importPath in
  if set_has allPaths normalized then Some normalized
  else
    match
      (if startsWith normalized (js ".") then
         first_candidate allPaths (relative_base currentPath normalized)
           RELATIVE_EXTENSIONS
       else None)
    with
    | Some candidate => Some candidate
    | None => root_candidate allPaths normalized ROOT_EXTENSIONS
    end.

(** ** OutputViewer.tsx: the renderer *)

Inductive OutputFormat : Type := XML | MARKDOWN | JSON.

Definition dquote : ascii := chr 34.
Definition backslash : ascii := chr 92.

(** A number inside a template literal or serialized by [JSON.stringify]. *)
Definition str_of_Z (z : Z) : jsstring :=
  if z <? 0 then js "-" ++ str_of_nat (Z.to_nat (- z))
  else str_of_nat (Z.to_nat z).

(** [${n}] for an optional number: [undefined] prints as such. *)
Definition show_num (n : option Z) : jsstring :=
  match n with
  | Some z => str_of_Z z
  | None => js "undefined"
  end.

(** The truth value of an optional number: [undefined] and [0] are false. *)
Definition num_truthy (n : option Z) : bool :=
  match n with
  | Some z => negb (z =? 0)
  | None => false
  end.

(** [partAttr] *)
Definition xml_part_attr (part totalParts : option Z) : jsstring :=
  if num_truthy part then
    js " part=" ++ [dquote] ++ show_num part ++ [dquote]
    ++ js " total_parts=" ++ [dquote] ++ show_num totalParts ++ [dquote]
  else [].

(** [splitAttr] *)
Definition xml_split_attr (f : ChunkFileEntry.t) : jsstring :=
  if ChunkFileEntry.isSplit f then
    js " split_part=" ++ [dquote] ++ str_of_Z (ChunkFileEntry.partIndex f)
    ++ [dquote] ++ js " split_total=" ++ [dquote]
    ++ str_of_Z (ChunkFileEntry.totalParts f) ++ [dquote]
  else [].

(** The element of one file in the XML form. *)
Definition xml_file (f : ChunkFileEntry.t) : jsstring :=
  js "  <file path=" ++ [dquote] ++ ChunkFileEntry.originalPath f ++ [dquote]
  ++ xml_split_attr f ++ js ">" ++ [newline] ++ js "<![CDATA[" ++ [newline]
  ++ ChunkFileEntry.content f ++ [newline] ++ js "]]>" ++ [newline]
  ++ js "  </file>".

Definition render_xml (fileList : list ChunkFileEntry.t)
    (part totalParts : option Z) : jsstring :=
  js "<project_context" ++ xml_part_attr part totalParts ++ js ">" ++ [newline]
  ++ join [newline] (map xml_file fileList) ++ [newline]
  ++ js "</project_context>".

(** [splitLabel] *)
Definition md_split_label (f : ChunkFileEntry.t) : jsstring :=
  if ChunkFileEntry.isSplit f then
    js " (Part " ++ str_of_Z (ChunkFileEntry.partIndex f) ++ js " of "
    ++ str_of_Z (ChunkFileEntry.totalParts f) ++ js ")"
  else [].

(** The section of one file in the Markdown form. *)
Definition md_file (f : ChunkFileEntry.t) : jsstring :=
  js "### File: " ++ ChunkFileEntry.originalPath f ++ md_split_label f
  ++ [newline] ++ js "```" ++ ChunkFileEntry.extension f ++ [newline]
  ++ ChunkFileEntry.content f ++ [newline] ++ js "```".

Definition render_markdown (fileList : list ChunkFileEntry.t)
    (part totalParts : option Z) : jsstring :=
  (if num_truthy part then
     js "# Project Context - Part " ++ show_num part ++ js " of "
     ++ show_num totalParts ++ [newline; newline]
   else [])
  ++ join [newline; newline] (map md_file fileList).

(** The values [JSON.stringify] meets here; a property whose value is
    [undefined] is left out when the object is built. *)
#[local] Set Warnings "-register-all".
Inductive jvalue : Type :=
  | JNum (z : Z)
  | JStr (s : jsstring)
  | JObj (props : list (jsstring * jvalue))
  | JArr (items : list jvalue).

Definition hex_digit (n : Z) : ascii :=
  if n <? 10 then chr (48 + n) else chr (87 + n).

(** The escape of one code unit in a JSON string. *)
Definition json_escape (c : ascii) : jsstring :=
  let n := code c in
  if n =? 8 then [backslash; "b"%char]
  else if n =? 9 then [backslash; "t"%char]
  else if n =? 10 then [backslash; "n"%char]
  else if n =? 12 then [backslash; "f"%char]
  else if n =? 13 then [backslash; "r"%char]
  else if n =? 34 then [backslash; dquote]
  else if n =? 92 then [backslash; backslash]
  else if n <? 32 then
    [backslash; "u"%char; "0"%char; "0"%char; hex_digit (n / 16);
     hex_digit (n mod 16)]
  else [c].

(** [QuoteJSONString] *)
Definition quoteJSON (s : jsstring) : jsstring :=
  [dquote] ++ flat_map json_escape s ++ [dquote].

(** [JSON.stringify(v, null, 2)] at the current indentation. *)
Fixpoint stringify (indent : jsstring) (v : jvalue) : jsstring :=
  match v with
  | JNum z => str_of_Z z
  | JStr s => quoteJSON s
  | JObj props =>
      match props with
      | [] => js "{}"
      | _ :: _ =>
          let inner := indent ++ js "  " in
          js "{" ++ [newline] ++ inner
          ++ join (js "," ++ [newline] ++ inner)
               (map (fun kv => quoteJSON (fst kv) ++ js ": "
                               ++ stringify inner (snd kv)) props)
          ++ [newline] ++ indent ++ js "}"
      end
  | JArr items =>
      match items with
      | [] => js "[]"
      | _ :: _ =>
          let inner := indent ++ js "  " in
          js "[" ++ [newline] ++ inner
          ++ join (js "," ++ [newline] ++ inner) (map (stringify inner) items)
          ++ [newline] ++ indent ++ js "]"
      end
  end.

(** The entry of one file in [data.files]. *)
Definition json_file (f : ChunkFileEntry.t) : jvalue :=
  JObj ([(js "path", JStr (ChunkFileEntry.originalPath f));
         (js "content", JStr (ChunkFileEntry.content f))]
        ++ if ChunkFileEntry.isSplit f then
             [(js "split",
               JObj [(js "part", JNum (ChunkFileEntry.partIndex f));
                     (js "total", JNum (ChunkFileEntry.totalParts f))])]
           else []).

(** [data] *)
Definition json_data (fileList : list ChunkFileEntry.t)
    (part totalParts : option Z) : jvalue :=
  JObj ((if num_truthy part then
           [(js "meta",
             JObj (match part with Some p => [(js "part", JNum p)] | None => [] end
                   ++ match totalParts with
                      | Some t => [(js "totalParts", JNum t)]
                      | None => []
                      end))]
         else [])
        ++ [(js "files", JArr (map json_file fileList))]).

Definition generateContent (format : OutputFormat)
    (fileList : list ChunkFileEntry.t) (part totalParts : option Z) : jsstring :=
  if (length fileList =? 0)%nat then []
  else
    match format with
    | XML => render_xml fileList part totalParts
    | MARKDOWN => render_markdown fileList part totalParts
    | JSON => stringify [] (json_data fileList part totalParts)
    end.

(** ** Notions for the properties of the renderer *)

(** What a content must hold to close its own element and open one for
    [f]. *)
Definition xml_breakout (f : ChunkFileEntry.t) : jsstring :=
  [newline] ++ js "]]>" ++ [newline] ++ js "  </file>" ++ [newline]
  ++ js "  <file path=" ++ [dquote] ++ ChunkFileEntry.originalPath f ++ [dquote]
  ++ xml_split_attr f ++ js ">" ++ [newline] ++ js "<![CDATA[" ++ [newline].

(** The same for the Markdown form: close the fence, open a section. *)
Definition md_breakout (f : ChunkFileEntry.t) : jsstring :=
  [newline] ++ js "```" ++ [newline; newline]
  ++ js "### File: " ++ ChunkFileEntry.originalPath f ++ md_split_label f
  ++ [newline] ++ js "```" ++ ChunkFileEntry.extension f ++ [newline].

(** Reads one escaped code unit back, for the proof that quoting loses
    nothing. *)
Definition hex_value (c : ascii) : Z :=
  let n := code c in if n <? 58 then n - 48 else n - 87.

Definition json_unescape_head (s : jsstring) : option (ascii * jsstring) :=
  match s with
  | [] => None
  | c :: r =>
      if Ascii.eqb c backslash then
        match r with
        | t :: r' =>
            if Ascii.eqb t "b"%char then Some (chr 8, r')
            else if Ascii.eqb t "t"%char then Some (chr 9, r')
            else if Ascii.eqb t "n"%char then Some (chr 10, r')
            else if Ascii.eqb t "f"%char then Some (chr 12, r')
            else if Ascii.eqb t "r"%char then Some (chr 13, r')
            else if Ascii.eqb t "u"%char then
              match r' with
              | _ :: _ :: h :: l :: r'' =>
                  Some (chr (hex_value h * 16 + hex_value l), r'')
              | _ => None
              end
            else Some (t, r')
        | [] => None
        end
      else Some (c, r)
  end.
(** What the JSON form shows of a file: its path, its content and, for a
    split file, the two part numbers. *)
Definition json_view (f : ChunkFileEntry.t) : jsstring * jsstring * option (Z * Z) :=
  (ChunkFileEntry.originalPath f, ChunkFileEntry.content f,
   if ChunkFileEntry.isSplit f
   then Some (ChunkFileEntry.partIndex f, ChunkFileEntry.totalParts f)
   else None).

(** The characters of a printed integer. *)
Definition numeric (c : ascii) : bool :=
  existsb (Ascii.eqb c) (js "-0123456789").

(** ** treeGenerator: the ASCII tree *)

Module TreeNode.
Inductive kind : Type := file | folder.

Inductive t : Type :=
  mk (name : jsstring) (type : kind) (children : list t).

Definition name (node : t) : jsstring := let 'mk n _ _ := node in n.
Definition type (node : t) : kind := let 'mk _ k _ := node in k.
Definition children (node : t) : list t := let 'mk _ _ cs := node in cs.

Definition kind_eqb (a b : kind) : bool :=
  match a, b with
  | file, file | folder, folder => true
  | _, _ => false
  end.
End TreeNode.

(** [c => c.name === part] *)
Definition named (part : jsstring) (c : TreeNode.t) : bool :=
  str_eqb (TreeNode.name c) part.

(** One step of the inner loop: the first child called [part] is the next
    [current], a missing one is pushed at the end; [descend] is the rest of
    the loop, run on the children of that node. *)
Fixpoint find_or_push (part : jsstring) (type : TreeNode.kind)
    (descend : list TreeNode.t -> list TreeNode.t)
    (children : list TreeNode.t) : list TreeNode.t :=
  match children with
  | [] => [TreeNode.mk part type (descend [])]
  | c :: rest =>
      if named part c
      then TreeNode.mk (TreeNode.name c) (TreeNode.type c)
             (descend (TreeNode.children c)) :: rest
      else c :: find_or_push part type descend rest
  end.

(** The inner loop over [parts], on the children of [current]. *)
Fixpoint add_path (parts : list jsstring) (children : list TreeNode.t) :
    list TreeNode.t :=
  match parts with
  | [] => children
  | part :: rest =>
      find_or_push part
        (if (length rest =? 0)%nat then TreeNode.file else TreeNode.folder)
        (add_path rest) children
  end.

(** Step 1: the tree of the paths. *)
Definition build_tree (paths : list jsstring) : TreeNode.t :=
  TreeNode.mk (js ".") TreeNode.folder
    (foldl (fun children path => add_path (split_on "/" path) children)
       [] paths).

Section treeGenerator.
Variable localeCompare : jsstring -> jsstring -> Z.

(** The comparator of [sortNodes]. *)
Definition compareNodes (a b : TreeNode.t) : Z :=
  if negb (TreeNode.kind_eqb (TreeNode.type a) (TreeNode.type b))
  then (if TreeNode.kind_eqb (TreeNode.type a) TreeNode.folder then -1 else 1)
  else localeCompare (TreeNode.name a) (TreeNode.name b).

(** [Array.prototype.sort], which is stable: an element goes behind the
    elements it compares greater than and before the first other one. *)
Fixpoint insert_node (x : TreeNode.t) (sorted : list TreeNode.t) :
    list TreeNode.t :=
  match sorted with
  | [] => [x]
  | y :: rest =>
      if compareNodes x y >? 0 then y :: insert_node x rest
      else x :: sorted
  end.

Definition sort_nodes (nodes : list TreeNode.t) : list TreeNode.t :=
  foldr insert_node [] nodes.

(** Step 2.  The comparator reads names and types only, which sorting the
    levels below leaves alone, so the children are sorted here after the
    levels below them ([sortNodes_children] gives the order of the
    source). *)
Fixpoint sortNodes (node : TreeNode.t) : TreeNode.t :=
  match node with
  | TreeNode.mk name type children =>
      TreeNode.mk name type (sort_nodes (map sortNodes children))
  end.
End treeGenerator.

(** The code units of the output: the connectors lie outside Latin-1. *)
Definition units (s : jsstring) : list Z := map code s.

Definition connector (isLast : bool) : list Z :=
  if isLast then [9492; 9472; 9472; 32] else [9500; 9472; 9472; 32].

Definition indentation (isLast : bool) : list Z :=
  if isLast then [32; 32; 32; 32] else [9474; 32; 32; 32].

(** What [draw] appends for one node and the nodes below it. *)
Fixpoint draw_node (prefix : list Z) (isLast : bool) (node : TreeNode.t) :
    list Z :=
  match node with
  | TreeNode.mk name _ children =>
      (prefix ++ connector isLast ++ units name ++ [10])
      ++ (if (0 <? length children)%nat then
            (fix draw (nodes : list TreeNode.t) : list Z :=
               match nodes with
               | [] => []
               | n :: rest =>
                   draw_node (prefix ++ indentation isLast)
                     (length rest =? 0)%nat n
                   ++ draw rest
               end) children
          else [])
  end.

(** [draw(nodes, prefix)] *)
Fixpoint draw (nodes : list TreeNode.t) (prefix : list Z) : list Z :=
  match nodes with
  | [] => []
  | n :: rest => draw_node prefix (length rest =? 0)%nat n ++ draw rest prefix
  end.

Definition generateAsciiTree (localeCompare : jsstring -> jsstring -> Z)
    (paths : list jsstring) : list Z :=
  [46; 10]
  ++ draw (TreeNode.children (sortNodes localeCompare (build_tree paths))) [].

(** ** Notions for the properties of the tree *)

(** The kind of the node that [parts] leads to, from a list of children. *)
Fixpoint kind_at (parts : list jsstring) (children : list TreeNode.t) :
    option TreeNode.kind :=
  match parts with
  | [] => None
  | part :: rest =>
      match find (named part) children with
      | None => None
      | Some c =>
          if (length rest =? 0)%nat then Some (TreeNode.type c)
          else kind_at rest (TreeNode.children c)
      end
  end.

(** [P] holds of the children of every node, at every depth. *)
Inductive every_level (P : list TreeNode.t -> Prop) :
    list TreeNode.t -> Prop :=
  | every_level_intro (children : list TreeNode.t) :
      P children ->
      Forall (fun c => every_level P (TreeNode.children c)) children ->
      every_level P children.

(** The nodes at and below a node. *)
Fixpoint node_count (node : TreeNode.t) : nat :=
  match node with
  | TreeNode.mk _ _ children => S (list_sum (map node_count children))
  end.

Definition forest_count (nodes : list TreeNode.t) : nat :=
  list_sum (map node_count nodes).

(** Folders, then files. *)
Definition folders_first (nodes : list TreeNode.t) : Prop :=
  exists folders files,
    nodes = folders ++ files
    /\ Forall (fun c => TreeNode.type c = TreeNode.folder) folders
    /\ Forall (fun c => TreeNode.type c = TreeNode.file) files.

(* ===================================================================== *)
(** * Part II: properties                                                 *)
(* ===================================================================== *)

(** ** String primitives against their declarative readings *)

Lemma str_eqb_eq (a b : jsstring) : str_eqb a b = true <-> a = b.
Proof.
  revert b; induction a as [|x a IH]; intros [|y b]; simpl; try (split; congruence).
  rewrite andb_true_iff, Ascii.eqb_eq, IH. split.
  - intros [-> ->]; reflexivity.
  - intros [= -> ->]; auto.
Qed.

Lemma str_eqb_refl (a : jsstring) : str_eqb a a = true.
Proof. apply str_eqb_eq; reflexivity. Qed.

Lemma str_eqb_neq (a b : jsstring) : str_eqb a b = false <-> a <> b.
Proof.
  rewrite <- str_eqb_eq. destruct (str_eqb a b); split; congruence.
Qed.

Lemma startsWith_prefix (s p : jsstring) :
  startsWith s p = true <-> p `prefix_of` s.
Proof.
  revert s; induction p as [|y p IH]; intros s; simpl.
  - split; [intros _; apply prefix_nil | reflexivity].
  - destruct s as [|x s].
    + split; [discriminate|]. intros [k Hk]; discriminate.
    + rewrite andb_true_iff, Ascii.eqb_eq, IH. split.
      * intros [-> Hp]. by apply prefix_cons.
      * intros [k Hk]. injection Hk as -> ->. split; [done|]. by exists k.
Qed.

Lemma includes_infix (s p : jsstring) :
  includes s p = true <-> exists k1 k2, s = k1 ++ p ++ k2.
Proof.
  induction s as [|x s IH]; simpl.
  - rewrite orb_false_r, startsWith_prefix. split.
    + intros [k ->]. by exists [], k.
    + intros (k1 & k2 & Hk). destruct k1; [|discriminate].
      simpl in Hk. by exists k2.
  - rewrite orb_true_iff, startsWith_prefix, IH. split.
    + intros [[k ->] | (k1 & k2 & ->)].
      * by exists [], k.
      * by exists (x :: k1), k2.
    + intros (k1 & k2 & Hk). destruct k1 as [|z k1]; simpl in Hk.
      * left. by exists k2.
      * right. injection Hk as -> ->. by exists k1, k2.
Qed.

Lemma includes_unit (s : jsstring) (c : ascii) :
  includes s [c] = true <-> c ∈ s.
Proof.
  rewrite includes_infix. split.
  - intros (k1 & k2 & ->). simpl. rewrite elem_of_app, elem_of_cons. auto.
  - intros (k1 & k2 & ->)%list_elem_of_split. by exists k1, k2.
Qed.

Lemma endsWith_suffix (s p : jsstring) :
  endsWith s p = true <-> p `suffix_of` s.
Proof.
  unfold endsWith. rewrite andb_true_iff, Nat.leb_le, str_eqb_eq. split.
  - intros [Hlen Heq]. exists (take (length s - length p)%nat s).
    rewrite <- Heq at 2. by rewrite take_drop.
  - intros [k ->]. rewrite length_app. split; [lia|].
    replace (length k + length p - length p)%nat with (length k) by lia.
    by rewrite drop_app_length.
Qed.

(** ** Pattern matcher *)

Lemma existsb_singleton {A} (f : A -> bool) (x : A) : existsb f [x] = f x.
Proof. simpl. apply orb_false_r. Qed.

Lemma matchesPattern_shorthand (p pattern : jsstring) :
  "/"%char ∉ pattern -> "*"%char ∉ pattern ->
  matchesPattern p pattern = true <-> shorthand_spec p pattern.
Proof.
  intros Hslash Hstar. unfold matchesPattern, shorthand_spec.
  assert (includes pattern (js "/") = false) as ->.
  { apply not_true_is_false. by rewrite (includes_unit pattern "/"). }
  assert (includes pattern (js "*") = false) as ->.
  { apply not_true_is_false. by rewrite (includes_unit pattern "*"). }
  simpl negb. cbv iota. simpl andb.
  destruct (str_eqb pattern p) eqn:E.
  - apply str_eqb_eq in E. subst. tauto.
  - rewrite !orb_true_iff, includes_infix, startsWith_prefix,
      endsWith_suffix, str_eqb_eq. tauto.
Qed.

(** C7: a pattern with neither [/] nor [*] is a segment shorthand: it
    matches exactly when the slash-normalized path equals the pattern, starts
    with [pattern/], ends with [/pattern] or contains [/pattern/]; and
    ["node_modules"] matches ["src/node_modules/x.ts"] but not ["a/b/c.ts"]. *)
Theorem matchesAnyPattern_shorthand (path : jsstring) (patterns : list jsstring) :
  Forall (fun pattern => ("/"%char ∉ pattern) /\ ("*"%char ∉ pattern)) patterns ->
  (matchesAnyPattern path patterns = true <->
   Exists (shorthand_spec (normalizePath path)) patterns)
  /\ matchesAnyPattern (js "src/node_modules/x.ts") [js "node_modules"] = true
  /\ matchesAnyPattern (js "a/b/c.ts") [js "node_modules"] = false.
Proof.
  intros Hall. split; [|split; reflexivity].
  unfold matchesAnyPattern. rewrite existsb_exists, Exists_exists.
  rewrite Forall_forall in Hall.
  split; intros (pattern & Hin & Hm); exists pattern.
  - apply list_elem_of_In in Hin. destruct (Hall _ Hin) as [H1 H2].
    split; [done|]. by apply matchesPattern_shorthand.
  - destruct (Hall _ Hin) as [H1 H2].
    split; [by apply list_elem_of_In|]. by apply matchesPattern_shorthand.
Qed.

Lemma matchesAnyPattern_shorthand_witness :
  matchesAnyPattern (js "lib\dist\x.js") [js "build"; js "dist"] = true <->
  Exists (shorthand_spec (normalizePath (js "lib\dist\x.js")))
    [js "build"; js "dist"].
Proof.
  apply (matchesAnyPattern_shorthand (js "lib\dist\x.js") [js "build"; js "dist"]).
  repeat constructor; rewrite list_elem_of_In; simpl; intuition discriminate.
Defined.

(** ** The expression compiled from a pattern *)

Lemma replace_starstar_other (c : ascii) (s : jsstring) :
  c <> "*"%char -> replace_starstar (c :: s) = c :: replace_starstar s.
Proof.
  intros Hc%Ascii.eqb_neq. destruct s as [|d s]; simpl; [done|].
  by rewrite Hc.
Qed.

Lemma replace_starstar_lone (d : ascii) (s : jsstring) :
  d <> "*"%char ->
  replace_starstar ("*"%char :: d :: s) = "*"%char :: replace_starstar (d :: s).
Proof. intros Hd%Ascii.eqb_neq. simpl. by rewrite Hd. Qed.

(** The escaped pattern begins with a star only if the pattern does. *)
Lemma escape_special_head (d : ascii) (p : jsstring) :
  d <> "*"%char ->
  exists e s, escape_special (d :: p) = e :: s /\ e <> "*"%char.
Proof.
  intros Hd. unfold escape_special. simpl.
  destruct (regex_special d); simpl; eexists _, _; split; done.
Qed.

Lemma escape_special_cons (c : ascii) (p : jsstring) :
  escape_special (c :: p)
  = (if regex_special c then ["\"%char; c] else [c]) ++ escape_special p.
Proof. reflexivity. Qed.

Lemma replace_star_cons (c : ascii) (s : jsstring) :
  replace_star (c :: s)
  = (if Ascii.eqb c "*"%char then js "[^/]*" else [c]) ++ replace_star s.
Proof. reflexivity. Qed.

Lemma replace_question_cons (c : ascii) (s : jsstring) :
  replace_question (c :: s)
  = (if Ascii.eqb c "?"%char then "."%char else c) :: replace_question s.
Proof. reflexivity. Qed.

Lemma regex_body_nil : regex_body [] = [].
Proof. reflexivity. Qed.

Lemma regex_body_special (c : ascii) (p : jsstring) :
  regex_special c = true ->
  regex_body (c :: p) = "\"%char :: c :: regex_body p.
Proof.
  intros Hc. unfold regex_body. rewrite escape_special_cons, Hc. cbn [app].
  assert (c <> "*"%char /\ c <> "?"%char) as [Hstar Hq].
  { split; intros ->; discriminate. }
  rewrite (replace_starstar_other "\"%char) by discriminate.
  rewrite (replace_starstar_other c) by done.
  apply Ascii.eqb_neq in Hstar, Hq.
  rewrite !replace_star_cons, Hstar. cbn [app Ascii.eqb Bool.eqb].
  by rewrite !replace_question_cons, Hq.
Qed.

Lemma regex_body_plain (c : ascii) (p : jsstring) :
  regex_special c = false -> c <> "*"%char ->
  regex_body (c :: p)
  = (if Ascii.eqb c "?"%char then "."%char else c) :: regex_body p.
Proof.
  intros Hc Hstar. unfold regex_body. rewrite escape_special_cons, Hc.
  cbn [app]. rewrite (replace_starstar_other c) by done.
  apply Ascii.eqb_neq in Hstar.
  by rewrite replace_star_cons, Hstar.
Qed.

Lemma regex_body_starstar (p : jsstring) :
  regex_body ("*"%char :: "*"%char :: p) = js ".[^/]*" ++ regex_body p.
Proof. reflexivity. Qed.

Lemma regex_body_star_end : regex_body ["*"%char] = js "[^/]*".
Proof. reflexivity. Qed.

Lemma regex_body_star (d : ascii) (p : jsstring) :
  d <> "*"%char ->
  regex_body ("*"%char :: d :: p) = js "[^/]*" ++ regex_body (d :: p).
Proof.
  intros Hd. unfold regex_body.
  destruct (escape_special_head d p Hd) as (e & s & Hesc & He).
  change (escape_special ("*"%char :: d :: p))
    with ("*"%char :: escape_special (d :: p)).
  rewrite Hesc, (replace_starstar_lone e s He). reflexivity.
Qed.

Lemma special_is_syntax (c : ascii) :
  regex_special c = true -> syntax_char c = true.
Proof. destruct c as [[] [] [] [] [] [] [] []]; done. Qed.

Lemma tokenize_plain (c : ascii) (s : jsstring) :
  regex_special c = false -> c <> "*"%char -> c <> "?"%char ->
  tokenize (c :: s) = cons (TAtom (AChar c)) <$> tokenize s.
Proof. destruct c as [[] [] [] [] [] [] [] []]; done. Qed.

Lemma tokenize_escaped (c : ascii) (s : jsstring) :
  regex_special c = true ->
  tokenize ("\"%char :: c :: s) = cons (TAtom (AChar c)) <$> tokenize s.
Proof. intros Hc%special_is_syntax. simpl. by rewrite Hc. Qed.

(** The body of the source text lexes and parses to [compile_glob]. *)
Lemma parse_regex_body (pattern : jsstring) :
  exists ts,
    tokenize (regex_body pattern ++ js "$") = Some ts
    /\ terms_of ts = Some (compile_glob pattern)
    /\ head ts <> Some TStar.
Proof.
  remember (length pattern) as n eqn:Hn. revert pattern Hn.
  induction n as [n IH] using lt_wf_ind. intros pattern ->.
  destruct pattern as [|c p].
  { exists [TDollar]. by repeat split. }
  destruct (Ascii.eqb_spec c "*"%char) as [->|Hstar].
  - destruct p as [|d p].
    { exists [TAtom ANotSlash; TStar; TDollar]. by repeat split. }
    destruct (Ascii.eqb_spec d "*"%char) as [->|Hd].
    + destruct (IH (length p) ltac:(simpl; lia) p eq_refl)
        as (ts & Htok & Hterms & Hhead).
      exists (TAtom ADot :: TAtom ANotSlash :: TStar :: ts).
      rewrite regex_body_starstar, <- app_assoc. repeat split.
      * change (tokenize (js ".[^/]*" ++ regex_body p ++ js "$"))
          with (cons (TAtom ADot) <$>
                (cons (TAtom ANotSlash) <$>
                 (cons TStar <$> tokenize (regex_body p ++ js "$")))).
        by rewrite Htok.
      * simpl. by rewrite Hterms.
      * done.
    + destruct (IH (length (d :: p)) ltac:(simpl; lia) (d :: p) eq_refl)
        as (ts & Htok & Hterms & Hhead).
      exists (TAtom ANotSlash :: TStar :: ts).
      rewrite regex_body_star, <- app_assoc by done. repeat split.
      * change (tokenize (js "[^/]*" ++ regex_body (d :: p) ++ js "$"))
          with (cons (TAtom ANotSlash) <$>
                (cons TStar <$> tokenize (regex_body (d :: p) ++ js "$"))).
        by rewrite Htok.
      * cbn [terms_of]. rewrite Hterms. simpl.
        apply Ascii.eqb_neq in Hd. by rewrite Hd.
      * done.
  - destruct (IH (length p) ltac:(simpl; lia) p eq_refl)
      as (ts & Htok & Hterms & Hhead).
    assert (forall a, terms_of (TAtom a :: ts) = cons (Once a) <$> terms_of ts)
      as Hone.
    { intros a. destruct ts as [|[] ts]; try done. }
    pose proof Hstar as Hstar'%Ascii.eqb_neq.
    destruct (regex_special c) eqn:Hspecial.
    + exists (TAtom (AChar c) :: ts).
      rewrite regex_body_special by done. repeat split.
      * rewrite <- !app_comm_cons. by rewrite tokenize_escaped, Htok.
      * rewrite Hone, Hterms. simpl. rewrite Hstar'.
        assert (Ascii.eqb c "?"%char = false) as ->; [|done].
        apply Ascii.eqb_neq. intros ->. discriminate.
      * done.
    + rewrite regex_body_plain by done.
      destruct (Ascii.eqb_spec c "?"%char) as [->|Hq].
      * exists (TAtom ADot :: ts). repeat split.
        -- rewrite <- app_comm_cons.
           change (tokenize ("."%char :: regex_body p ++ js "$"))
             with (cons (TAtom ADot) <$> tokenize (regex_body p ++ js "$")).
           by rewrite Htok.
        -- by rewrite Hone, Hterms.
        -- done.
      * exists (TAtom (AChar c) :: ts). repeat split.
        -- rewrite <- app_comm_cons. by rewrite tokenize_plain, Htok.
        -- rewrite Hone, Hterms. simpl. rewrite Hstar'.
           apply Ascii.eqb_neq in Hq. by rewrite Hq.
        -- done.
Qed.

(** [globToRegex] never throws, and yields the expression [compile_glob]. *)
Lemma globToRegex_compile (pattern : jsstring) :
  globToRegex pattern = Some (compile_glob pattern).
Proof.
  destruct (parse_regex_body pattern) as (ts & Htok & Hterms & _).
  unfold globToRegex, RegExp_i, globToRegex_source. fold (regex_body pattern).
  change (tokenize (js "^" ++ regex_body pattern ++ js "$"))
    with (cons TCaret <$> tokenize (regex_body pattern ++ js "$")).
  by rewrite Htok.
Qed.

(** The expression built for ["src/**/*.ts"]: the pass that rewrites [*]
    runs after the pass that rewrites [**] and rewrites the star of the
    [.*] that pass has just produced, so [**] ends up as one
    non-terminator unit followed by a run of non-separators. *)
Lemma globToRegex_globstar :
  globToRegex_source (js "src/**/*.ts") = js "^src/.[^/]*/[^/]*\.ts$"
  /\ globToRegex (js "src/**/*.ts")
     = Some [Once (AChar "s"); Once (AChar "r"); Once (AChar "c");
             Once (AChar "/"); Once ADot; Star ANotSlash; Once (AChar "/");
             Star ANotSlash; Once (AChar "."); Once (AChar "t");
             Once (AChar "s")].
Proof. split; reflexivity. Qed.

(** C5 fails on the code: [**] does not match across separators.  The
    [.ts] file ["src/a/b/c.ts"], two directories below [src/], is not
    matched by ["src/**/*.ts"], while a file one directory below is. *)
Theorem globstar_rejects_nested_path :
  matchesAnyPattern (js "src/a/b/c.ts") [js "src/**/*.ts"] = false
  /\ matchesAnyPattern (js "src/utils/helper.ts") [js "src/**/*.ts"] = true.
Proof. split; reflexivity. Qed.

(** Case folding only moves letters to letters: it keeps line terminators
    and the separator apart from everything else. *)
Lemma lineTerminator_canonicalize (x : ascii) :
  lineTerminator (canonicalize x) = lineTerminator x.
Proof. destruct x as [[] [] [] [] [] [] [] []]; reflexivity. Qed.

Lemma slash_canonicalize (x : ascii) :
  Ascii.eqb (canonicalize x) "/" = Ascii.eqb x "/".
Proof. destruct x as [[] [] [] [] [] [] [] []]; reflexivity. Qed.

Lemma atom_matches_fold (a : atom) (x y : ascii) :
  canonicalize x = canonicalize y -> atom_matches a x = atom_matches a y.
Proof.
  intros E. destruct a; simpl.
  - by rewrite E.
  - by rewrite <- (lineTerminator_canonicalize x), E, lineTerminator_canonicalize.
  - by rewrite <- (slash_canonicalize x), E, slash_canonicalize.
Qed.

Lemma star_test_fold (k : jsstring -> bool) (a : atom) (s s' : jsstring) :
  (forall t t', map canonicalize t = map canonicalize t' -> k t = k t') ->
  map canonicalize s = map canonicalize s' ->
  star_test k a s = star_test k a s'.
Proof.
  intros Hk. revert s'. induction s as [|x s IH]; intros [|y s'] E;
    simpl in E; try discriminate.
  - reflexivity.
  - injection E as Exy E. simpl.
    rewrite (Hk (x :: s) (y :: s')) by (simpl; congruence).
    by rewrite (atom_matches_fold a x y), (IH s').
Qed.

Lemma regex_test_fold (ts : list term) (s s' : jsstring) :
  map canonicalize s = map canonicalize s' ->
  regex_test ts s = regex_test ts s'.
Proof.
  revert s s'. induction ts as [|[a|a] ts IH]; intros s s' E.
  - destruct s, s'; simpl in *; congruence.
  - destruct s as [|x s], s' as [|y s']; simpl in *; try congruence.
    injection E as Exy E. by rewrite (atom_matches_fold a x y), (IH s s').
  - simpl. apply star_test_fold; auto.
Qed.

(** C10: the shorthand and exact-equality comparisons are case-sensitive
    and the compiled glob is not.  The bare pattern ["readme"] does not match
    the path ["README"], which differs from it only in letter case; the glob
    pattern ["src/app.ts"] matches ["SRC/APP.TS"]; and the outcome of a
    compiled pattern is the same on any two paths with the same case
    folding. *)
Theorem matchesAnyPattern_case_sensitivity :
  (toLowerCase (js "README") = js "readme"
   /\ matchesAnyPattern (js "README") [js "readme"] = false
   /\ matchesAnyPattern (js "readme") [js "readme"] = true
   /\ matchesAnyPattern (js "SRC/x.ts") [js "src"] = false
   /\ matchesAnyPattern (js "src/x.ts") [js "src"] = true)
  /\ (toLowerCase (js "SRC/APP.TS") = js "src/app.ts"
      /\ matchesAnyPattern (js "SRC/APP.TS") [js "src/app.ts"] = true
      /\ matchesAnyPattern (js "SRC/APP.TS") [js "src/*.ts"] = true)
  /\ (forall pattern regex path path',
        globToRegex pattern = Some regex ->
        map canonicalize path = map canonicalize path' ->
        regex_test regex path = regex_test regex path').
Proof.
  split; [repeat split; reflexivity|].
  split; [repeat split; reflexivity|].
  intros pattern regex path path' _ E. by apply regex_test_fold.
Qed.

Lemma matchesAnyPattern_case_sensitivity_witness :
  regex_test [Once (AChar "a"); Once (AChar "/"); Star ANotSlash] (js "A/b")
  = regex_test [Once (AChar "a"); Once (AChar "/"); Star ANotSlash] (js "a/B").
Proof.
  apply (proj2 (proj2 matchesAnyPattern_case_sensitivity) (js "a/*")).
  - reflexivity.
  - reflexivity.
Defined.

(** ** Bundle selector *)

Lemma find_none_iff {A} (f : A -> bool) (l : list A) :
  List.find f l = None <-> forall x, x ∈ l -> f x = false.
Proof.
  induction l as [|y l IH]; simpl.
  - split; [intros _ x Hx; by apply elem_of_nil in Hx | done].
  - destruct (f y) eqn:E.
    + split; [discriminate|]. intros H. rewrite H in E; [done|]. by left.
    + rewrite IH. split.
      * intros H x [->|Hx]%elem_of_cons; auto.
      * intros H x Hx. apply H. by right.
Qed.

(** C9: an active bundle id that is neither ["all"] nor the id of a defined
    bundle selects the whole file set, as ["all"] does. *)
Theorem filteredFiles_unknown_bundle
    (files : list FileEntry.t) (bundles : list Bundle.t) (activeBundleId : jsstring) :
  activeBundleId <> js "all" ->
  (forall b, b ∈ bundles -> Bundle.id b <> activeBundleId) ->
  filteredFiles files bundles activeBundleId = files
  /\ filteredFiles files bundles activeBundleId
     = filteredFiles files bundles (js "all").
Proof.
  intros Hall Hids.
  assert (filteredFiles files bundles activeBundleId = files) as E.
  { unfold filteredFiles.
    apply str_eqb_neq in Hall. rewrite Hall.
    assert (List.find (fun b => str_eqb (Bundle.id b) activeBundleId) bundles
            = None) as ->; [|done].
    apply find_none_iff. intros b Hb. apply str_eqb_neq. by apply Hids. }
  split; [done|]. by rewrite E.
Qed.

Lemma filteredFiles_unknown_bundle_witness :
  filteredFiles
    [FileEntry.mk (js "vite.config.ts") (js "vite.config.ts") (js "x") 1 (js "ts");
     FileEntry.mk (js "src/app.ts") (js "app.ts") (js "y") 1 (js "ts")]
    [Bundle.mk (js "cfg") (js "Config") [js "*.config.*"]]
    (js "docs")
  = [FileEntry.mk (js "vite.config.ts") (js "vite.config.ts") (js "x") 1 (js "ts");
     FileEntry.mk (js "src/app.ts") (js "app.ts") (js "y") 1 (js "ts")].
Proof.
  apply filteredFiles_unknown_bundle.
  - discriminate.
  - intros b Hb. apply list_elem_of_In in Hb. simpl in Hb.
    destruct Hb as [<-|[]]. discriminate.
Defined.

(** ** Filter pipeline *)

Lemma existsb_str_eqb (x : jsstring) (l : list jsstring) :
  existsb (str_eqb x) l = true <-> x ∈ l.
Proof.
  rewrite existsb_exists. split.
  - intros (y & Hy & ->%str_eqb_eq). by apply list_elem_of_In.
  - intros Hx. exists x. split; [by apply list_elem_of_In | apply str_eqb_refl].
Qed.

Lemma processFile_Some ignorePatterns ignoreExtensions file e :
  processFile ignorePatterns ignoreExtensions file = Some e <->
  exists content,
    File.text file = Some content
    /\ passes_checks ignorePatterns ignoreExtensions (path_of file)
         (File.name file) (File.size file) content
    /\ e = entry_of file content.
Proof.
  unfold processFile, passes_checks, hasIgnoredExtension, MAX_FILE_SIZE.
  destruct (matchesAnyPattern (path_of file) ignorePatterns) eqn:E1.
  { split; [discriminate|]. intros (c & _ & (? & _) & _). discriminate. }
  destruct (existsb _ ignoreExtensions) eqn:E2.
  { split; [discriminate|]. intros (c & _ & (_ & Hn & _) & _).
    apply existsb_str_eqb in E2. contradiction. }
  assert (dotted_extension (File.name file) ∉ ignoreExtensions) as Hext.
  { intros Hin%existsb_str_eqb. congruence. }
  destruct (File.size file >? 500 * 1024) eqn:E3.
  { split; [discriminate|]. intros (c & _ & (_ & _ & Hs & _) & _). lia. }
  destruct (File.text file) as [content|].
  2:{ split; [discriminate|]. intros (c & ? & _). discriminate. }
  destruct (includes content [chr 0]) eqn:E4.
  { split; [discriminate|]. intros (c & [= <-] & (_ & _ & _ & Hn) & _).
    apply includes_unit in E4. contradiction. }
  assert (chr 0 ∉ content) as Hnul.
  { intros Hin%includes_unit. congruence. }
  split.
  - intros [= <-]. exists content. repeat split; auto. lia.
  - intros (c & [= <-] & _ & ->). reflexivity.
Qed.

Lemma insert_entry_Permutation localeCompare (x : FileEntry.t)
    (sorted : list FileEntry.t) :
  insert_entry localeCompare x sorted ≡ₚ x :: sorted.
Proof.
  induction sorted as [|y rest IH]; simpl; [done|].
  destruct (localeCompare _ _ >? 0); [|done].
  rewrite IH. apply perm_swap.
Qed.

Lemma sort_entries_Permutation localeCompare (entries : list FileEntry.t) :
  sort_entries localeCompare entries ≡ₚ entries.
Proof.
  induction entries as [|x entries IH]; simpl; [done|].
  rewrite insert_entry_Permutation. by constructor.
Qed.

(** C8: a readable record of the input is in the output of [processFiles]
    exactly when it passes the four checks that the loop body makes in this
    order: no ignore pattern matches its path, its lowercased dotted
    extension is not denied, its size is at most 500 * 1024 bytes, and its
    text holds no NUL unit. *)
Theorem processFiles_includes_iff
    (localeCompare : jsstring -> jsstring -> Z) (fileList : list File.t)
    (ignorePatterns ignoreExtensions : list jsstring)
    (file : File.t) (content : jsstring) :
  file ∈ fileList ->
  File.text file = Some content ->
  entry_of file content
    ∈ processFiles localeCompare fileList ignorePatterns ignoreExtensions
  <->
  matchesAnyPattern (path_of file) ignorePatterns = false
  /\ (dotted_extension (File.name file) ∉ ignoreExtensions)
  /\ File.size file <= 500 * 1024
  /\ (chr 0 ∉ content).
Proof.
  intros Hin Htext. unfold processFiles.
  rewrite sort_entries_Permutation, list_elem_of_omap.
  change (?a /\ ?b /\ ?c /\ ?d)
    with (passes_checks ignorePatterns ignoreExtensions (path_of file)
            (File.name file) (File.size file) content).
  split.
  - intros (file' & _ & (c & _ & Hchecks & Heq)%processFile_Some).
    injection Heq as -> -> -> -> _. exact Hchecks.
  - intros Hchecks. exists file. split; [done|].
    apply processFile_Some. by exists content.
Qed.

Lemma processFiles_includes_iff_witness :
  let src := File.mk (js "proj/src/app.ts") (js "app.ts") 120 (Some (js "let x;")) in
  let img := File.mk (js "proj/logo.png") (js "logo.png") 120 (Some (js "PNG")) in
  entry_of src (js "let x;")
    ∈ processFiles (fun _ _ => 0) [img; src] [js "node_modules"] [js ".png"]
  <->
  matchesAnyPattern (path_of src) [js "node_modules"] = false
  /\ (dotted_extension (File.name src) ∉ [js ".png"])
  /\ File.size src <= 500 * 1024
  /\ (chr 0 ∉ js "let x;").
Proof.
  intros src img.
  apply (processFiles_includes_iff (fun _ _ => 0) [img; src]
           [js "node_modules"] [js ".png"] src (js "let x;")).
  - apply list_elem_of_In. simpl. auto.
  - reflexivity.
Defined.

(** ** Slicing and searching *)

Lemma relIndex_range (len i : Z) : 0 <= len -> 0 <= relIndex len i <= len.
Proof. unfold relIndex. destruct (Z.ltb_spec i 0); lia. Qed.

Lemma slice_to (s : jsstring) (n : Z) :
  slice s 0 (Some n) = take (Z.to_nat (relIndex (jslen s) n)) s.
Proof.
  unfold slice.
  pose proof (relIndex_range (jslen s) n ltac:(unfold jslen; lia)) as Hn.
  assert (relIndex (jslen s) 0 = 0) as ->.
  { unfold relIndex, jslen. simpl. lia. }
  simpl drop. f_equal. lia.
Qed.

Lemma slice_from (s : jsstring) (n : Z) :
  slice s n None = drop (Z.to_nat (relIndex (jslen s) n)) s.
Proof.
  unfold slice.
  pose proof (relIndex_range (jslen s) n ltac:(unfold jslen; lia)) as Hn.
  apply take_ge. rewrite length_drop. unfold jslen in *. lia.
Qed.

(** Cutting a string at any index, negative or past the end included,
    loses and repeats nothing. *)
Lemma slice_split (s : jsstring) (n : Z) :
  slice s 0 (Some n) ++ slice s n None = s.
Proof. rewrite slice_to, slice_from. apply take_drop. Qed.

Lemma slice_from_length (s : jsstring) (n : Z) :
  0 <= n <= jslen s ->
  length (slice s n None) = (length s - Z.to_nat n)%nat.
Proof.
  intros Hn. rewrite slice_from, length_drop. unfold relIndex.
  destruct (Z.ltb_spec n 0); [lia|]. f_equal. lia.
Qed.

Lemma lastIndexOf_scan_range (s : jsstring) (c : ascii) (start i acc : Z) :
  -1 <= acc <= start -> 0 <= i ->
  -1 <= lastIndexOf_scan s c start i acc <= start.
Proof.
  revert i acc. induction s as [|x s IH]; intros i acc Hacc Hi; simpl.
  - lia.
  - destruct (Z.ltb_spec start i); [lia|].
    apply IH; [|lia]. destruct (Ascii.eqb x c); lia.
Qed.

Lemma lastIndexOf_range (s : jsstring) (c : ascii) (fromIndex : Z) :
  -1 <= lastIndexOf s c fromIndex <= Z.max fromIndex 0.
Proof.
  unfold lastIndexOf.
  pose proof (lastIndexOf_scan_range s c
                (Z.min (Z.max fromIndex 0) (jslen s)) 0 (-1)) as H.
  unfold jslen in *. lia.
Qed.

(** Searching from a position at or before the start only looks at the
    first code unit. *)
Lemma lastIndexOf_nonpositive (x : ascii) (s : jsstring) (c : ascii) (fromIndex : Z) :
  fromIndex <= 0 ->
  lastIndexOf (x :: s) c fromIndex = if Ascii.eqb x c then 0 else -1.
Proof.
  intros Hn. unfold lastIndexOf, jslen.
  replace (Z.min (Z.max fromIndex 0) (Z.of_nat (length (x :: s)))) with 0
    by (simpl length; lia).
  simpl. destruct s; reflexivity.
Qed.

Lemma searchWindow_cases (maxChars : Z) :
  searchWindow maxChars
  = if 5000 <=? maxChars then inject_Z 1000 else (inject_Z maxChars * 0.2)%Q.
Proof.
  unfold searchWindow, Qmin, GenericMinMax.gmin.
  destruct (Qcompare _ _) eqn:E.
  - apply Qeq_alt in E. unfold Qeq in E. simpl in E.
    destruct (Z.leb_spec 5000 maxChars); [done | lia].
  - apply Qlt_alt in E. unfold Qlt in E. simpl in E.
    destruct (Z.leb_spec 5000 maxChars); [done | lia].
  - apply Qgt_alt in E. unfold Qlt in E. simpl in E.
    destruct (Z.leb_spec 5000 maxChars); [lia | done].
Qed.

(** The test [lastNewline > maxChars - searchWindow] over the integers. *)
Lemma window_test (lastNewline maxChars : Z) :
  negb (Qle_bool (inject_Z lastNewline)
          (inject_Z maxChars - searchWindow maxChars)%Q)
  = if 5000 <=? maxChars then maxChars - 1000 <? lastNewline
    else 4 * maxChars <? 5 * lastNewline.
Proof.
  rewrite searchWindow_cases.
  destruct (5000 <=? maxChars); unfold Qle_bool; simpl.
  - rewrite Z.ltb_antisym. f_equal. f_equal; lia.
  - rewrite Z.ltb_antisym. f_equal.
    apply eq_true_iff_eq. rewrite !Z.leb_le. lia.
Qed.

(** ** findSplitPoint *)

(** With at least one unit of space, a cut of an oversized text takes at
    least one unit and at most one unit more than the space. *)
Lemma findSplitPoint_range (text : jsstring) (maxChars : Z) :
  1 <= maxChars -> maxChars < jslen text ->
  1 <= findSplitPoint text maxChars <= maxChars + 1.
Proof.
  intros Hpos Hlong. unfold findSplitPoint.
  destruct (Z.leb_spec (jslen text) maxChars); [lia|].
  rewrite window_test.
  pose proof (lastIndexOf_range text newline maxChars) as Hrange.
  destruct (Z.leb_spec 5000 maxChars).
  - destruct (Z.ltb_spec (maxChars - 1000) (lastIndexOf text newline maxChars)); lia.
  - destruct (Z.ltb_spec (4 * maxChars) (5 * lastIndexOf text newline maxChars)); lia.
Qed.

(** Without space, a text that does not start with a newline is cut at 0. *)
Lemma findSplitPoint_no_space (x : ascii) (text : jsstring) (maxChars : Z) :
  maxChars = 0 \/ maxChars <= -2 ->
  x <> newline ->
  findSplitPoint (x :: text) maxChars = 0.
Proof.
  intros Hm Hx. unfold findSplitPoint.
  destruct (Z.leb_spec (jslen (x :: text)) maxChars) as [Hle|_].
  { unfold jslen in Hle. simpl length in Hle. lia. }
  rewrite window_test, lastIndexOf_nonpositive by lia.
  apply Ascii.eqb_neq in Hx. rewrite Hx.
  destruct (Z.leb_spec 5000 maxChars); [lia|].
  destruct (Z.ltb_spec (4 * maxChars) (5 * -1)); lia.
Qed.

(** C6 fails on the code: the search for the newline starts at index
    [maxChars] itself, so a newline sitting exactly there moves the cut to
    [maxChars + 1].  With a budget of 76 tokens the space of a fresh chunk is
    [76 * 4 - 100 - 200 = 4]; the text below is longer, its unit at index 4
    is a newline, and the cut is at 5. *)
Theorem findSplitPoint_exceeds_limit :
  let text := js "abcd" ++ [newline] ++ js "efghijkl" in
  let maxChars := 76 * 4 - CHUNK_OVERHEAD - PER_FILE_OVERHEAD in
  maxChars = 4
  /\ maxChars < jslen text
  /\ findSplitPoint text maxChars = 5
  /\ slice text 0 (Some (findSplitPoint text maxChars)) = js "abcd" ++ [newline].
Proof. repeat split; reflexivity. Qed.

(** ** Chunk packer: one turn of the loop *)

Lemma flat_refs_flush (st : PackState) : flat_refs (flush st) = flat_refs st.
Proof.
  unfold flat_refs, flush, push_chunk. simpl.
  rewrite map_app, concat_app. simpl. by rewrite !app_nil_r.
Qed.

Lemma flat_refs_push (st : PackState) (part : ChunkFileEntry.t) :
  flat_refs (push_part st part) = flat_refs st ++ [length (heap st)].
Proof. unfold flat_refs, push_part. simpl. by rewrite app_assoc. Qed.

Lemma length_mk_parts file cs : length (mk_parts file cs) = length cs.
Proof. unfold mk_parts. apply length_imap. Qed.

Lemma mk_parts_snoc file cs c :
  mk_parts file (cs ++ [c])
  = mk_parts file cs
    ++ [ChunkFileEntry.with_content file c (Z.of_nat (length cs) + 1)].
Proof.
  unfold mk_parts. rewrite imap_app. simpl. by rewrite Nat.add_0_r.
Qed.

(** What [take_part] returns: a copy of [file] holding a prefix of the
    remaining content under the current part number, and the matching
    suffix. *)
Lemma take_part_spec file remaining counter currentSpace part remaining' counter' :
  take_part file remaining counter currentSpace = (part, remaining', counter') ->
  part = ChunkFileEntry.with_content file (ChunkFileEntry.content part) counter
  /\ ChunkFileEntry.content part ++ remaining' = remaining
  /\ (remaining' <> [] -> counter' = counter + 1).
Proof.
  unfold take_part. destruct (jslen remaining <=? currentSpace).
  - intros [= <- <- <-]. simpl. by rewrite app_nil_r.
  - intros [= <- <- <-]. simpl. by rewrite slice_split.
Qed.

(** With at least one unit of space [take_part] consumes content. *)
Lemma take_part_progress file remaining counter currentSpace part remaining' counter' :
  take_part file remaining counter currentSpace = (part, remaining', counter') ->
  1 <= currentSpace -> remaining <> [] ->
  (length remaining' < length remaining)%nat.
Proof.
  unfold take_part. intros Htake Hspace Hne.
  destruct (Z.leb_spec (jslen remaining) currentSpace) as [Hfit|Hlong].
  - injection Htake as <- <- <-. destruct remaining; [done | simpl; lia].
  - injection Htake as <- <- <-.
    pose proof (findSplitPoint_range remaining currentSpace Hspace Hlong) as Hcut.
    rewrite slice_from_length by lia. unfold jslen in *. lia.
Qed.

Lemma iteration_inv limitChars h0 file l :
  remainingContent l <> [] ->
  loop_inv h0 file l -> loop_inv h0 file (iteration limitChars file l).
Proof.
  intros Hne (cs & Hheap & Hparts & Hrefs & Hcount & Hcontent).
  unfold iteration.
  destruct (_ && _).
  { exists cs. simpl. by rewrite flat_refs_flush. }
  destruct (take_part _ _ _ _) as [[part remaining'] counter'] eqn:Htake.
  apply take_part_spec in Htake as (Hpart & Hsplit & Hnext).
  rewrite (Hcount Hne) in Hpart.
  exists (cs ++ [ChunkFileEntry.content part]).
  assert (length (heap (state l)) = (length h0 + length cs)%nat) as Hlen.
  { by rewrite Hheap, length_app, length_mk_parts. }
  assert (forall st', st' = push_part (state l) part ->
            flat_refs (if 0 <? jslen remaining' then flush st' else st')
            = seq 0 (length (heap st'))) as Hflat.
  { intros st' ->. transitivity (flat_refs (push_part (state l) part)).
    - destruct (0 <? jslen remaining'); [apply flat_refs_flush | done].
    - rewrite flat_refs_push, Hrefs. simpl.
      rewrite length_app. simpl. by rewrite Nat.add_1_r, seq_S. }
  simpl. repeat split.
  - destruct (0 <? jslen remaining'); simpl;
      by rewrite Hheap, mk_parts_snoc, <- Hpart, app_assoc.
  - by rewrite Hparts, Hlen, length_app, Nat.add_1_r, seq_S.
  - specialize (Hflat _ eq_refl).
    destruct (0 <? jslen remaining'); simpl in *; exact Hflat.
  - intros Hrem. rewrite (Hnext Hrem), (Hcount Hne), length_app. simpl. lia.
  - by rewrite concat_app, <- app_assoc, <- Hcontent, <- Hsplit; simpl;
      rewrite app_nil_r.
Qed.

Lemma while_remaining_inv fuel limitChars h0 file l l' :
  while_remaining fuel limitChars file l = Some l' ->
  loop_inv h0 file l ->
  loop_inv h0 file l' /\ remainingContent l' = [].
Proof.
  revert l. induction fuel as [|fuel IH]; intros l; simpl.
  - destruct (remainingContent l) eqn:E; simpl; [|discriminate].
    intros [= <-]. auto.
  - destruct (remainingContent l) as [|x r] eqn:E; simpl.
    + intros [= <-]. auto.
    + intros Hrun Hinv. apply (IH _ Hrun).
      apply iteration_inv; [by rewrite E | done].
Qed.

(** ** Chunk packer: a whole file, then all files *)

(** Writing through the references of a block of freshly allocated objects
    changes exactly that block. *)
Lemma foldl_alter_block {A} (g : A -> A) (block h0 : list A) :
  foldl (fun h p => alter g p h) (h0 ++ block) (seq (length h0) (length block))
  = h0 ++ (g <$> block).
Proof.
  revert h0. induction block as [|x block IH]; intros h0; simpl.
  - done.
  - replace (alter g (length h0) (h0 ++ x :: block))
      with ((h0 ++ [g x]) ++ block).
    + replace (S (length h0)) with (length (h0 ++ [g x]))
        by (rewrite length_app; simpl; lia).
      by rewrite IH, <- app_assoc.
    + rewrite <- app_assoc, alter_app_r_alt by lia.
      by rewrite Nat.sub_diag.
Qed.

Lemma stamp_parts_block file cs h0 :
  stamp_parts (seq (length h0) (length cs)) (h0 ++ mk_parts file cs)
  = h0 ++ final_parts file cs.
Proof.
  unfold stamp_parts, final_parts. rewrite length_seq.
  destruct (1 <? Z.of_nat (length cs)); [|done].
  pose proof (foldl_alter_block (ChunkFileEntry.stamp (Z.of_nat (length cs)))
                (mk_parts file cs) h0) as H.
  by rewrite length_mk_parts in H.
Qed.

(** One file: its final parts are appended to the heap, they reference
    a cover of its content, and an empty file gets none. *)
Lemma pack_file_spec fuel limitChars file st st' :
  pack_file fuel limitChars file st = Some st' ->
  flat_refs st = seq 0 (length (heap st)) ->
  exists cs,
    heap st' = heap st ++ final_parts file cs
    /\ concat cs = ChunkFileEntry.content file
    /\ (ChunkFileEntry.content file = [] -> cs = [])
    /\ flat_refs st' = seq 0 (length (heap st')).
Proof.
  unfold pack_file. intros Hrun Hrefs.
  destruct (while_remaining _ _ _ _) as [l|] eqn:Hloop; [|discriminate].
  simpl in Hrun. injection Hrun as <-.
  assert (loop_inv (heap st) file
            (mkLoop st (ChunkFileEntry.content file) 1 [])) as Hinit.
  { exists []. simpl. by rewrite app_nil_r. }
  assert (ChunkFileEntry.content file = [] ->
          l = mkLoop st (ChunkFileEntry.content file) 1 []) as Hempty.
  { intros E. destruct fuel; simpl in Hloop; rewrite E in Hloop;
      simpl in Hloop; rewrite <- E in Hloop; congruence. }
  destruct (while_remaining_inv _ _ _ _ _ _ Hloop Hinit)
    as [(cs & Hheap & Hparts & Hflat & _ & Hcontent) Hdone].
  rewrite Hdone, app_nil_r in Hcontent.
  exists cs. simpl.
  assert (stamp_parts (fileParts l) (heap (state l))
          = heap st ++ final_parts file cs) as Hstamp.
  { rewrite Hparts, Hheap. apply stamp_parts_block. }
  repeat split.
  - done.
  - done.
  - intros E. specialize (Hempty E). subst l. simpl in *.
    apply (f_equal length) in Hheap.
    rewrite length_app, length_mk_parts in Hheap.
    destruct cs; [done | simpl in Hheap; lia].
  - unfold flat_refs in *. simpl. rewrite Hflat, Hstamp, Hheap.
    f_equal. rewrite !length_app. f_equal.
    unfold final_parts. destruct (1 <? _); [|done]. by rewrite length_fmap.
Qed.

Lemma pack_files_spec fuel limitChars files st st' :
  pack_files fuel limitChars files st = Some st' ->
  flat_refs st = seq 0 (length (heap st)) ->
  exists blocks,
    heap st' = heap st ++ concat blocks
    /\ Forall2 file_block files blocks
    /\ flat_refs st' = seq 0 (length (heap st')).
Proof.
  revert st. induction files as [|file files IH]; intros st; simpl.
  - intros [= <-] Hrefs. exists []. simpl. by rewrite app_nil_r.
  - intros Hrun Hrefs.
    destruct (pack_file fuel limitChars file st) as [st1|] eqn:Hfile;
      [|discriminate]. simpl in Hrun.
    destruct (pack_file_spec _ _ _ _ _ Hfile Hrefs)
      as (cs & Hheap & Hcontent & Hempty & Hrefs1).
    destruct (IH _ Hrun Hrefs1) as (blocks & Hheap' & Hblocks & Hrefs').
    exists (final_parts file cs :: blocks). repeat split.
    + by rewrite Hheap', Hheap, <- app_assoc.
    + constructor; [by exists cs | done].
    + done.
Qed.

(** ** Chunk packer: from the final state to the chunks *)

Lemma deref_app h rs1 rs2 : deref h (rs1 ++ rs2) = deref h rs1 ++ deref h rs2.
Proof. unfold deref. apply omap_app. Qed.

Lemma deref_block (h0 h : list ChunkFileEntry.t) :
  deref (h0 ++ h) (seq (length h0) (length h)) = h.
Proof.
  revert h0. induction h as [|x h IH]; intros h0; [done|].
  unfold deref. simpl. rewrite list_lookup_middle by done. simpl. f_equal.
  replace (S (length h0)) with (length (h0 ++ [x]))
    by (rewrite length_app; simpl; lia).
  rewrite (cons_middle x h0 h), app_assoc. apply IH.
Qed.

Lemma deref_all (h : list ChunkFileEntry.t) : deref h (seq 0 (length h)) = h.
Proof. apply (deref_block [] h). Qed.

Lemma deref_concat h (rss : list (list ref)) :
  deref h (concat rss) = concat (map (deref h) rss).
Proof.
  induction rss as [|rs rss IH]; simpl; [done|].
  by rewrite deref_app, IH.
Qed.

Lemma final_chunks_refs (st : PackState) :
  concat (map temp_files (final_chunks st)) = flat_refs st.
Proof.
  unfold final_chunks, flat_refs, push_chunk.
  destruct (currentChunkFiles st) as [|r rs]; simpl.
  - by rewrite app_nil_r.
  - rewrite map_app, concat_app. simpl. by rewrite app_nil_r.
Qed.

Lemma files_render_chunks gc h (tcs : list TempChunk) :
  map Chunk.files (render_chunks gc h tcs)
  = map (fun chunk => deref h (temp_files chunk)) tcs.
Proof.
  unfold render_chunks. generalize (length tcs) as total. intros total.
  change (map Chunk.files) with (fmap (M:=list) Chunk.files).
  rewrite fmap_imap. simpl. by rewrite <- imap_const.
Qed.

Lemma emitted_render_chunks gc (st : PackState) :
  flat_refs st = seq 0 (length (heap st)) ->
  emitted (render_chunks gc (heap st) (final_chunks st)) = heap st.
Proof.
  intros Hrefs. unfold emitted.
  rewrite files_render_chunks, <- (map_map temp_files (deref (heap st))).
  by rewrite <- deref_concat, final_chunks_refs, Hrefs, deref_all.
Qed.

(** ** Reconstruction *)

Lemma mk_parts_index file cs :
  map ChunkFileEntry.partIndex (mk_parts file cs) = seqZ 1 (Z.of_nat (length cs)).
Proof.
  induction cs as [|c cs IH] using rev_ind; [done|].
  rewrite mk_parts_snoc, map_app, IH, length_app. simpl.
  rewrite Nat.add_1_r, seqZ_S. f_equal. f_equal. lia.
Qed.

Lemma mk_parts_content file cs :
  map ChunkFileEntry.content (mk_parts file cs) = cs.
Proof.
  induction cs as [|c cs IH] using rev_ind; [done|].
  by rewrite mk_parts_snoc, map_app, IH.
Qed.

Lemma mk_parts_path file cs :
  Forall (fun p => ChunkFileEntry.originalPath p = ChunkFileEntry.originalPath file)
    (mk_parts file cs).
Proof.
  induction cs as [|c cs IH] using rev_ind; [constructor|].
  rewrite mk_parts_snoc. apply Forall_app. split; [done|]. by constructor.
Qed.

(** Stamping leaves path, number and content of a part alone. *)
Lemma stamp_preserves (n : Z) (l : list ChunkFileEntry.t) :
  map ChunkFileEntry.originalPath (ChunkFileEntry.stamp n <$> l)
  = map ChunkFileEntry.originalPath l
  /\ map ChunkFileEntry.partIndex (ChunkFileEntry.stamp n <$> l)
     = map ChunkFileEntry.partIndex l
  /\ map ChunkFileEntry.content (ChunkFileEntry.stamp n <$> l)
     = map ChunkFileEntry.content l.
Proof.
  induction l as [|p l (IH1 & IH2 & IH3)]; [done|].
  repeat split; simpl; f_equal; assumption.
Qed.

Lemma final_parts_view file cs :
  map ChunkFileEntry.originalPath (final_parts file cs)
  = map ChunkFileEntry.originalPath (mk_parts file cs)
  /\ map ChunkFileEntry.partIndex (final_parts file cs)
     = map ChunkFileEntry.partIndex (mk_parts file cs)
  /\ map ChunkFileEntry.content (final_parts file cs)
     = map ChunkFileEntry.content (mk_parts file cs)
  /\ length (final_parts file cs) = length cs.
Proof.
  unfold final_parts. destruct (1 <? Z.of_nat (length cs)).
  - rewrite length_fmap, length_mk_parts.
    destruct (stamp_preserves (Z.of_nat (length cs)) (mk_parts file cs))
      as (? & ? & ?). done.
  - by rewrite length_mk_parts.
Qed.

Lemma final_parts_reconstructs (f : FileEntry.t) (cs : list jsstring) :
  concat cs = FileEntry.content f ->
  reconstructs f (final_parts (asChunkFile f) cs).
Proof.
  intros Hcontent. unfold reconstructs.
  destruct (final_parts_view (asChunkFile f) cs) as (Hp & Hi & Hc & Hl).
  rewrite Hi, Hc, Hl, mk_parts_index, mk_parts_content. repeat split; try done.
  pose proof (mk_parts_path (asChunkFile f) cs) as Hpath.
  apply Forall_forall. intros p Hin.
  assert (ChunkFileEntry.originalPath p
          ∈ map ChunkFileEntry.originalPath (final_parts (asChunkFile f) cs))
    as Hin' by (by apply list_elem_of_fmap_2).
  rewrite Hp in Hin'. apply list_elem_of_fmap in Hin' as (q & -> & Hq).
  rewrite Forall_forall in Hpath. by apply Hpath.
Qed.

Lemma file_blocks_reconstruct (files : list FileEntry.t) blocks :
  Forall2 file_block (map asChunkFile files) blocks ->
  Forall2 reconstructs files blocks.
Proof.
  revert blocks. induction files as [|f files IH]; intros blocks H;
    simpl in H; inversion H as [|? b ? bs (cs & -> & Hc & _) Hrest]; subst.
  - constructor.
  - constructor; [by apply final_parts_reconstructs | by apply IH].
Qed.

(** ** Termination when the budget leaves room for content *)

Lemma iteration_flush limitChars file l :
  (limitChars - currentChunkSize (state l) - PER_FILE_OVERHEAD <? 500)
  && (0 <? length (currentChunkFiles (state l)))%nat = true ->
  iteration limitChars file l
  = mkLoop (flush (state l)) (remainingContent l) (partCounter l) (fileParts l).
Proof. unfold iteration. cbv zeta. by intros ->. Qed.

Lemma iteration_push limitChars file l part remaining' counter' :
  (limitChars - currentChunkSize (state l) - PER_FILE_OVERHEAD <? 500)
  && (0 <? length (currentChunkFiles (state l)))%nat = false ->
  take_part file (remainingContent l) (partCounter l)
    (limitChars - currentChunkSize (state l) - PER_FILE_OVERHEAD)
  = (part, remaining', counter') ->
  iteration limitChars file l
  = mkLoop (if 0 <? jslen remaining' then flush (push_part (state l) part)
            else push_part (state l) part)
      remaining' counter' (fileParts l ++ [length (heap (state l))]).
Proof. unfold iteration. cbv zeta. by intros -> ->. Qed.

Lemma iteration_measure limitChars file l :
  CHUNK_OVERHEAD + PER_FILE_OVERHEAD < limitChars ->
  remainingContent l <> [] ->
  fresh_inv (state l) ->
  (loop_measure (iteration limitChars file l) < loop_measure l)%nat
  /\ fresh_inv (state (iteration limitChars file l)).
Proof.
  intros Hroom Hne Hfresh.
  destruct ((limitChars - currentChunkSize (state l) - PER_FILE_OVERHEAD <? 500)
            && (0 <? length (currentChunkFiles (state l)))%nat) eqn:Hcond.
  - rewrite (iteration_flush _ _ _ Hcond).
    apply andb_true_iff in Hcond as [_ Hcur%Nat.ltb_lt].
    unfold loop_measure, fresh_inv. simpl. split; [|done].
    destruct (Nat.ltb_spec 0 (length (currentChunkFiles (state l)))); lia.
  - destruct (take_part file (remainingContent l) (partCounter l)
                (limitChars - currentChunkSize (state l) - PER_FILE_OVERHEAD))
      as [[part remaining'] counter'] eqn:Htake.
    rewrite (iteration_push _ _ _ _ _ _ Hcond Htake).
    assert (1 <= limitChars - currentChunkSize (state l) - PER_FILE_OVERHEAD)
      as Hspace.
    { apply andb_false_iff in Hcond as [Hbig%Z.ltb_ge | Hcur%Nat.ltb_ge];
        [lia|].
      rewrite Hfresh; [lia|]. destruct (currentChunkFiles (state l));
        [done | simpl in Hcur; lia]. }
    pose proof (take_part_progress _ _ _ _ _ _ _ Htake Hspace Hne) as Hless.
    unfold loop_measure, fresh_inv. simpl.
    simpl in Hless.
    destruct remaining' as [|y remaining']; simpl in *.
    + split.
      * repeat match goal with
               | |- context [(0 <? ?n)%nat] => destruct (0 <? n)%nat
               end; lia.
      * intros E. by apply app_eq_nil in E as [_ ?].
    + split; [|done].
      repeat match goal with
             | |- context [(0 <? ?n)%nat] => destruct (0 <? n)%nat
             end; lia.
Qed.

Lemma while_remaining_terminates fuel limitChars file l :
  CHUNK_OVERHEAD + PER_FILE_OVERHEAD < limitChars ->
  (loop_measure l <= fuel)%nat ->
  fresh_inv (state l) ->
  exists l',
    while_remaining fuel limitChars file l = Some l' /\ fresh_inv (state l').
Proof.
  intros Hroom. revert l. induction fuel as [|fuel IH]; intros l Hfuel Hfresh.
  - simpl. destruct (remainingContent l) as [|x r] eqn:E; simpl.
    + by exists l.
    + unfold loop_measure in Hfuel. rewrite E in Hfuel. simpl in Hfuel. lia.
  - simpl. destruct (remainingContent l) as [|x r] eqn:E; simpl.
    + by exists l.
    + destruct (iteration_measure limitChars file l Hroom) as [Hdec Hfresh'];
        [by rewrite E | done |].
      apply IH; [lia | done].
Qed.

Lemma pack_file_terminates fuel limitChars file st :
  CHUNK_OVERHEAD + PER_FILE_OVERHEAD < limitChars ->
  (2 * length (ChunkFileEntry.content file) < fuel)%nat ->
  fresh_inv st ->
  exists st', pack_file fuel limitChars file st = Some st' /\ fresh_inv st'.
Proof.
  intros Hroom Hfuel Hfresh. unfold pack_file.
  destruct (while_remaining_terminates fuel limitChars file
              (mkLoop st (ChunkFileEntry.content file) 1 []) Hroom)
    as (l' & -> & Hfresh'); [|done|].
  - unfold loop_measure. simpl. destruct (0 <? _)%nat; lia.
  - simpl. eexists. split; [done|]. exact Hfresh'.
Qed.

Lemma pack_files_terminates fuel limitChars files st :
  CHUNK_OVERHEAD + PER_FILE_OVERHEAD < limitChars ->
  Forall (fun file => (2 * length (ChunkFileEntry.content file) < fuel)%nat) files ->
  fresh_inv st ->
  exists st', pack_files fuel limitChars files st = Some st'.
Proof.
  intros Hroom Hfuel. revert st.
  induction Hfuel as [|file files Hfile Hfiles IH]; intros st Hfresh; simpl.
  - by exists st.
  - destruct (pack_file_terminates fuel limitChars file st Hroom Hfile Hfresh)
      as (st1 & -> & Hfresh1). simpl. by apply IH.
Qed.

Lemma enough_fuel_each (files : list FileEntry.t) :
  Forall (fun file => (2 * length (ChunkFileEntry.content file)
                       < enough_fuel files)%nat)
    (map asChunkFile files).
Proof.
  unfold enough_fuel. induction files as [|f files IH]; [constructor|].
  cbn [map concat]. rewrite length_app. constructor.
  - cbn [asChunkFile ChunkFileEntry.content]. lia.
  - eapply Forall_impl; [exact IH|]. intros file Hlt. cbv beta in *. lia.
Qed.

(** From 76 tokens on (a fresh chunk then has at least 4 units of space),
    and whenever splitting is off, the run finishes. *)
Lemma chunks_terminates gc (files : list FileEntry.t) enableSplitting maxTokens :
  enableSplitting = false \/ 76 <= maxTokens ->
  exists cs,
    chunks gc (enough_fuel files) files enableSplitting maxTokens = Some cs.
Proof.
  intros Hok. unfold chunks.
  destruct (length (map asChunkFile files) =? 0)%nat; [by eexists|].
  destruct enableSplitting; simpl negb; cbv iota; [|by eexists].
  destruct Hok as [|Hbudget]; [done|].
  destruct (pack_files_terminates (enough_fuel files) (maxTokens * 4)
              (map asChunkFile files) (mkState [] [] [] CHUNK_OVERHEAD))
    as (st & ->).
  - unfold CHUNK_OVERHEAD, PER_FILE_OVERHEAD. lia.
  - apply enough_fuel_each.
  - by intros _.
  - simpl. by eexists.
Qed.

(** ** The parts of one file among all emitted parts *)

Lemma filter_keep_all {A} (f : A -> bool) (l : list A) :
  Forall (fun x => f x = true) l -> List.filter f l = l.
Proof. induction 1 as [|x l Hx _ IH]; simpl; [done|]. by rewrite Hx, IH. Qed.

Lemma filter_drop_all {A} (f : A -> bool) (l : list A) :
  Forall (fun x => f x = false) l -> List.filter f l = [].
Proof. induction 1 as [|x l Hx _ IH]; simpl; [done|]. by rewrite Hx. Qed.

Lemma blocks_paths (files : list FileEntry.t) blocks :
  Forall2 reconstructs files blocks ->
  Forall (fun q => ChunkFileEntry.originalPath q ∈ map FileEntry.path files)
    (concat blocks).
Proof.
  induction 1 as [|f b files blocks (Hpath & _ & _) _ IH]; simpl; [constructor|].
  apply Forall_app. split.
  - eapply Forall_impl; [exact Hpath|]. intros q ->. by left.
  - eapply Forall_impl; [exact IH|]. intros q Hq. by right.
Qed.

Lemma filter_blocks (files : list FileEntry.t) blocks (f : FileEntry.t) :
  Forall2 reconstructs files blocks ->
  NoDup (map FileEntry.path files) ->
  f ∈ files ->
  reconstructs f
    (List.filter (fun q => str_eqb (ChunkFileEntry.originalPath q) (FileEntry.path f))
       (concat blocks)).
Proof.
  induction 1 as [|f0 b files blocks Hb Hrest IH]; intros Hnodup Hin.
  - by apply elem_of_nil in Hin.
  - simpl in Hnodup. apply NoDup_cons in Hnodup as [Hfresh Hnodup].
    simpl. rewrite List.filter_app.
    apply elem_of_cons in Hin as [->|Hin].
    + rewrite filter_keep_all, filter_drop_all, app_nil_r; [done| |].
      * eapply Forall_impl; [exact (blocks_paths _ _ Hrest)|].
        intros q Hq. apply str_eqb_neq. intros E. cbv beta in Hq.
        by rewrite E in Hq.
      * destruct Hb as (Hpath & _). eapply Forall_impl; [exact Hpath|].
        intros q ->. apply str_eqb_refl.
    + rewrite filter_drop_all; [by apply IH|].
      destruct Hb as (Hpath & _). eapply Forall_impl; [exact Hpath|].
      intros q ->. apply str_eqb_neq. intros E. apply Hfresh. rewrite E.
      by apply list_elem_of_fmap_2.
Qed.

(** What a run that returns has emitted: one block of parts per file, in
    file order. *)
Lemma chunks_blocks gc fuel files enableSplitting maxTokens cs :
  chunks gc fuel files enableSplitting maxTokens = Some cs ->
  exists blocks,
    emitted cs = concat blocks
    /\ Forall2 (fun f b => enableSplitting = true /\ file_block (asChunkFile f) b
                           \/ enableSplitting = false /\ b = [asChunkFile f])
         files blocks.
Proof.
  unfold chunks.
  destruct (length (map asChunkFile files) =? 0)%nat eqn:Hlen.
  { apply Nat.eqb_eq in Hlen. rewrite length_map in Hlen.
    destruct files; [|discriminate]. intros [= <-]. by exists []. }
  destruct enableSplitting; simpl negb; cbv iota.
  - destruct (pack_files _ _ _ _) as [st|] eqn:Hrun; [|discriminate].
    simpl. intros [= <-].
    destruct (pack_files_spec _ _ _ _ _ Hrun eq_refl)
      as (blocks & Hheap & Hblocks & Hrefs).
    exists blocks. rewrite emitted_render_chunks by done. split; [done|].
    clear -Hblocks. revert blocks Hblocks.
    induction files as [|f files IH]; intros blocks H; simpl in H;
      inversion H; subst; constructor; auto.
  - intros [= <-]. exists (map (fun f => [asChunkFile f]) files).
    unfold emitted. simpl. rewrite app_nil_r. split.
    + clear. induction files as [|f files IH]; simpl; [done|]. by rewrite IH.
    + clear. induction files; simpl; constructor; auto.
Qed.

Lemma single_part_reconstructs (f : FileEntry.t) : reconstructs f [asChunkFile f].
Proof. unfold reconstructs. simpl. rewrite app_nil_r. repeat split. by constructor. Qed.

Lemma chunks_blocks_reconstruct gc fuel files enableSplitting maxTokens cs :
  chunks gc fuel files enableSplitting maxTokens = Some cs ->
  exists blocks, emitted cs = concat blocks /\ Forall2 reconstructs files blocks.
Proof.
  intros (blocks & Hem & Hblocks)%chunks_blocks. exists blocks. split; [done|].
  eapply Forall2_impl; [exact Hblocks|]. simpl.
  intros f b [[_ (cs' & -> & Hc & _)] | [_ ->]].
  - by apply final_parts_reconstructs.
  - apply single_part_reconstructs.
Qed.

(** Reconstruction, for the runs that return.  Whatever the file set, the
    budget and the splitting switch, the parts a run has emitted form one
    block per file, in file order, whose parts carry the path of the file,
    are numbered 1, 2, ... in the order emitted, and whose contents put end
    to end are the content of the file; when paths are unique, the block of
    a file is the list of the emitted parts that carry its path.  A run
    returns whenever splitting is off or the budget is at least 76
    tokens. *)
Theorem chunks_reconstruction gc (files : list FileEntry.t)
    (enableSplitting : bool) (maxTokens : Z) :
  (forall fuel cs,
      chunks gc fuel files enableSplitting maxTokens = Some cs ->
      (exists blocks,
          emitted cs = concat blocks /\ Forall2 reconstructs files blocks)
      /\ (NoDup (map FileEntry.path files) ->
          forall f, f ∈ files -> reconstructs f (parts_of (FileEntry.path f) cs)))
  /\ (enableSplitting = false \/ 76 <= maxTokens ->
      exists cs,
        chunks gc (enough_fuel files) files enableSplitting maxTokens = Some cs).
Proof.
  split; [|apply chunks_terminates].
  intros fuel cs Hrun.
  destruct (chunks_blocks_reconstruct _ _ _ _ _ _ Hrun) as (blocks & Hem & Hblocks).
  split; [by exists blocks|].
  intros Hnodup f Hin. unfold parts_of. rewrite Hem.
  by apply (filter_blocks files).
Qed.

Lemma chunks_reconstruction_witness :
  let a := FileEntry.mk (js "a.txt") (js "a.txt")
             (js "abcd" ++ [newline] ++ js "xyzw0123456789") 19 (js "txt") in
  let b := FileEntry.mk (js "b.txt") (js "b.txt") (js "abcdefgh") 8 (js "txt") in
  exists cs,
    chunks (fun _ _ _ => []) 40%nat [a; b] true 76 = Some cs
    /\ length cs = 7%nat
    /\ reconstructs a (parts_of (js "a.txt") cs)
    /\ exists cs', chunks (fun _ _ _ => []) (enough_fuel [a; b]) [a; b] true 76
                   = Some cs'.
Proof.
  intros a b.
  destruct (chunks_reconstruction (fun _ _ _ => []) [a; b] true 76)
    as [Hparts Hruns].
  assert (exists cs, chunks (fun _ _ _ => []) 40%nat [a; b] true 76 = Some cs
                     /\ length cs = 7%nat) as (cs & E & Hlen).
  { eexists. split; [vm_compute; reflexivity | reflexivity]. }
  exists cs. split; [exact E|]. split.
  - exact Hlen.
  - split.
    + apply (proj2 (Hparts 40%nat cs E)).
      * repeat constructor; rewrite list_elem_of_In; simpl; intuition discriminate.
      * apply list_elem_of_In. simpl. auto.
    + apply Hruns. right. lia.
Defined.

(** ** Runs that never return *)

Lemma iteration_stuck limitChars file l x rest :
  limitChars - CHUNK_OVERHEAD - PER_FILE_OVERHEAD = 0
  \/ limitChars - CHUNK_OVERHEAD - PER_FILE_OVERHEAD <= -2 ->
  x <> newline ->
  remainingContent l = x :: rest ->
  currentChunkFiles (state l) = [] ->
  currentChunkSize (state l) = CHUNK_OVERHEAD ->
  let l' := iteration limitChars file l in
  remainingContent l' = x :: rest
  /\ currentChunkFiles (state l') = []
  /\ currentChunkSize (state l') = CHUNK_OVERHEAD.
Proof.
  intros Hspace Hx Hrem Hcur Hsize.
  assert (take_part file (remainingContent l) (partCounter l)
            (limitChars - currentChunkSize (state l) - PER_FILE_OVERHEAD)
          = (ChunkFileEntry.with_content file [] (partCounter l),
             x :: rest, partCounter l + 1)) as Htake.
  { unfold take_part. rewrite Hrem, Hsize.
    destruct (Z.leb_spec (jslen (x :: rest))
                (limitChars - CHUNK_OVERHEAD - PER_FILE_OVERHEAD)) as [Hfit|_].
    { unfold jslen in Hfit. simpl length in Hfit. lia. }
    rewrite findSplitPoint_no_space by done.
    by rewrite slice_to, slice_from. }
  intros l'. subst l'. erewrite iteration_push; [| |exact Htake].
  - done.
  - rewrite Hcur. simpl. apply andb_false_r.
Qed.

Lemma while_remaining_stuck fuel limitChars file l x rest :
  limitChars - CHUNK_OVERHEAD - PER_FILE_OVERHEAD = 0
  \/ limitChars - CHUNK_OVERHEAD - PER_FILE_OVERHEAD <= -2 ->
  x <> newline ->
  remainingContent l = x :: rest ->
  currentChunkFiles (state l) = [] ->
  currentChunkSize (state l) = CHUNK_OVERHEAD ->
  while_remaining fuel limitChars file l = None.
Proof.
  intros Hspace Hx. revert l.
  induction fuel as [|fuel IH]; intros l Hrem Hcur Hsize; simpl; rewrite Hrem.
  - done.
  - simpl.
    destruct (iteration_stuck limitChars file l x rest Hspace Hx Hrem Hcur Hsize)
      as (Hrem' & Hcur' & Hsize').
    by apply IH.
Qed.

(** C2 fails on the code: below 76 tokens a fresh chunk has no room for
    content ([maxTokens * 4 - 100 - 200 <= 0]); the cut of a text that does
    not begin with a newline is then at 0, the part is empty, the remaining
    content is unchanged, and the loop goes on for ever: whatever the fuel,
    the run of a file set whose first file has such a content does not
    return. *)
Theorem chunks_diverges_below_76_tokens gc (fuel : nat) (f : FileEntry.t)
    (files : list FileEntry.t) (maxTokens : Z) (x : ascii) (rest : jsstring) :
  maxTokens <= 75 ->
  FileEntry.content f = x :: rest ->
  x <> newline ->
  chunks gc fuel (f :: files) true maxTokens = None.
Proof.
  intros Hbudget Hcontent Hx. unfold chunks. simpl.
  unfold pack_file.
  rewrite (while_remaining_stuck fuel (maxTokens * 4) (asChunkFile f)
             _ x rest); try done.
  unfold CHUNK_OVERHEAD, PER_FILE_OVERHEAD. lia.
Qed.

Lemma chunks_diverges_below_76_tokens_witness :
  chunks (fun _ _ _ => []) 1000%nat
    [FileEntry.mk (js "a.txt") (js "a.txt") (js "X") 1 (js "txt")] true 50
  = None.
Proof.
  apply (chunks_diverges_below_76_tokens _ 1000%nat _ [] 50 "X"%char []).
  - lia.
  - reflexivity.
  - discriminate.
Defined.

Lemma iteration_stuck_state limitChars file l x rest :
  limitChars - CHUNK_OVERHEAD - PER_FILE_OVERHEAD = 0
  \/ limitChars - CHUNK_OVERHEAD - PER_FILE_OVERHEAD <= -2 ->
  x <> newline ->
  remainingContent l = x :: rest ->
  currentChunkFiles (state l) = [] ->
  currentChunkSize (state l) = CHUNK_OVERHEAD ->
  iteration limitChars file l
  = mkLoop
      (flush (push_part (state l)
                (ChunkFileEntry.with_content file [] (partCounter l))))
      (x :: rest) (partCounter l + 1)
      (fileParts l ++ [length (heap (state l))]).
Proof.
  intros Hspace Hx Hrem Hcur Hsize.
  assert (take_part file (remainingContent l) (partCounter l)
            (limitChars - currentChunkSize (state l) - PER_FILE_OVERHEAD)
          = (ChunkFileEntry.with_content file [] (partCounter l),
             x :: rest, partCounter l + 1)) as Htake.
  { unfold take_part. rewrite Hrem, Hsize.
    destruct (Z.leb_spec (jslen (x :: rest))
                (limitChars - CHUNK_OVERHEAD - PER_FILE_OVERHEAD)) as [Hfit|_].
    { unfold jslen in Hfit. simpl length in Hfit. lia. }
    rewrite findSplitPoint_no_space by done.
    by rewrite slice_to, slice_from. }
  erewrite iteration_push; [| |exact Htake].
  - assert ((0 <? jslen (x :: rest)) = true) as ->; [|done].
    apply Z.ltb_lt. unfold jslen. simpl length. lia.
  - rewrite Hcur. simpl. apply andb_false_r.
Qed.

(** C1 fails on the code below 76 tokens, by the defect of C2.  For the one
    file [a.txt] with the content [X], splitting on and a budget of 50
    tokens, the run returns for no amount of fuel, so there is no list of
    chunks whose parts give the file back; and in the loop itself, after
    any number of turns the content [X] is still to be cut and every part
    made so far is empty, one per turn. *)
Theorem chunks_no_reconstruction_below_76_tokens :
  let f := FileEntry.mk (js "a.txt") (js "a.txt") (js "X") 1 (js "txt") in
  let start := mkLoop (mkState [] [] [] CHUNK_OVERHEAD) (js "X") 1 [] in
  (forall fuel, chunks (generateContent XML) fuel [f] true 50 = None)
  /\ (~ exists fuel cs,
          chunks (generateContent XML) fuel [f] true 50 = Some cs
          /\ reconstructs f (parts_of (js "a.txt") cs))
  /\ forall turns,
       let l := Nat.iter turns (iteration (50 * 4) (asChunkFile f)) start in
       remainingContent l = js "X"
       /\ length (heap (state l)) = turns
       /\ Forall (fun p => ChunkFileEntry.content p = []) (heap (state l)).
Proof.
  intros f start.
  assert (50 * 4 - CHUNK_OVERHEAD - PER_FILE_OVERHEAD = 0
          \/ 50 * 4 - CHUNK_OVERHEAD - PER_FILE_OVERHEAD <= -2) as Hspace
    by (right; unfold CHUNK_OVERHEAD, PER_FILE_OVERHEAD; lia).
  assert ("X"%char <> newline) as Hx by discriminate.
  assert (forall fuel, chunks (generateContent XML) fuel [f] true 50 = None)
    as Hnone.
  { intros fuel. unfold chunks. cbn [map length Nat.eqb negb pack_files].
    unfold pack_file.
    by rewrite (while_remaining_stuck fuel (50 * 4) (asChunkFile f)
                  _ "X"%char [] Hspace Hx). }
  split; [exact Hnone|]. split.
  { intros (fuel & cs & Hrun & _). by rewrite Hnone in Hrun. }
  intros turns.
  assert (let l := Nat.iter turns (iteration (50 * 4) (asChunkFile f)) start in
          remainingContent l = js "X"
          /\ currentChunkFiles (state l) = []
          /\ currentChunkSize (state l) = CHUNK_OVERHEAD
          /\ length (heap (state l)) = turns
          /\ Forall (fun p => ChunkFileEntry.content p = []) (heap (state l)))
    as H; [|cbv zeta in *; tauto].
  induction turns as [|turns IH]; [by repeat split|].
  cbv zeta in *. rewrite Nat.iter_succ.
  destruct IH as (Hrem & Hcur & Hsize & Hlen & Hall).
  rewrite (iteration_stuck_state _ _ _ "X"%char [] Hspace Hx Hrem Hcur Hsize).
  cbn [remainingContent state flush push_part heap currentChunkFiles
         currentChunkSize].
  repeat split; try done.
  - rewrite length_app. simpl. lia.
  - apply Forall_app. split; [done|]. by repeat constructor.
Qed.

(** ** Coverage *)

Lemma file_block_paths (f : FileEntry.t) b :
  file_block (asChunkFile f) b ->
  Forall (fun q => ChunkFileEntry.originalPath q = FileEntry.path f) b
  /\ (b = [] <-> FileEntry.content f = []).
Proof.
  intros (cs & -> & Hc & Hempty). split.
  - by destruct (final_parts_reconstructs f cs Hc) as (Hpath & _).
  - destruct (final_parts_view (asChunkFile f) cs) as (_ & _ & _ & Hlen).
    split.
    + intros E. rewrite E in Hlen. simpl in Hc. destruct cs; [done | done].
    + intros E. by rewrite (Hempty E).
Qed.

(** In splitting mode the paths that appear in the chunks are those of the
    files with a non-empty content. *)
Lemma chunks_paths_splitting gc fuel files maxTokens cs (p : jsstring) :
  chunks gc fuel files true maxTokens = Some cs ->
  p ∈ map ChunkFileEntry.originalPath (emitted cs) <->
  exists f, f ∈ files /\ FileEntry.path f = p /\ FileEntry.content f <> [].
Proof.
  intros (blocks & -> & Hblocks)%chunks_blocks.
  induction Hblocks as [|f b files blocks [[_ Hb]|[? _]] _ IH]; try done.
  - simpl. split; [by intros ?%elem_of_nil | by intros (f & ?%elem_of_nil & _)].
  - apply file_block_paths in Hb as [Hpath Hnil].
    simpl. rewrite map_app, elem_of_app, IH. split.
    + intros [Hin | (f' & Hin & Hrest)].
      * apply list_elem_of_fmap in Hin as (q & -> & Hq).
        exists f. rewrite Forall_forall in Hpath. split; [by left|].
        split; [by rewrite (Hpath q Hq)|].
        intros E. apply Hnil in E. subst b. by apply elem_of_nil in Hq.
      * exists f'. split; [by right | done].
    + intros (f' & [->|Hin]%elem_of_cons & Hp & Hne).
      * left. destruct b as [|q b]; [by destruct Hne; apply Hnil|].
        apply Forall_cons in Hpath as [Hq _]. simpl. rewrite Hq, Hp. by left.
      * right. by exists f'.
Qed.

(** C3 fails on the code: in splitting mode a file with an empty content
    produces no part and is in no chunk, while the branch without splitting
    keeps it.  Of the three files below, ["b.txt"] is empty. *)
Theorem chunks_drops_empty_file gc :
  let a := FileEntry.mk (js "a.txt") (js "a.txt") (js "hello") 5 (js "txt") in
  let b := FileEntry.mk (js "b.txt") (js "b.txt") [] 0 (js "txt") in
  let c := FileEntry.mk (js "c.txt") (js "c.txt") (js "zzz") 3 (js "txt") in
  (exists cs,
      chunks gc (enough_fuel [a; b; c]) [a; b; c] true 25000 = Some cs
      /\ map ChunkFileEntry.originalPath (emitted cs) = [js "a.txt"; js "c.txt"])
  /\ (exists cs,
         chunks gc (enough_fuel [a; b; c]) [a; b; c] false 25000 = Some cs
         /\ map ChunkFileEntry.originalPath (emitted cs)
            = [js "a.txt"; js "b.txt"; js "c.txt"]).
Proof. split; eexists; split; reflexivity. Qed.

(** ** Without splitting *)

(** C4: with splitting off, a non-empty file set gives exactly one chunk,
    labelled ["Full Context"], whose files are the files of the set in
    order, each as the single unsplit part 1 of 1 holding the whole content;
    the budget and the fuel play no role. *)
Theorem chunks_without_splitting gc (fuel : nat) (files : list FileEntry.t)
    (maxTokens : Z) :
  files <> [] ->
  exists c,
    chunks gc fuel files false maxTokens = Some [c]
    /\ Chunk.label c = js "Full Context"
    /\ Chunk.files c = map asChunkFile files
    /\ Forall2 (fun f p =>
                  ChunkFileEntry.originalPath p = FileEntry.path f
                  /\ ChunkFileEntry.content p = FileEntry.content f
                  /\ ChunkFileEntry.partIndex p = 1
                  /\ ChunkFileEntry.totalParts p = 1
                  /\ ChunkFileEntry.isSplit p = false)
         files (Chunk.files c).
Proof.
  intros Hne. unfold chunks.
  destruct files as [|f files]; [done|]. simpl.
  eexists. split; [reflexivity|]. simpl. repeat split.
  clear. revert f. induction files as [|g files IH]; intros f; simpl.
  - by repeat constructor.
  - constructor; [done|]. apply IH.
Qed.

Lemma chunks_without_splitting_witness :
  exists c,
    chunks (fun _ _ _ => []) 0
      [FileEntry.mk (js "a.txt") (js "a.txt") (js "hello") 5 (js "txt");
       FileEntry.mk (js "b.txt") (js "b.txt") [] 0 (js "txt")]
      false 1
    = Some [c]
    /\ Chunk.label c = js "Full Context"
    /\ length (Chunk.files c) = 2%nat.
Proof.
  destruct (chunks_without_splitting (fun _ _ _ => []) 0
              [FileEntry.mk (js "a.txt") (js "a.txt") (js "hello") 5 (js "txt");
               FileEntry.mk (js "b.txt") (js "b.txt") [] 0 (js "txt")] 1)
    as (c & Hrun & Hlabel & Hfiles & _).
  - discriminate.
  - exists c. split; [exact Hrun|]. split; [exact Hlabel|].
    by rewrite Hfiles.
Defined.

(** ** Fuel *)

(** More fuel does not change the outcome of a run that returns. *)
Lemma while_remaining_fuel fuel fuel' limitChars file l l' :
  while_remaining fuel limitChars file l = Some l' ->
  (fuel <= fuel')%nat ->
  while_remaining fuel' limitChars file l = Some l'.
Proof.
  revert fuel' l. induction fuel as [|fuel IH]; intros fuel' l Hrun Hle.
  - simpl in Hrun. destruct fuel'; simpl;
      destruct (0 <? jslen (remainingContent l)); done.
  - destruct fuel' as [|fuel']; [lia|]. simpl in *.
    destruct (0 <? jslen (remainingContent l)); [|done].
    apply IH; [done | lia].
Qed.

Lemma pack_files_fuel fuel fuel' limitChars files st st' :
  pack_files fuel limitChars files st = Some st' ->
  (fuel <= fuel')%nat ->
  pack_files fuel' limitChars files st = Some st'.
Proof.
  intros Hrun Hle. revert st Hrun.
  induction files as [|file files IH]; intros st; simpl; [done|].
  unfold pack_file.
  destruct (while_remaining fuel _ _ _) as [l|] eqn:Hloop; [|done].
  rewrite (while_remaining_fuel _ fuel' _ _ _ _ Hloop Hle). simpl. apply IH.
Qed.

Lemma chunks_fuel gc fuel fuel' files enableSplitting maxTokens cs :
  chunks gc fuel files enableSplitting maxTokens = Some cs ->
  (fuel <= fuel')%nat ->
  chunks gc fuel' files enableSplitting maxTokens = Some cs.
Proof.
  unfold chunks. intros Hrun Hle.
  destruct (length _ =? 0)%nat; [done|].
  destruct (negb enableSplitting); [done|].
  destruct (pack_files fuel _ _ _) as [st|] eqn:Hpack; [|done].
  by rewrite (pack_files_fuel _ fuel' _ _ _ _ Hpack Hle).
Qed.

(** ** Chunks are never empty *)

Lemma iteration_inhabited limitChars file l :
  chunks_inhabited (state l) ->
  chunks_inhabited (state (iteration limitChars file l)).
Proof.
  unfold chunks_inhabited. intros Hinv.
  destruct ((limitChars - currentChunkSize (state l) - PER_FILE_OVERHEAD <? 500)
            && (0 <? length (currentChunkFiles (state l)))%nat) eqn:Hcond.
  - rewrite (iteration_flush _ _ _ Hcond). simpl. unfold push_chunk.
    apply Forall_app. split; [done|]. constructor; [|done]. simpl.
    apply andb_true_iff in Hcond as [_ Hcur%Nat.ltb_lt].
    destruct (currentChunkFiles (state l)); [simpl in Hcur; lia | done].
  - destruct (take_part file (remainingContent l) (partCounter l)
                (limitChars - currentChunkSize (state l) - PER_FILE_OVERHEAD))
      as [[part remaining'] counter'] eqn:Htake.
    rewrite (iteration_push _ _ _ _ _ _ Hcond Htake). simpl.
    destruct (0 <? jslen remaining'); [|done]. simpl. unfold push_chunk. simpl.
    apply Forall_app. split; [done|]. constructor; [|done]. simpl.
    by destruct (currentChunkFiles (state l)).
Qed.

Lemma while_remaining_inhabited fuel limitChars file l l' :
  while_remaining fuel limitChars file l = Some l' ->
  chunks_inhabited (state l) -> chunks_inhabited (state l').
Proof.
  revert l. induction fuel as [|fuel IH]; intros l; simpl;
    destruct (0 <? jslen (remainingContent l)); try done.
  - by intros [= <-].
  - intros Hrun Hinv. apply (IH _ Hrun). by apply iteration_inhabited.
  - by intros [= <-].
Qed.

Lemma pack_files_inhabited fuel limitChars files st st' :
  pack_files fuel limitChars files st = Some st' ->
  chunks_inhabited st -> chunks_inhabited st'.
Proof.
  revert st. induction files as [|file files IH]; intros st; simpl.
  - by intros [= <-].
  - unfold pack_file.
    destruct (while_remaining _ _ _ _) as [l|] eqn:Hloop; [|done]. simpl.
    intros Hrun Hinv. apply (IH _ Hrun).
    apply (while_remaining_inhabited _ _ _ _ _ Hloop Hinv).
Qed.

Lemma final_chunks_inhabited (st : PackState) :
  chunks_inhabited st -> Forall (fun ch => temp_files ch <> []) (final_chunks st).
Proof.
  unfold chunks_inhabited, final_chunks, push_chunk. intros Hinv.
  destruct (currentChunkFiles st) as [|r rs] eqn:E; simpl; [done|].
  apply Forall_app. split; [done|]. by constructor.
Qed.

Lemma flat_refs_valid (st : PackState) (tcs : list TempChunk) :
  concat (map temp_files tcs) = seq 0 (length (heap st)) ->
  Forall (fun ch => Forall (fun r => (r < length (heap st))%nat) (temp_files ch)) tcs.
Proof.
  intros Hrefs. apply Forall_forall. intros ch Hch.
  apply Forall_forall. intros r Hr.
  assert (r ∈ seq 0 (length (heap st))) as Hin.
  { rewrite <- Hrefs. apply list_elem_of_In, in_concat.
    exists (temp_files ch). split; [|by apply list_elem_of_In].
    apply in_map. by apply list_elem_of_In. }
  apply elem_of_seq in Hin. lia.
Qed.

Lemma length_deref h (rs : list ref) :
  Forall (fun r => (r < length h)%nat) rs -> length (deref h rs) = length rs.
Proof.
  induction 1 as [|r rs Hr _ IH]; [done|].
  change (deref h (r :: rs))
    with (match h !! r with Some p => p :: deref h rs | None => deref h rs end).
  destruct (lookup_lt_is_Some_2 h r Hr) as [p ->]. simpl. by rewrite IH.
Qed.

(** What the chunks of a run in splitting mode are made of: a final state
    whose references are exactly the positions of its heap. *)
Lemma chunks_splitting_state gc fuel files maxTokens cs :
  files <> [] ->
  chunks gc fuel files true maxTokens = Some cs ->
  exists st,
    pack_files fuel (maxTokens * 4) (map asChunkFile files)
      (mkState [] [] [] CHUNK_OVERHEAD) = Some st
    /\ flat_refs st = seq 0 (length (heap st))
    /\ cs = render_chunks gc (heap st) (final_chunks st).
Proof.
  intros Hne. unfold chunks.
  destruct files as [|f files]; [done|]. simpl length. cbn [Nat.eqb negb].
  destruct (pack_files _ _ _ _) as [st|] eqn:Hrun; [|done]. simpl.
  intros [= <-]. exists st. split; [done|]. split; [|done].
  by destruct (pack_files_spec _ _ _ _ _ Hrun eq_refl) as (_ & _ & _ & ?).
Qed.

Lemma render_chunks_Forall gc h (tcs : list TempChunk)
    (P : list ChunkFileEntry.t -> Prop) :
  Forall (fun ch => P (deref h (temp_files ch))) tcs ->
  Forall (fun c => P (Chunk.files c)) (render_chunks gc h tcs).
Proof.
  intros Hall.
  apply (Forall_fmap Chunk.files P).
  change (fmap Chunk.files) with (map Chunk.files).
  rewrite files_render_chunks.
  by apply (Forall_fmap (fun ch => deref h (temp_files ch)) P).
Qed.

(** X1: no chunk is empty.  Whatever the configuration, every chunk of a
    run that returns holds at least one part. *)
Theorem chunks_never_empty gc fuel (files : list FileEntry.t)
    (enableSplitting : bool) (maxTokens : Z) (cs : list Chunk.t) :
  chunks gc fuel files enableSplitting maxTokens = Some cs ->
  Forall (fun c => Chunk.files c <> []) cs.
Proof.
  destruct files as [|f files].
  { intros [= <-]. constructor. }
  destruct enableSplitting.
  - intros (st & Hrun & Hrefs & ->)%chunks_splitting_state; [|done].
    apply (render_chunks_Forall gc _ _ (fun ps => ps <> [])).
    pose proof (final_chunks_inhabited st
                  (pack_files_inhabited _ _ _ _ _ Hrun (Forall_nil_2 _))) as Hne.
    rewrite <- final_chunks_refs in Hrefs.
    pose proof (flat_refs_valid _ _ Hrefs) as Hvalid.
    rewrite Forall_forall in Hne, Hvalid. apply Forall_forall. intros ch Hch.
    intros E. apply (f_equal length) in E.
    rewrite length_deref in E by by apply Hvalid.
    specialize (Hne ch Hch). by destruct (temp_files ch).
  - intros [= <-]. by repeat constructor.
Qed.

Lemma chunks_never_empty_witness :
  let files :=
    [FileEntry.mk (js "a.txt") (js "a.txt") (js "abcdefghijkl") 12 (js "txt");
     FileEntry.mk (js "b.txt") (js "b.txt") [] 0 (js "txt")] in
  exists cs,
    chunks (fun _ _ _ => []) 40 files true 76 = Some cs
    /\ length cs = 3%nat
    /\ Forall (fun c => Chunk.files c <> []) cs.
Proof.
  intros files.
  assert (exists cs, chunks (fun _ _ _ => []) 40 files true 76 = Some cs
                     /\ length cs = 3%nat) as (cs & E & Hlen).
  { eexists. split; [vm_compute; reflexivity | reflexivity]. }
  exists cs. split; [exact E|]. split; [exact Hlen|].
  exact (chunks_never_empty (fun _ _ _ => []) 40 files true 76 cs E).
Defined.
(** ** The accounted size of a chunk *)

Lemma accounted_size_snoc (ps : list ChunkFileEntry.t) (p : ChunkFileEntry.t) :
  accounted_size (ps ++ [p])
  = accounted_size ps + jslen (ChunkFileEntry.content p) + PER_FILE_OVERHEAD.
Proof.
  unfold accounted_size. rewrite fmap_app, foldr_app. simpl.
  induction (ChunkFileEntry.content <$> ps) as [|c cs IH]; simpl; lia.
Qed.

Lemma accounted_size_lower (ps : list ChunkFileEntry.t) :
  CHUNK_OVERHEAD <= accounted_size ps.
Proof.
  unfold accounted_size, PER_FILE_OVERHEAD, jslen.
  induction (ChunkFileEntry.content <$> ps) as [|c cs IH]; simpl; lia.
Qed.

Lemma deref_contents h (rs : list ref) :
  ChunkFileEntry.content <$> deref h rs
  = omap (fun r => (ChunkFileEntry.content <$> h) !! r) rs.
Proof.
  induction rs as [|r rs IH]; [done|].
  change (deref h (r :: rs))
    with (match h !! r with Some p => p :: deref h rs | None => deref h rs end).
  simpl. rewrite list_lookup_fmap.
  destruct (h !! r); simpl; [f_equal|]; exact IH.
Qed.

(** The accounted size only depends on the contents held by the heap. *)
Lemma accounted_size_deref h h' (rs : list ref) :
  ChunkFileEntry.content <$> h = ChunkFileEntry.content <$> h' ->
  accounted_size (deref h rs) = accounted_size (deref h' rs).
Proof.
  intros E. unfold accounted_size. by rewrite !deref_contents, E.
Qed.

Lemma deref_grow h k (rs : list ref) :
  Forall (fun r => (r < length h)%nat) rs -> deref (h ++ k) rs = deref h rs.
Proof.
  intros Hvalid. unfold deref. apply list_omap_ext; [|done..].
  - induction Hvalid as [|r rs Hr _ IH]; constructor; [|done].
    by rewrite lookup_app_l.
Qed.
(** With at least one unit of space the part cut off is non-empty and at
    most one unit longer than the space. *)
Lemma take_part_size file remaining counter currentSpace part remaining' counter' :
  take_part file remaining counter currentSpace = (part, remaining', counter') ->
  1 <= currentSpace -> remaining <> [] ->
  1 <= jslen (ChunkFileEntry.content part) <= currentSpace + 1.
Proof.
  unfold take_part. intros Htake Hspace Hne.
  destruct (Z.leb_spec (jslen remaining) currentSpace) as [Hfit|Hlong];
    injection Htake as <- <- <-; simpl.
  - unfold jslen in *. destruct remaining; [done | simpl length in *; lia].
  - pose proof (findSplitPoint_range remaining currentSpace Hspace Hlong) as Hcut.
    rewrite slice_to. unfold jslen in *. rewrite length_take.
    unfold relIndex. destruct (Z.ltb_spec (findSplitPoint remaining currentSpace) 0);
      lia.
Qed.

Lemma size_inv_valid limitChars st :
  size_inv limitChars st ->
  Forall (fun r => (r < length (heap st))%nat) (currentChunkFiles st)
  /\ Forall (fun ch => Forall (fun r => (r < length (heap st))%nat) (temp_files ch))
       (resultChunks st).
Proof.
  intros (Hrefs & _). unfold flat_refs in Hrefs. split.
  - apply Forall_forall. intros r Hr.
    assert (r ∈ seq 0 (length (heap st))) as Hin.
    { rewrite <- Hrefs. apply elem_of_app. by right. }
    apply elem_of_seq in Hin. lia.
  - apply Forall_forall. intros ch Hch. apply Forall_forall. intros r Hr.
    assert (r ∈ seq 0 (length (heap st))) as Hin.
    { rewrite <- Hrefs. apply elem_of_app. left.
      apply list_elem_of_In, in_concat.
      exists (temp_files ch). split; [|by apply list_elem_of_In].
      apply in_map. by apply list_elem_of_In. }
    apply elem_of_seq in Hin. lia.
Qed.

Lemma flush_size_inv limitChars st :
  CHUNK_OVERHEAD + PER_FILE_OVERHEAD < limitChars ->
  size_inv limitChars st -> size_inv limitChars (flush st).
Proof.
  intros Hroom (Hrefs & Hsize & Hle & Hchunks & Hparts).
  unfold size_inv. rewrite flat_refs_flush. simpl.
  repeat split; try done.
  - unfold CHUNK_OVERHEAD, PER_FILE_OVERHEAD in *. lia.
  - unfold push_chunk. apply Forall_app. split; [done|].
    constructor; [|done]. simpl. by rewrite <- Hsize.
Qed.

Lemma push_size_inv limitChars st part :
  size_inv limitChars st ->
  1 <= jslen (ChunkFileEntry.content part)
    <= limitChars - currentChunkSize st - PER_FILE_OVERHEAD + 1 ->
  size_inv limitChars (push_part st part).
Proof.
  intros Hinv Hpart.
  destruct (size_inv_valid _ _ Hinv) as [Hcur Hold].
  destruct Hinv as (Hrefs & Hsize & Hle & Hchunks & Hparts).
  pose proof (accounted_size_lower (deref (heap st) (currentChunkFiles st)))
    as Hlow. rewrite <- Hsize in Hlow.
  unfold size_inv. rewrite flat_refs_push. simpl. repeat split.
  - rewrite Hrefs, length_app. simpl. by rewrite Nat.add_1_r, seq_S.
  - rewrite deref_app, deref_grow by done.
    replace (deref (heap st ++ [part]) [length (heap st)]) with [part].
    + by rewrite accounted_size_snoc, <- Hsize.
    + unfold deref. simpl. by rewrite list_lookup_middle.
  - lia.
  - rewrite Forall_forall in Hchunks, Hold. apply Forall_forall.
    intros ch Hch. rewrite deref_grow by by apply Hold. by apply Hchunks.
  - rewrite fmap_app. apply Forall_app. split; [done|].
    constructor; [|done]. lia.
Qed.

Lemma iteration_size_inv limitChars file l :
  CHUNK_OVERHEAD + PER_FILE_OVERHEAD < limitChars ->
  remainingContent l <> [] ->
  size_inv limitChars (state l) ->
  size_inv limitChars (state (iteration limitChars file l)).
Proof.
  intros Hroom Hne Hinv.
  destruct ((limitChars - currentChunkSize (state l) - PER_FILE_OVERHEAD <? 500)
            && (0 <? length (currentChunkFiles (state l)))%nat) eqn:Hcond.
  - rewrite (iteration_flush _ _ _ Hcond). simpl. by apply flush_size_inv.
  - destruct (take_part file (remainingContent l) (partCounter l)
                (limitChars - currentChunkSize (state l) - PER_FILE_OVERHEAD))
      as [[part remaining'] counter'] eqn:Htake.
    rewrite (iteration_push _ _ _ _ _ _ Hcond Htake). simpl.
    assert (1 <= limitChars - currentChunkSize (state l) - PER_FILE_OVERHEAD)
      as Hspace.
    { apply andb_false_iff in Hcond as [Hbig%Z.ltb_ge | Hcur%Nat.ltb_ge];
        [lia|].
      destruct Hinv as (_ & Hsize & _). rewrite Hsize.
      destruct (currentChunkFiles (state l)); [|simpl in Hcur; lia].
      unfold deref, accounted_size. simpl. lia. }
    pose proof (take_part_size _ _ _ _ _ _ _ Htake Hspace Hne) as Hpart.
    pose proof (push_size_inv _ _ part Hinv Hpart) as Hpush.
    destruct (0 <? jslen remaining'); [by apply flush_size_inv | done].
Qed.

Lemma while_remaining_size_inv fuel limitChars file l l' :
  CHUNK_OVERHEAD + PER_FILE_OVERHEAD < limitChars ->
  while_remaining fuel limitChars file l = Some l' ->
  size_inv limitChars (state l) -> size_inv limitChars (state l').
Proof.
  intros Hroom. revert l. induction fuel as [|fuel IH]; intros l; simpl;
    destruct (remainingContent l) as [|x r] eqn:E; simpl; try done.
  - by intros [= <-].
  - by intros [= <-].
  - intros Hrun Hinv. apply (IH _ Hrun).
    apply iteration_size_inv; [done | by rewrite E | done].
Qed.

Lemma alter_stamp_contents (n : Z) (r : ref) (h : list ChunkFileEntry.t) :
  ChunkFileEntry.content <$> alter (ChunkFileEntry.stamp n) r h
  = ChunkFileEntry.content <$> h.
Proof.
  rewrite (list_fmap_alter ChunkFileEntry.content (ChunkFileEntry.stamp n) id).
  - by apply list_alter_id.
  - by apply Forall_forall.
Qed.

(** Stamping changes neither the contents nor the number of the objects. *)
Lemma stamp_parts_contents (fileParts : list ref) (h : list ChunkFileEntry.t) :
  ChunkFileEntry.content <$> stamp_parts fileParts h = ChunkFileEntry.content <$> h
  /\ length (stamp_parts fileParts h) = length h.
Proof.
  unfold stamp_parts. destruct (1 <? _); [|done].
  generalize (Z.of_nat (length fileParts)) as n. intros n. revert h.
  induction fileParts as [|r rs IH]; intros h; simpl; [done|].
  destruct (IH (alter (ChunkFileEntry.stamp n) r h)) as [-> ->].
  by rewrite alter_stamp_contents, length_alter.
Qed.

Lemma pack_files_size_inv fuel limitChars files st st' :
  CHUNK_OVERHEAD + PER_FILE_OVERHEAD < limitChars ->
  pack_files fuel limitChars files st = Some st' ->
  size_inv limitChars st -> size_inv limitChars st'.
Proof.
  intros Hroom. revert st. induction files as [|file files IH]; intros st; simpl.
  - by intros [= <-].
  - unfold pack_file.
    destruct (while_remaining _ _ _ _) as [l|] eqn:Hloop; [|done]. simpl.
    intros Hrun Hinv. apply (IH _ Hrun).
    pose proof (while_remaining_size_inv _ _ _ _ _ Hroom Hloop Hinv)
      as (Hrefs & Hsize & Hle & Hchunks & Hparts).
    destruct (stamp_parts_contents (fileParts l) (heap (state l))) as [Hc Hl].
    unfold size_inv, flat_refs in *. simpl. rewrite Hl, Hc.
    repeat split; try done.
    + by rewrite (accounted_size_deref _ (heap (state l))).
    + eapply Forall_impl; [exact Hchunks|]. intros ch Hch. simpl in *.
      by rewrite (accounted_size_deref _ (heap (state l))).
Qed.
Lemma chunks_size_inv gc fuel files maxTokens cs :
  76 <= maxTokens ->
  files <> [] ->
  chunks gc fuel files true maxTokens = Some cs ->
  exists st,
    size_inv (maxTokens * 4) st
    /\ cs = render_chunks gc (heap st) (final_chunks st).
Proof.
  intros Hbudget Hne (st & Hrun & _ & ->)%chunks_splitting_state; [|done].
  exists st. split; [|done].
  assert (CHUNK_OVERHEAD + PER_FILE_OVERHEAD < maxTokens * 4) as Hroom
    by (unfold CHUNK_OVERHEAD, PER_FILE_OVERHEAD; lia).
  apply (pack_files_size_inv _ _ _ _ _ Hroom Hrun).
  unfold size_inv, CHUNK_OVERHEAD, PER_FILE_OVERHEAD. simpl.
  repeat split; try done. lia.
Qed.

(** X2: the budget is kept up to one unit.  From 76 tokens on, the size the
    packer accounts for a chunk (100 for the chunk, and for each part its
    content plus 200) is at most [maxTokens * 4 + 1]. *)
Theorem chunks_within_budget gc fuel (files : list FileEntry.t)
    (maxTokens : Z) (cs : list Chunk.t) :
  76 <= maxTokens ->
  chunks gc fuel files true maxTokens = Some cs ->
  Forall (fun c => accounted_size (Chunk.files c) <= maxTokens * 4 + 1) cs.
Proof.
  intros Hbudget Hrun. destruct files as [|f files].
  { injection Hrun as <-. constructor. }
  apply chunks_size_inv in Hrun as (st & Hinv & ->); [|done..].
  apply (render_chunks_Forall gc _ _
           (fun ps => accounted_size ps <= maxTokens * 4 + 1)).
  destruct Hinv as (_ & Hsize & Hle & Hchunks & _).
  unfold final_chunks, push_chunk.
  destruct (0 <? length (currentChunkFiles st))%nat; [|done].
  apply Forall_app. split; [done|]. constructor; [|done]. simpl.
  by rewrite <- Hsize.
Qed.

Lemma chunks_within_budget_witness :
  let files :=
    [FileEntry.mk (js "a.txt") (js "a.txt")
       (js "abcd" ++ [newline] ++ js "efghijkl") 13 (js "txt")] in
  exists cs,
    chunks (fun _ _ _ => []) 40 files true 76 = Some cs
    /\ map (fun c => accounted_size (Chunk.files c)) cs = [305; 304; 304]
    /\ Forall (fun c => accounted_size (Chunk.files c) <= 76 * 4 + 1) cs.
Proof.
  intros files.
  assert (exists cs, chunks (fun _ _ _ => []) 40 files true 76 = Some cs
                     /\ map (fun c => accounted_size (Chunk.files c)) cs
                        = [305; 304; 304]) as (cs & E & Hsizes).
  { eexists. split; [vm_compute; reflexivity | reflexivity]. }
  exists cs. split; [exact E|]. split; [exact Hsizes|].
  apply (chunks_within_budget (fun _ _ _ => []) 40 files 76 cs); [lia | exact E].
Defined.

(** X3: the size of a part.  From 76 tokens on, every part emitted in
    splitting mode is non-empty and holds at most
    [maxTokens * 4 - 100 - 200 + 1] units. *)
Theorem parts_bounded gc fuel (files : list FileEntry.t)
    (maxTokens : Z) (cs : list Chunk.t) :
  76 <= maxTokens ->
  chunks gc fuel files true maxTokens = Some cs ->
  Forall (fun p => 1 <= jslen (ChunkFileEntry.content p) <= maxTokens * 4 - 299)
    (emitted cs).
Proof.
  intros Hbudget Hrun. destruct files as [|f files].
  { injection Hrun as <-. constructor. }
  apply chunks_size_inv in Hrun as (st & Hinv & ->); [|done..].
  destruct Hinv as (Hrefs & _ & _ & _ & Hparts).
  rewrite emitted_render_chunks by done.
  apply Forall_fmap in Hparts. eapply Forall_impl; [exact Hparts|].
  intros p. unfold CHUNK_OVERHEAD, PER_FILE_OVERHEAD. simpl. lia.
Qed.

Lemma parts_bounded_witness :
  let files :=
    [FileEntry.mk (js "a.txt") (js "a.txt")
       (js "abcd" ++ [newline] ++ js "efghijkl") 13 (js "txt")] in
  exists cs,
    chunks (fun _ _ _ => []) 40 files true 76 = Some cs
    /\ map (fun p => jslen (ChunkFileEntry.content p)) (emitted cs) = [5; 4; 4]
    /\ Forall (fun p => 1 <= jslen (ChunkFileEntry.content p) <= 76 * 4 - 299)
         (emitted cs).
Proof.
  intros files.
  assert (exists cs, chunks (fun _ _ _ => []) 40 files true 76 = Some cs
                     /\ map (fun p => jslen (ChunkFileEntry.content p))
                          (emitted cs) = [5; 4; 4]) as (cs & E & Hsizes).
  { eexists. split; [vm_compute; reflexivity | reflexivity]. }
  exists cs. split; [exact E|]. split; [exact Hsizes|].
  apply (parts_bounded (fun _ _ _ => []) 40 files 76 cs); [lia | exact E].
Defined.

(** ** The marks of split files *)

Lemma mk_parts_unmarked (f : FileEntry.t) (cs : list jsstring) :
  Forall (fun p => ChunkFileEntry.totalParts p = 1
                   /\ ChunkFileEntry.isSplit p = false)
    (mk_parts (asChunkFile f) cs).
Proof.
  induction cs as [|c cs IH] using rev_ind; [constructor|].
  rewrite mk_parts_snoc. apply Forall_app. split; [done|]. by constructor.
Qed.

Lemma final_parts_marks (f : FileEntry.t) (cs : list jsstring) :
  split_marks (final_parts (asChunkFile f) cs).
Proof.
  unfold split_marks.
  destruct (final_parts_view (asChunkFile f) cs) as (_ & _ & _ & ->).
  unfold final_parts. destruct (1 <? Z.of_nat (length cs)) eqn:E.
  - apply Forall_fmap, Forall_forall. intros p _.
    cbn [ChunkFileEntry.totalParts ChunkFileEntry.isSplit ChunkFileEntry.stamp
         compose]. done.
  - apply Z.ltb_ge in E. destruct cs as [|c [|c' cs]].
    + constructor.
    + by repeat constructor.
    + simpl length in E. lia.
Qed.

Lemma filter_blocks_gen (R : FileEntry.t -> list ChunkFileEntry.t -> Prop)
    (files : list FileEntry.t) blocks (f : FileEntry.t) :
  (forall f b, R f b ->
     Forall (fun q => ChunkFileEntry.originalPath q = FileEntry.path f) b) ->
  Forall2 R files blocks ->
  NoDup (map FileEntry.path files) ->
  f ∈ files ->
  R f (List.filter
         (fun q => str_eqb (ChunkFileEntry.originalPath q) (FileEntry.path f))
         (concat blocks)).
Proof.
  intros Hpaths. induction 1 as [|f0 b files blocks Hb Hrest IH];
    intros Hnodup Hin.
  - by apply elem_of_nil in Hin.
  - simpl in Hnodup. apply NoDup_cons in Hnodup as [Hfresh Hnodup].
    simpl. rewrite List.filter_app.
    assert (Forall (fun q => ChunkFileEntry.originalPath q
                             ∈ map FileEntry.path files) (concat blocks))
      as Hothers.
    { clear -Hrest Hpaths. induction Hrest as [|g c gs cs Hg _ IHr]; simpl;
        [constructor|]. apply Forall_app. split.
      - eapply Forall_impl; [exact (Hpaths _ _ Hg)|]. intros q ->. by left.
      - eapply Forall_impl; [exact IHr|]. intros q Hq. by right. }
    pose proof (Hpaths _ _ Hb) as Hown.
    apply elem_of_cons in Hin as [->|Hin].
    + rewrite filter_keep_all, filter_drop_all, app_nil_r; [done| |].
      * eapply Forall_impl; [exact Hothers|].
        intros q Hq. apply str_eqb_neq. intros E. cbv beta in Hq.
        by rewrite E in Hq.
      * eapply Forall_impl; [exact Hown|]. intros q ->. apply str_eqb_refl.
    + rewrite filter_drop_all; [by apply IH|].
      eapply Forall_impl; [exact Hown|].
      intros q ->. apply str_eqb_neq. intros E. apply Hfresh. rewrite E.
      by apply list_elem_of_fmap_2.
Qed.

(** X4: the marks of split files.  In the parts a run has emitted, the parts
    of a file all carry the number of parts of that file as [totalParts],
    and are marked [isSplit] exactly when the file has more than one part;
    this holds block by block, and for the parts found by path when paths
    are unique. *)
Theorem chunks_split_marks gc fuel (files : list FileEntry.t)
    (enableSplitting : bool) (maxTokens : Z) (cs : list Chunk.t) :
  chunks gc fuel files enableSplitting maxTokens = Some cs ->
  (exists blocks,
      emitted cs = concat blocks
      /\ Forall2 (fun f b => reconstructs f b /\ split_marks b) files blocks)
  /\ (NoDup (map FileEntry.path files) ->
      forall f, f ∈ files -> split_marks (parts_of (FileEntry.path f) cs)).
Proof.
  intros (blocks & Hem & Hblocks)%chunks_blocks.
  assert (Forall2 (fun f b => reconstructs f b /\ split_marks b) files blocks)
    as Hmarks.
  { eapply Forall2_impl; [exact Hblocks|]. simpl.
    intros f b [[_ (cs' & -> & Hc & _)] | [_ ->]].
    - split; [by apply final_parts_reconstructs | apply final_parts_marks].
    - split; [apply single_part_reconstructs | by repeat constructor]. }
  split; [by exists blocks|].
  intros Hnodup f Hin. unfold parts_of. rewrite Hem.
  apply (filter_blocks_gen (fun f b => reconstructs f b /\ split_marks b)
           files blocks f); try done.
  by intros g b [[Hp _] _].
Qed.

Lemma chunks_split_marks_witness :
  let a := FileEntry.mk (js "a.txt") (js "a.txt")
             (js "abcd" ++ [newline] ++ js "efghijkl") 13 (js "txt") in
  let b := FileEntry.mk (js "b.txt") (js "b.txt") (js "xy") 2 (js "txt") in
  exists cs,
    chunks (fun _ _ _ => []) 40 [a; b] true 76 = Some cs
    /\ map (fun p => (ChunkFileEntry.partIndex p, ChunkFileEntry.totalParts p,
                      ChunkFileEntry.isSplit p)) (emitted cs)
       = [(1, 3, true); (2, 3, true); (3, 3, true); (1, 1, false)]
    /\ split_marks (parts_of (js "a.txt") cs).
Proof.
  intros a b.
  assert (exists cs, chunks (fun _ _ _ => []) 40 [a; b] true 76 = Some cs
            /\ map (fun p => (ChunkFileEntry.partIndex p,
                              ChunkFileEntry.totalParts p,
                              ChunkFileEntry.isSplit p)) (emitted cs)
               = [(1, 3, true); (2, 3, true); (3, 3, true); (1, 1, false)])
    as (cs & E & Hmarks).
  { eexists. split; [vm_compute; reflexivity | reflexivity]. }
  exists cs. split; [exact E|]. split; [exact Hmarks|].
  refine (proj2 (chunks_split_marks (fun _ _ _ => []) 40 [a; b] true 76 cs E)
            _ a _).
  - repeat constructor; rewrite list_elem_of_In; simpl; intuition discriminate.
  - apply list_elem_of_In. simpl. auto.
Defined.
(** ** When a run gives no chunk *)

Lemma pack_files_all_empty fuel limitChars (files : list ChunkFileEntry.t) st :
  Forall (fun file => ChunkFileEntry.content file = []) files ->
  pack_files fuel limitChars files st = Some st.
Proof.
  induction 1 as [|file files Hfile _ IH]; simpl; [done|].
  unfold pack_file.
  assert (while_remaining fuel limitChars file
            (mkLoop st (ChunkFileEntry.content file) 1 [])
          = Some (mkLoop st (ChunkFileEntry.content file) 1 [])) as ->.
  { destruct fuel; simpl; by rewrite Hfile. }
  simpl. unfold stamp_parts. simpl. by destruct st.
Qed.

(** X5: a run gives no chunk exactly when there is nothing to pack: the
    file set is empty, or splitting is on and every file is empty. *)
Theorem chunks_none_iff gc fuel (files : list FileEntry.t)
    (enableSplitting : bool) (maxTokens : Z) (cs : list Chunk.t) :
  chunks gc fuel files enableSplitting maxTokens = Some cs ->
  cs = [] <->
  files = []
  \/ enableSplitting = true /\ Forall (fun f => FileEntry.content f = []) files.
Proof.
  intros Hrun. split.
  - intros ->. apply chunks_blocks in Hrun as (blocks & Hem & Hblocks).
    unfold emitted in Hem. simpl in Hem. symmetry in Hem.
    destruct enableSplitting.
    + right. split; [done|].
      clear -Hem Hblocks. induction Hblocks as [|f b files blocks Hb _ IH];
        [constructor|].
      simpl in Hem. apply app_eq_nil in Hem as [-> Hrest].
      constructor; [|by apply IH].
      destruct Hb as [[_ Hb]|[? _]]; [|done].
      by apply (file_block_paths f []).
    + left. destruct Hblocks as [|f b files blocks [[? _]|[_ ->]] _]; try done.
  - intros [-> | [-> Hempty]].
    + by injection Hrun as <-.
    + unfold chunks in Hrun.
      destruct (length (map asChunkFile files) =? 0)%nat;
        [by injection Hrun as <-|].
      cbn [negb] in Hrun. cbv iota in Hrun.
      rewrite pack_files_all_empty in Hrun.
      * by injection Hrun as <-.
      * apply Forall_fmap. eapply Forall_impl; [exact Hempty|]. done.
Qed.

Lemma chunks_none_iff_witness :
  let files := [FileEntry.mk (js ".gitkeep") (js ".gitkeep") [] 0 (js "gitkeep");
                FileEntry.mk (js "b.txt") (js "b.txt") [] 0 (js "txt")] in
  chunks (fun _ _ _ => []) 0 files true 25000 = Some []
  /\ (@nil Chunk.t = [] <->
      files = []
      \/ true = true /\ Forall (fun f => FileEntry.content f = []) files).
Proof.
  intros files. split; [reflexivity|].
  exact (chunks_none_iff (fun _ _ _ => []) 0 files true 25000 [] eq_refl).
Defined.

(** ** Numbering of the chunks *)

(** X6: in splitting mode the chunk at position [i] (from 0) of the [N]
    chunks has the id [part-(i+1)] and the label [Part (i+1) of N], and its
    content is the rendering of its own files with the same two numbers. *)
Theorem chunks_numbering gc fuel (files : list FileEntry.t) (maxTokens : Z)
    (cs : list Chunk.t) (i : nat) (c : Chunk.t) :
  chunks gc fuel files true maxTokens = Some cs ->
  cs !! i = Some c ->
  Chunk.id c = js "part-" ++ str_of_nat (i + 1)
  /\ Chunk.label c
     = js "Part " ++ str_of_nat (i + 1) ++ js " of " ++ str_of_nat (length cs)
  /\ Chunk.content c
     = gc (Chunk.files c) (Some (Z.of_nat (i + 1)))
         (Some (Z.of_nat (length cs))).
Proof.
  intros Hrun Hc. destruct files as [|f files].
  { injection Hrun as <-. by rewrite lookup_nil in Hc. }
  apply chunks_splitting_state in Hrun as (st & _ & _ & ->); [|done].
  unfold render_chunks in *. rewrite length_imap.
  rewrite list_lookup_imap in Hc.
  destruct (final_chunks st !! i) as [ch|]; [|done].
  simpl in Hc. by injection Hc as <-.
Qed.

Lemma chunks_numbering_witness :
  let files := [FileEntry.mk (js "a.txt") (js "a.txt") (js "abcdefghijkl") 12
                  (js "txt")] in
  exists cs c,
    chunks (fun _ _ _ => []) 40 files true 76 = Some cs
    /\ cs !! 1%nat = Some c
    /\ Chunk.id c = js "part-2"
    /\ Chunk.label c = js "Part 2 of 3".
Proof.
  intros files.
  assert (exists cs c, chunks (fun _ _ _ => []) 40 files true 76 = Some cs
                       /\ cs !! 1%nat = Some c /\ length cs = 3%nat)
    as (cs & c & E & Hc & Hlen).
  { eexists _, _. split; [vm_compute; reflexivity|]. split; reflexivity. }
  exists cs, c. split; [exact E|]. split; [exact Hc|].
  destruct (chunks_numbering (fun _ _ _ => []) 40 files 76 cs 1 c E Hc)
    as (Hid & Hlabel & _).
  rewrite Hlen in Hlabel. split; [exact Hid | exact Hlabel].
Defined.
(** ** Where an oversized text is cut *)

Lemma lastIndexOf_scan_spec (s : jsstring) (c : ascii) (start i acc : Z) :
  0 <= i -> acc < i ->
  let k := lastIndexOf_scan s c start i acc in
  (k = acc \/ (i <= k <= start /\ s !! Z.to_nat (k - i) = Some c))
  /\ (forall j, k < j -> i <= j <= start -> s !! Z.to_nat (j - i) <> Some c).
Proof.
  revert i acc. induction s as [|x s IH]; intros i acc Hi Hacc; simpl.
  - split; [by left|]. intros j _ _. by rewrite lookup_nil.
  - destruct (Z.ltb_spec start i) as [Hpast|Hin].
    { split; [by left|]. intros j _ Hj. lia. }
    destruct (IH (i + 1) (if Ascii.eqb x c then i else acc)) as [Hk Hmax].
    { lia. } { destruct (Ascii.eqb x c); lia. }
    set (k := lastIndexOf_scan s c start (i + 1)
                (if Ascii.eqb x c then i else acc)) in *.
    split.
    + destruct Hk as [Hk | [Hrange Hfound]].
      * destruct (Ascii.eqb_spec x c) as [->|Hx]; [|by left].
        right. rewrite Hk. split; [lia|]. by rewrite Z.sub_diag.
      * right. split; [lia|].
        replace (Z.to_nat (k - i)) with (S (Z.to_nat (k - (i + 1)))) by lia.
        done.
    + intros j Hkj Hj. destruct (Z.eq_dec j i) as [->|Hji].
      * rewrite Z.sub_diag. simpl. intros [= ->].
        rewrite Ascii.eqb_refl in Hk.
        destruct Hk as [Hk | [Hrange _]]; lia.
      * replace (Z.to_nat (j - i)) with (S (Z.to_nat (j - (i + 1)))) by lia.
        simpl. apply Hmax; lia.
Qed.

(** [lastIndexOf] finds the last occurrence at or before the start
    position, and answers [-1] when there is none. *)
Lemma lastIndexOf_spec (s : jsstring) (c : ascii) (fromIndex : Z) :
  0 <= fromIndex ->
  let k := lastIndexOf s c fromIndex in
  (k = -1 \/ (0 <= k <= fromIndex /\ s !! Z.to_nat k = Some c))
  /\ (forall j, k < j -> 0 <= j <= fromIndex -> s !! Z.to_nat j <> Some c).
Proof.
  intros Hfrom. unfold lastIndexOf.
  destruct (lastIndexOf_scan_spec s c
              (Z.min (Z.max fromIndex 0) (jslen s)) 0 (-1)) as [Hk Hmax];
    [lia..|].
  set (k := lastIndexOf_scan s c _ 0 (-1)) in *. simpl. split.
  - destruct Hk as [Hk | [Hrange Hfound]]; [by left|].
    right. rewrite Z.sub_0_r in Hfound. split; [lia | done].
  - intros j Hkj Hj.
    destruct (Z.le_gt_cases j (jslen s)) as [Hlen|Hlen].
    + specialize (Hmax j Hkj). rewrite Z.sub_0_r in Hmax. apply Hmax. lia.
    + rewrite lookup_ge_None_2; [done|]. unfold jslen in Hlen. lia.
Qed.

Lemma in_window_mono (maxChars j k : Z) :
  in_window maxChars j -> j <= k -> in_window maxChars k.
Proof. unfold in_window. destruct (5000 <=? maxChars); lia. Qed.

(** X7: where an oversized text is cut.  For a text longer than a space of
    at least one unit, the cut is just after the last newline at an index up
    to [maxChars] when that newline lies in the search window, and the
    slice then ends with it; otherwise the cut is at [maxChars] and the
    window holds no newline. *)
Theorem findSplitPoint_cut (text : jsstring) (maxChars : Z) :
  1 <= maxChars -> maxChars < jslen text ->
  (exists k,
      findSplitPoint text maxChars = k + 1
      /\ 0 <= k <= maxChars
      /\ in_window maxChars k
      /\ text !! Z.to_nat k = Some newline
      /\ (forall j, k < j <= maxChars -> text !! Z.to_nat j <> Some newline))
  \/ (findSplitPoint text maxChars = maxChars
      /\ forall j, 0 <= j <= maxChars -> in_window maxChars j ->
                   text !! Z.to_nat j <> Some newline).
Proof.
  intros Hpos Hlong. unfold findSplitPoint.
  destruct (Z.leb_spec (jslen text) maxChars); [lia|].
  rewrite window_test.
  destruct (lastIndexOf_spec text newline maxChars ltac:(lia)) as [Hk Hmax].
  set (k := lastIndexOf text newline maxChars) in *.
  fold (in_window maxChars k).
  assert (in_window maxChars k
          \/ ~ in_window maxChars k) as [Hwin|Hout].
  { unfold in_window. destruct (5000 <=? maxChars); lia. }
  - left. exists k.
    assert ((if 5000 <=? maxChars then maxChars - 1000 <? k
             else 4 * maxChars <? 5 * k) = true) as ->.
    { unfold in_window in Hwin. destruct (5000 <=? maxChars);
        by apply Z.ltb_lt. }
    destruct Hk as [Hk | [Hrange Hfound]].
    + unfold in_window in Hwin. destruct (5000 <=? maxChars) eqn:E;
        [apply Z.leb_le in E|]; lia.
    + repeat split; try done; try lia.
      intros j Hj. apply Hmax; lia.
  - right.
    assert ((if 5000 <=? maxChars then maxChars - 1000 <? k
             else 4 * maxChars <? 5 * k) = false) as ->.
    { unfold in_window in Hout. destruct (5000 <=? maxChars);
        apply Z.ltb_ge; lia. }
    split; [done|]. intros j Hj Hwin.
    apply Hmax; [|done].
    destruct (Z.lt_ge_cases k j) as [|Hle]; [done|].
    destruct Hout. by apply (in_window_mono maxChars j k).
Qed.

Lemma findSplitPoint_cut_witness :
  let text := js "line one" ++ [newline] ++ js "line two" in
  findSplitPoint text 9 = 9
  /\ text !! 8%nat = Some newline
  /\ slice text 0 (Some (findSplitPoint text 9)) = js "line one" ++ [newline].
Proof.
  intros text.
  assert (findSplitPoint text 9 = 9) as E by (vm_compute; reflexivity).
  destruct (findSplitPoint_cut text 9)
    as [(k & Hcut & Hk & _ & Hnl & Hlast) | [Hcut Hnone]].
  - lia.
  - vm_compute. reflexivity.
  - rewrite E in Hcut. assert (k = 8) as -> by lia.
    split; [exact E|]. split; [exact Hnl|]. rewrite E. reflexivity.
  - destruct (Hnone 8); [lia | unfold in_window; simpl; lia | reflexivity].
Defined.

(** ** What a compiled pattern accepts *)

Lemma star_test_spec (k : jsstring -> bool) (a : atom) (s : jsstring) :
  star_test k a s = true <->
  exists run rest,
    s = run ++ rest /\ Forall (fun x => atom_matches a x = true) run
    /\ k rest = true.
Proof.
  split.
  - induction s as [|x s IH]; simpl.
    + rewrite orb_false_r. intros Hk. by exists [], [].
    + intros [Hk | [Hx Hs]%andb_true_iff]%orb_true_iff.
      * by exists [], (x :: s).
      * destruct (IH Hs) as (run & rest & -> & Hrun & Hk).
        exists (x :: run), rest. repeat split; [|done]. by constructor.
  - intros (run & rest & -> & Hrun & Hk).
    induction Hrun as [|x run Hx _ IH]; simpl.
    + destruct rest; simpl; by rewrite Hk.
    + by rewrite Hx, IH, orb_true_r.
Qed.

Lemma regex_test_accepts (ts : list term) (s : jsstring) :
  regex_test ts s = true <-> regex_accepts ts s.
Proof.
  revert s. induction ts as [|[a|a] ts IH]; intros s; simpl.
  - destruct s; split; done.
  - destruct s as [|x s].
    + split; [done|]. by intros (? & ? & ? & _).
    + rewrite andb_true_iff, IH. split.
      * intros [Hx Hs]. by exists x, s.
      * by intros (y & rest & [= <- <-] & Hx & Hs).
  - rewrite star_test_spec. split.
    + intros (run & rest & -> & Hrun & Hk). exists run, rest.
      by rewrite <- IH.
    + intros (run & rest & -> & Hrun & Hk). exists run, rest.
      by rewrite IH.
Qed.

(** A pattern is accepted by the expression compiled from it. *)
Lemma compile_glob_accepts_self (pattern : jsstring) :
  regex_accepts (compile_glob pattern) pattern.
Proof.
  remember (length pattern) as n eqn:Hn. revert pattern Hn.
  induction n as [n IH] using lt_wf_ind. intros pattern ->.
  destruct pattern as [|c p]; [done|].
  cbn [compile_glob].
  destruct (Ascii.eqb_spec c "*"%char) as [->|Hstar].
  - destruct p as [|d p].
    { exists ["*"%char], []. by repeat constructor. }
    destruct (Ascii.eqb_spec d "*"%char) as [->|Hd].
    + exists "*"%char, ("*"%char :: p). repeat split.
      exists ["*"%char], p. repeat split; [by repeat constructor|].
      apply (IH (length p)); [simpl; lia | done].
    + exists ["*"%char], (d :: p). repeat split; [by repeat constructor|].
      apply (IH (length (d :: p))); [simpl; lia | done].
  - destruct (Ascii.eqb_spec c "?"%char) as [->|Hq].
    + exists "?"%char, p. repeat split.
      apply (IH (length p)); [simpl; lia | done].
    + exists c, p. repeat split; [apply Ascii.eqb_refl|].
      apply (IH (length p)); [simpl; lia | done].
Qed.

Lemma matchesPattern_glob (p pattern : jsstring) :
  "/"%char ∈ pattern \/ "*"%char ∈ pattern ->
  matchesPattern p pattern = true <-> regex_accepts (compile_glob pattern) p.
Proof.
  intros Hglob. unfold matchesPattern.
  destruct (str_eqb pattern p) eqn:E.
  { apply str_eqb_eq in E. subst p. split; [|done].
    intros _. apply compile_glob_accepts_self. }
  assert (negb (includes pattern (js "/")) && negb (includes pattern (js "*"))
          = false) as ->.
  { apply andb_false_iff. rewrite !negb_false_iff.
    destruct Hglob as [H|H]; [left|right]; by apply includes_unit. }
  rewrite globToRegex_compile. apply regex_test_accepts.
Qed.

(** X8: what a glob pattern matches.  A pattern that holds a [/] or a [*]
    always compiles, and matches a path exactly when the normalized path
    can be read along the pattern: [**] as one unit that is no line
    terminator followed by a run without [/], a single [*] as a run without
    [/], [?] as one unit that is no line terminator, and any other
    character as itself up to case. *)
Theorem matchesAnyPattern_glob (path pattern : jsstring) :
  "/"%char ∈ pattern \/ "*"%char ∈ pattern ->
  globToRegex pattern = Some (compile_glob pattern)
  /\ (matchesAnyPattern path [pattern] = true <->
      regex_accepts (compile_glob pattern) (normalizePath path)).
Proof.
  intros Hglob. split; [apply globToRegex_compile|].
  unfold matchesAnyPattern. rewrite existsb_singleton.
  by apply matchesPattern_glob.
Qed.

Lemma matchesAnyPattern_glob_witness :
  matchesAnyPattern (js "src\App.TSX") [js "src/*.ts?"] = true <->
  regex_accepts (compile_glob (js "src/*.ts?")) (normalizePath (js "src\App.TSX")).
Proof.
  apply (matchesAnyPattern_glob (js "src\App.TSX") (js "src/*.ts?")).
  left. apply list_elem_of_In. simpl. auto.
Defined.
(** ** Patterns without wildcards, and patterns that begin with a star *)

Lemma compile_glob_literal (lit : jsstring) :
  Forall literal_unit lit ->
  compile_glob lit = map (fun c => Once (AChar c)) lit.
Proof.
  induction 1 as [|c lit [Hstar Hq] _ IH]; [done|].
  cbn [compile_glob map].
  apply Ascii.eqb_neq in Hstar, Hq. by rewrite Hstar, Hq, IH.
Qed.

Lemma literal_accepts (lit s : jsstring) :
  regex_accepts (map (fun c => Once (AChar c)) lit) s <-> same_fold s lit.
Proof.
  unfold same_fold. revert s. induction lit as [|c lit IH]; intros s; simpl.
  - destruct s; split; done.
  - split.
    + intros (x & rest & -> & Hx%Ascii.eqb_eq & Hrest%IH). simpl. congruence.
    + destruct s as [|x s]; [done|]. simpl. intros [= Hx Hs].
      exists x, s. repeat split; [by apply Ascii.eqb_eq | by apply IH].
Qed.

(** X9: a pattern with a [/] and no wildcard matches a path exactly when
    the normalized path is the pattern up to the case of letters. *)
Theorem matchesAnyPattern_literal_path (path pattern : jsstring) :
  "/"%char ∈ pattern ->
  Forall literal_unit pattern ->
  matchesAnyPattern path [pattern] = true <->
  same_fold (normalizePath path) pattern.
Proof.
  intros Hslash Hlit. unfold matchesAnyPattern. rewrite existsb_singleton.
  rewrite matchesPattern_glob by by left.
  rewrite compile_glob_literal by done. apply literal_accepts.
Qed.

Lemma matchesAnyPattern_literal_path_witness :
  matchesAnyPattern (js "Docs\ReadMe.md") [js "docs/readme.md"] = true <->
  same_fold (normalizePath (js "Docs\ReadMe.md")) (js "docs/readme.md").
Proof.
  apply (matchesAnyPattern_literal_path (js "Docs\ReadMe.md") (js "docs/readme.md")).
  - apply list_elem_of_In. simpl. repeat (first [left; reflexivity | right]).
  - repeat constructor; discriminate.
Defined.

Lemma same_fold_slash (s t : jsstring) :
  same_fold s t -> "/"%char ∈ s -> "/"%char ∈ t.
Proof.
  unfold same_fold. revert t. induction s as [|x s IH]; intros [|y t] E Hin;
    simpl in E; try done.
  injection E as Exy E. apply elem_of_cons in Hin as [<-|Hin].
  - apply elem_of_cons. left. symmetry. apply Ascii.eqb_eq.
    by rewrite <- slash_canonicalize, <- Exy.
  - apply elem_of_cons. right. by apply IH.
Qed.

(** X10: a pattern made of a star and a suffix without wildcard or [/]
    only matches paths outside any directory: the normalized path holds no
    [/] and ends with the suffix up to the case of letters. *)
Theorem matchesAnyPattern_star_suffix (path lit : jsstring) :
  Forall literal_unit lit ->
  "/"%char ∉ lit ->
  matchesAnyPattern path ["*"%char :: lit] = true <->
  ("/"%char ∉ normalizePath path)
  /\ exists base rest,
       normalizePath path = base ++ rest /\ same_fold rest lit.
Proof.
  intros Hlit Hslash. unfold matchesAnyPattern. rewrite existsb_singleton.
  rewrite matchesPattern_glob by (right; by left).
  assert (compile_glob ("*"%char :: lit)
          = Star ANotSlash :: map (fun c => Once (AChar c)) lit) as ->.
  { rewrite <- compile_glob_literal by done. cbn [compile_glob].
    destruct Hlit as [|d lit [Hd _] _]; [done|].
    apply Ascii.eqb_neq in Hd. by rewrite Hd. }
  simpl. split.
  - intros (run & rest & -> & Hrun & Hrest%literal_accepts). split.
    + intros [Hin|Hin]%elem_of_app.
      * rewrite Forall_forall in Hrun. specialize (Hrun _ Hin). done.
      * by apply Hslash, (same_fold_slash rest).
    + by exists run, rest.
  - intros [Hnone (base & rest & E & Hrest)]. exists base, rest.
    split; [done|]. split; [|by apply literal_accepts].
    apply Forall_forall. intros x Hx. simpl.
    destruct (Ascii.eqb_spec x "/"%char) as [->|]; [|done].
    destruct Hnone. rewrite E. apply elem_of_app. by left.
Qed.

Lemma matchesAnyPattern_star_suffix_witness :
  matchesAnyPattern (js "src/debug.log") [js "*.log"] = true <->
  ("/"%char ∉ normalizePath (js "src/debug.log"))
  /\ exists base rest,
       normalizePath (js "src/debug.log") = base ++ rest
       /\ same_fold rest (js ".log").
Proof.
  apply (matchesAnyPattern_star_suffix (js "src/debug.log") (js ".log")).
  - repeat constructor; discriminate.
  - rewrite list_elem_of_In. simpl. intuition discriminate.
Defined.
(** ** Patterns written with backslashes *)

Lemma normalizePath_no_backslash (path : jsstring) :
  "\"%char ∉ normalizePath path.
Proof.
  unfold normalizePath. intros (c & Hc & _)%list_elem_of_fmap.
  destruct (Ascii.eqb_spec c "\"%char); [discriminate | congruence].
Qed.

Lemma canonicalize_backslash (x : ascii) :
  canonicalize x = "\"%char -> x = "\"%char.
Proof. destruct x as [[] [] [] [] [] [] [] []]; done. Qed.

Lemma compile_glob_literal_unit (c : ascii) (pattern : jsstring) :
  c ∈ pattern -> literal_unit c -> Once (AChar c) ∈ compile_glob pattern.
Proof.
  intros Hin [Hstar Hq].
  remember (length pattern) as n eqn:Hn. revert pattern Hn Hin.
  induction n as [n IH] using lt_wf_ind. intros pattern -> Hin.
  destruct pattern as [|d p]; [by apply elem_of_nil in Hin|].
  cbn [compile_glob].
  destruct (Ascii.eqb_spec d "*"%char) as [->|Hd].
  - apply elem_of_cons in Hin as [?|Hin]; [done|].
    destruct p as [|e p]; [by apply elem_of_nil in Hin|].
    destruct (Ascii.eqb_spec e "*"%char) as [->|He].
    + apply elem_of_cons in Hin as [?|Hin]; [done|].
      do 2 apply elem_of_cons, or_intror.
      apply (IH (length p)); [simpl; lia | done..].
    + apply elem_of_cons, or_intror.
      apply (IH (length (e :: p))); [simpl; lia | done..].
  - assert (c = d \/ c ∈ p) as [->|Hp] by by apply elem_of_cons.
    + apply Ascii.eqb_neq in Hq. rewrite Hq. by left.
    + destruct (Ascii.eqb d "?"%char); apply elem_of_cons, or_intror;
        (apply (IH (length p)); [simpl; lia | done..]).
Qed.

Lemma regex_accepts_literal_unit (ts : list term) (s : jsstring) (c : ascii) :
  Once (AChar c) ∈ ts -> regex_accepts ts s ->
  exists x, x ∈ s /\ canonicalize x = canonicalize c.
Proof.
  revert s. induction ts as [|t ts IH]; intros s Hin Hacc.
  - by apply elem_of_nil in Hin.
  - apply elem_of_cons in Hin as [<-|Hin].
    + destruct Hacc as (x & rest & -> & Hx%Ascii.eqb_eq & _).
      exists x. split; [by left | done].
    + destruct t as [a|a].
      * destruct Hacc as (y & rest & -> & _ & Hrest).
        destruct (IH _ Hin Hrest) as (x & Hx & Hfold).
        exists x. split; [by right | done].
      * destruct Hacc as (run & rest & -> & _ & Hrest).
        destruct (IH _ Hin Hrest) as (x & Hx & Hfold).
        exists x. split; [|done]. apply elem_of_app. by right.
Qed.

(** X11: a pattern that holds a backslash matches no path.  Only the path
    is normalized to forward slashes; a backslash of a pattern stands for
    itself, and the normalized path has none. *)
Theorem matchesAnyPattern_backslash_pattern (path pattern : jsstring) :
  "\"%char ∈ pattern ->
  matchesAnyPattern path [pattern] = false.
Proof.
  intros Hback. apply not_true_is_false. intros Hm.
  pose proof (normalizePath_no_backslash path) as Hnone.
  unfold matchesAnyPattern in Hm. rewrite existsb_singleton in Hm.
  assert (("/"%char ∈ pattern \/ "*"%char ∈ pattern)
          \/ (("/"%char ∉ pattern) /\ ("*"%char ∉ pattern))) as [Hglob|Hbare].
  { rewrite <- !(includes_unit pattern).
    destruct (includes pattern ["/"%char]), (includes pattern ["*"%char]);
      intuition discriminate. }
  - apply matchesPattern_glob in Hm; [|done].
    destruct (regex_accepts_literal_unit _ _ "\"%char
                (compile_glob_literal_unit _ _ Hback ltac:(by split)) Hm)
      as (x & Hx & Hfold).
    apply canonicalize_backslash in Hfold. by subst x.
  - apply matchesPattern_shorthand in Hm; [|tauto..].
    apply Hnone.
    destruct Hm as [-> | [[k ->] | [[k ->] | (k1 & k2 & ->)]]];
      rewrite ?elem_of_app; tauto.
Qed.

Lemma matchesAnyPattern_backslash_pattern_witness :
  matchesAnyPattern (js "src\utils\a.ts") [js "src\utils\a.ts"] = false.
Proof.
  apply matchesAnyPattern_backslash_pattern.
  apply list_elem_of_In. simpl. repeat (first [left; reflexivity | right]).
Defined.
(** ** The extension check *)

Lemma split_dot_no_dot (name : jsstring) :
  "."%char ∉ name -> split_dot name = [name].
Proof.
  induction name as [|c name IH]; intros Hnone; [done|].
  simpl. destruct (Ascii.eqb_spec c "."%char) as [->|Hc].
  - destruct Hnone. by left.
  - rewrite IH; [done|]. intros Hin. apply Hnone. by right.
Qed.

Lemma split_dot_last (base ext : jsstring) :
  "."%char ∉ ext ->
  exists front, front <> [] /\ split_dot (base ++ "."%char :: ext) = front ++ [ext].
Proof.
  intros Hnone. induction base as [|c base (front & Hne & IH)]; simpl.
  - exists [[]]. split; [done|]. by rewrite split_dot_no_dot.
  - rewrite IH. destruct (Ascii.eqb c "."%char).
    + by exists ([] :: front).
    + destruct front as [|seg front]; [done|]. by exists ((c :: seg) :: front).
Qed.

Lemma lower_unit_idemp (c : ascii) : lower_unit (lower_unit c) = lower_unit c.
Proof. destruct c as [[] [] [] [] [] [] [] []]; reflexivity. Qed.

Lemma toLowerCase_idemp (s : jsstring) : toLowerCase (toLowerCase s) = toLowerCase s.
Proof.
  unfold toLowerCase. rewrite map_map. apply map_ext. apply lower_unit_idemp.
Qed.

Lemma dotted_extension_lower (name : jsstring) :
  toLowerCase (dotted_extension name) = dotted_extension name.
Proof.
  unfold dotted_extension. destruct (pop (split_dot name)) as [seg|].
  - change (toLowerCase (js "." ++ toLowerCase seg))
      with ("."%char :: toLowerCase (toLowerCase seg)).
    by rewrite toLowerCase_idemp.
  - reflexivity.
Qed.

(** X12: the extension that is looked up.  For a name that ends with a dot
    and a dot-free [ext], the name is denied exactly when ["." ++ ext] in
    lower case is in the list; a name without any dot is looked up whole,
    as if it were its own extension. *)
Theorem hasIgnoredExtension_lookup (base ext name : jsstring)
    (ignoredExtensions : list jsstring) :
  "."%char ∉ ext -> "."%char ∉ name ->
  (hasIgnoredExtension (base ++ "."%char :: ext) ignoredExtensions = true <->
   ("."%char :: toLowerCase ext) ∈ ignoredExtensions)
  /\ (hasIgnoredExtension name ignoredExtensions = true <->
      ("."%char :: toLowerCase name) ∈ ignoredExtensions).
Proof.
  intros Hext Hname. unfold hasIgnoredExtension.
  rewrite !existsb_str_eqb. unfold dotted_extension, pop.
  destruct (split_dot_last base ext Hext) as (front & _ & ->).
  rewrite last_snoc, split_dot_no_dot by done. done.
Qed.

Lemma hasIgnoredExtension_lookup_witness :
  (hasIgnoredExtension (js "photo.final.PNG") [js ".png"; js ".lock"] = true <->
   ("."%char :: toLowerCase (js "PNG")) ∈ [js ".png"; js ".lock"])
  /\ (hasIgnoredExtension (js "lock") [js ".png"; js ".lock"] = true <->
      ("."%char :: toLowerCase (js "lock")) ∈ [js ".png"; js ".lock"]).
Proof.
  refine (hasIgnoredExtension_lookup (js "photo.final") (js "PNG") (js "lock")
            [js ".png"; js ".lock"] _ _);
    rewrite list_elem_of_In; simpl; intuition discriminate.
Defined.

(** X13: a denied extension that is not in lower case denies nothing: the
    extension of the file is lowered before the lookup, the entries of the
    list are not. *)
Theorem hasIgnoredExtension_upper_entry (name e : jsstring) :
  toLowerCase e <> e ->
  hasIgnoredExtension name [e] = false.
Proof.
  intros He. unfold hasIgnoredExtension. rewrite existsb_singleton.
  apply str_eqb_neq. intros E. apply He.
  by rewrite <- E, dotted_extension_lower.
Qed.

Lemma hasIgnoredExtension_upper_entry_witness :
  hasIgnoredExtension (js "logo.PNG") [js ".PNG"] = false.
Proof.
  apply hasIgnoredExtension_upper_entry. discriminate.
Defined.

(** ** Further properties of the filter pipeline *)

(** X14: what the output holds.  Every entry of the output of
    [processFiles] is the entry of a readable file of the input, and passes
    the four checks: its path matches no ignore pattern, its extension is
    not denied, its size is at most 500 * 1024, and its content holds no NUL
    unit. *)
Theorem processFiles_sound
    (localeCompare : jsstring -> jsstring -> Z) (fileList : list File.t)
    (ignorePatterns ignoreExtensions : list jsstring) (e : FileEntry.t) :
  e ∈ processFiles localeCompare fileList ignorePatterns ignoreExtensions ->
  (exists file,
      file ∈ fileList
      /\ File.text file = Some (FileEntry.content e)
      /\ e = entry_of file (FileEntry.content e))
  /\ passes_checks ignorePatterns ignoreExtensions (FileEntry.path e)
       (FileEntry.name e) (FileEntry.size e) (FileEntry.content e).
Proof.
  unfold processFiles. rewrite sort_entries_Permutation, list_elem_of_omap.
  intros (file & Hin & (c & Htext & Hchecks & ->)%processFile_Some).
  simpl. split; [|done]. by exists file.
Qed.

Lemma processFiles_sound_witness :
  let src := File.mk (js "proj/src/app.ts") (js "app.ts") 120 (Some (js "let x;")) in
  let big := File.mk (js "proj/data.bin") (js "data.bin") 600000 (Some (js "x")) in
  passes_checks [js "node_modules"] [js ".png"] (js "proj/src/app.ts")
    (js "app.ts") 120 (js "let x;").
Proof.
  intros src big.
  refine (proj2 (processFiles_sound (fun _ _ => 0) [big; src]
                   [js "node_modules"] [js ".png"]
                   (entry_of src (js "let x;")) _)).
  vm_compute. by left.
Defined.

Lemma insert_entry_HdRel localeCompare (x y : FileEntry.t)
    (sorted : list FileEntry.t) :
  path_order localeCompare y x ->
  HdRel (path_order localeCompare) y sorted ->
  HdRel (path_order localeCompare) y (insert_entry localeCompare x sorted).
Proof.
  intros Hyx Hhd. destruct Hhd as [|z rest Hz]; simpl; [by constructor|].
  destruct (localeCompare _ _ >? 0); by constructor.
Qed.

Lemma insert_entry_Sorted localeCompare (x : FileEntry.t)
    (sorted : list FileEntry.t) :
  total_compare localeCompare ->
  Sorted (path_order localeCompare) sorted ->
  Sorted (path_order localeCompare) (insert_entry localeCompare x sorted).
Proof.
  intros Htotal Hs. induction Hs as [|y rest Hrest IH Hhd]; simpl.
  - by repeat constructor.
  - destruct (localeCompare (FileEntry.path x) (FileEntry.path y) >? 0) eqn:E.
    + constructor; [done|]. apply insert_entry_HdRel; [|done].
      unfold path_order. apply Z.gtb_gt in E.
      destruct (Htotal (FileEntry.path x) (FileEntry.path y)); lia.
    + constructor; [by constructor|]. constructor. unfold path_order.
      rewrite Z.gtb_ltb in E. by apply Z.ltb_ge in E.
Qed.

(** Inserting an entry moves it past entries it compares greater than
    only, so it stays in front of every entry of a set of ties. *)
Lemma insert_entry_ties localeCompare (tie : jsstring -> bool)
    (x : FileEntry.t) (sorted : list FileEntry.t) :
  (forall a b, tie a = true -> tie b = true -> localeCompare a b <= 0) ->
  List.filter (fun e => tie (FileEntry.path e))
    (insert_entry localeCompare x sorted)
  = List.filter (fun e => tie (FileEntry.path e)) (x :: sorted).
Proof.
  intros Htie. induction sorted as [|y rest IH]; [done|].
  cbn [insert_entry].
  destruct (localeCompare (FileEntry.path x) (FileEntry.path y) >? 0) eqn:E;
    [|done].
  apply Z.gtb_gt in E. cbn [List.filter] in *. rewrite IH.
  destruct (tie (FileEntry.path x)) eqn:Hx; [|done].
  destruct (tie (FileEntry.path y)) eqn:Hy; [|done].
  specialize (Htie _ _ Hx Hy). lia.
Qed.

(** X15: the output is sorted and ties keep their order.  When the
    comparator orders any two paths one way or the other, each entry of the
    output is followed by an entry whose path does not compare lower; and
    for any set of paths that compare at most equal to each other, the
    entries with these paths come out in the order in which the loop pushed
    them. *)
Theorem processFiles_sorted
    (localeCompare : jsstring -> jsstring -> Z) (fileList : list File.t)
    (ignorePatterns ignoreExtensions : list jsstring) :
  total_compare localeCompare ->
  Sorted (path_order localeCompare)
    (processFiles localeCompare fileList ignorePatterns ignoreExtensions)
  /\ forall tie : jsstring -> bool,
       (forall a b, tie a = true -> tie b = true -> localeCompare a b <= 0) ->
       List.filter (fun e => tie (FileEntry.path e))
         (processFiles localeCompare fileList ignorePatterns ignoreExtensions)
       = List.filter (fun e => tie (FileEntry.path e))
           (omap (processFile ignorePatterns ignoreExtensions) fileList).
Proof.
  intros Htotal. unfold processFiles.
  generalize (omap (processFile ignorePatterns ignoreExtensions) fileList).
  intros entries. split.
  - induction entries as [|x entries IH]; simpl; [constructor|].
    by apply insert_entry_Sorted.
  - intros tie Htie. induction entries as [|x entries IH]; [done|].
    cbn [sort_entries foldr]. fold (sort_entries localeCompare entries).
    rewrite insert_entry_ties by done. cbn [List.filter]. by rewrite IH.
Qed.

Lemma processFiles_sorted_witness :
  let by_length := fun a b : jsstring => jslen a - jslen b in
  let two := fun p : jsstring => jslen p =? 2 in
  let fileList := [File.mk (js "bb") (js "bb") 1 (Some (js "x"));
                   File.mk (js "a") (js "a") 1 (Some (js "y"));
                   File.mk (js "cc") (js "cc") 1 (Some (js "z"))] in
  map FileEntry.path (processFiles by_length fileList [] [])
  = [js "a"; js "bb"; js "cc"]
  /\ Sorted (path_order by_length) (processFiles by_length fileList [] [])
  /\ List.filter (fun e => two (FileEntry.path e))
       (processFiles by_length fileList [] [])
     = List.filter (fun e => two (FileEntry.path e))
         (omap (processFile [] []) fileList).
Proof.
  intros by_length two fileList. split; [reflexivity|].
  assert (total_compare by_length) as Htotal
    by (intros a b; unfold by_length; lia).
  destruct (processFiles_sorted by_length fileList [] [] Htotal)
    as [Hsorted Hties].
  split; [exact Hsorted|]. apply Hties.
  intros a b Ha%Z.eqb_eq Hb%Z.eqb_eq. unfold by_length. lia.
Defined.

(** X16: a file that fails is left out and nothing else changes: the output
    for a list with a file that is unreadable or fails a check is the output
    for the list without it. *)
Theorem processFiles_skips
    (localeCompare : jsstring -> jsstring -> Z) (before after : list File.t)
    (file : File.t) (ignorePatterns ignoreExtensions : list jsstring) :
  File.text file = None
  \/ matchesAnyPattern (path_of file) ignorePatterns = true
  \/ hasIgnoredExtension (File.name file) ignoreExtensions = true
  \/ File.size file > 500 * 1024 ->
  processFiles localeCompare (before ++ file :: after)
    ignorePatterns ignoreExtensions
  = processFiles localeCompare (before ++ after) ignorePatterns ignoreExtensions.
Proof.
  intros Hfail. unfold processFiles. f_equal.
  rewrite !omap_app. f_equal. simpl.
  assert (processFile ignorePatterns ignoreExtensions file = None) as ->; [|done].
  unfold processFile, MAX_FILE_SIZE.
  destruct Hfail as [Ht | [-> | [Hx | Hs]]]; [|done| |].
  - rewrite Ht. destruct (matchesAnyPattern _ _); [done|].
    destruct (hasIgnoredExtension _ _); [done|]. by destruct (_ >? _).
  - rewrite Hx. by destruct (matchesAnyPattern _ _).
  - assert ((File.size file >? 500 * 1024) = true) as -> by by apply Z.gtb_gt.
    destruct (matchesAnyPattern _ _); [done|].
    by destruct (hasIgnoredExtension _ _).
Qed.

Lemma processFiles_skips_witness :
  let src := File.mk (js "proj/src/app.ts") (js "app.ts") 120 (Some (js "let x;")) in
  let bad := File.mk (js "proj/locked") (js "locked") 10 None in
  processFiles (fun _ _ => 0) ([src] ++ bad :: []) [] []
  = processFiles (fun _ _ => 0) ([src] ++ []) [] [].
Proof.
  intros src bad. apply processFiles_skips. by left.
Defined.
(** ** Further properties of the bundle selector *)

Lemma find_first {A} (f : A -> bool) (pre post : list A) (x : A) :
  (forall y, y ∈ pre -> f y = false) -> f x = true ->
  List.find f (pre ++ x :: post) = Some x.
Proof.
  intros Hpre Hx. induction pre as [|y pre IH]; simpl.
  - by rewrite Hx.
  - rewrite (Hpre y) by by left. apply IH. intros z Hz. apply Hpre. by right.
Qed.

(** X17: the first bundle with the active id is the one applied.  For an
    active id other than ["all"], the selection keeps exactly the files
    whose path matches a pattern of the first bundle that carries the id;
    later bundles with the same id play no role. *)
Theorem filteredFiles_first_bundle
    (files : list FileEntry.t) (pre post : list Bundle.t) (bundle : Bundle.t)
    (activeBundleId : jsstring) (f : FileEntry.t) :
  activeBundleId <> js "all" ->
  (forall b, b ∈ pre -> Bundle.id b <> activeBundleId) ->
  Bundle.id bundle = activeBundleId ->
  f ∈ filteredFiles files (pre ++ bundle :: post) activeBundleId <->
  f ∈ files
  /\ matchesAnyPattern (FileEntry.path f) (Bundle.patterns bundle) = true.
Proof.
  intros Hall Hpre Hid. unfold filteredFiles.
  apply str_eqb_neq in Hall. rewrite Hall.
  rewrite (find_first _ pre post bundle).
  - rewrite !list_elem_of_In. apply filter_In.
  - intros b Hb. apply str_eqb_neq. by apply Hpre.
  - by apply str_eqb_eq.
Qed.

Lemma filteredFiles_first_bundle_witness :
  let vite := FileEntry.mk (js "vite.config.ts") (js "vite.config.ts") (js "x") 1
                (js "ts") in
  let app := FileEntry.mk (js "src/app.ts") (js "app.ts") (js "y") 1 (js "ts") in
  let cfg := Bundle.mk (js "cfg") (js "Config") [js "*.config.*"] in
  let dup := Bundle.mk (js "cfg") (js "Other") [js "src/*"] in
  vite ∈ filteredFiles [vite; app] ([] ++ cfg :: [dup]) (js "cfg") <->
  vite ∈ [vite; app]
  /\ matchesAnyPattern (FileEntry.path vite) (Bundle.patterns cfg) = true.
Proof.
  intros vite app cfg dup.
  apply (filteredFiles_first_bundle [vite; app] [] [dup] cfg (js "cfg") vite).
  - discriminate.
  - intros b Hb. by apply elem_of_nil in Hb.
  - reflexivity.
Defined.

Lemma filter_sublist {A} (f : A -> bool) (l : list A) :
  List.filter f l `sublist_of` l.
Proof.
  induction l as [|x l IH]; simpl; [done|].
  destruct (f x); [by apply sublist_skip | by apply sublist_cons].
Qed.

Lemma filter_idemp {A} (f : A -> bool) (l : list A) :
  List.filter f (List.filter f l) = List.filter f l.
Proof.
  induction l as [|x l IH]; simpl; [done|].
  destruct (f x) eqn:E; simpl; [by rewrite E, IH | done].
Qed.

(** X18: a selection only takes files away, and selecting twice is
    selecting once.  Whatever the bundles and the active id, the selected
    files are files of the set in their order, and applying the selection
    to its own result changes nothing. *)
Theorem filteredFiles_selection
    (files : list FileEntry.t) (bundles : list Bundle.t) (activeBundleId : jsstring) :
  filteredFiles files bundles activeBundleId `sublist_of` files
  /\ filteredFiles (filteredFiles files bundles activeBundleId) bundles
       activeBundleId
     = filteredFiles files bundles activeBundleId.
Proof.
  unfold filteredFiles. destruct (str_eqb activeBundleId (js "all")); [done|].
  destruct (List.find _ bundles) as [bundle|]; [|done].
  split; [apply filter_sublist | apply filter_idemp].
Qed.

(** ** The token estimate *)

(** X19: the estimate and the limit agree.  A text is estimated at no more
    than [maxTokens] tokens exactly when it holds no more than
    [maxTokens * 4] units, the limit the packer derives from the budget;
    and the estimate is the least number of tokens that covers the text at
    4 units per token. *)
Theorem estimateTokens_limit (text : jsstring) (maxTokens : Z) :
  (estimateTokens text <= maxTokens <-> jslen text <= maxTokens * 4)
  /\ jslen text <= estimateTokens text * 4 < jslen text + 4.
Proof.
  unfold estimateTokens.
  pose proof (Z.div_mod (jslen text + 3) 4 ltac:(lia)) as Hdiv.
  pose proof (Z.mod_pos_bound (jslen text + 3) 4 ltac:(lia)) as Hmod.
  split; [split|]; lia.
Qed.

(** ** Path resolution *)

Lemma set_has_elem (allPaths : list jsstring) (p : jsstring) :
  set_has allPaths p = true <-> p ∈ allPaths.
Proof. apply existsb_str_eqb. Qed.

Lemma first_candidate_sound allPaths base exts t :
  first_candidate allPaths base exts = Some t -> t ∈ allPaths.
Proof.
  induction exts as [|ext exts IH]; simpl; [done|].
  destruct (set_has allPaths (base ++ ext)) eqn:E; [|done].
  intros [= <-]. by apply set_has_elem.
Qed.

Lemma root_candidate_sound allPaths normalized exts t :
  root_candidate allPaths normalized exts = Some t -> t ∈ allPaths.
Proof.
  induction exts as [|ext exts IH]; cbn [root_candidate]; [done|].
  destruct (set_has allPaths (normalized ++ ext)) eqn:E1.
  { intros [= <-]. by apply set_has_elem. }
  destruct (set_has allPaths (js "src/" ++ normalized ++ ext)) eqn:E2; [|done].
  intros [= <-]. by apply set_has_elem.
Qed.

(** X20: resolution never invents a path.  A resolved target is a path of
    the set; an import that is itself a path of the set resolves to itself
    whatever the importing file; so a resolved target resolves to itself. *)
Theorem resolvePath_sound (currentPath importPath : jsstring)
    (allPaths : list jsstring) :
  (forall t, resolvePath currentPath importPath allPaths = Some t ->
             t ∈ allPaths
             /\ forall other, resolvePath other t allPaths = Some t)
  /\ (importPath ∈ allPaths ->
      resolvePath currentPath importPath allPaths = Some importPath).
Proof.
  assert (forall cur p, p ∈ allPaths -> resolvePath cur p allPaths = Some p)
    as Hdirect.
  { intros cur p Hp%set_has_elem. unfold resolvePath. by rewrite Hp. }
  split; [|apply Hdirect].
  intros t Hres.
  assert (t ∈ allPaths) as Ht.
  { unfold resolvePath in Hres.
    destruct (set_has allPaths importPath) eqn:E.
    { injection Hres as <-. by apply set_has_elem. }
    destruct (startsWith importPath (js ".")).
    - destruct (first_candidate _ _ _) as [c|] eqn:Ec.
      + injection Hres as <-. by apply first_candidate_sound in Ec.
      + by apply root_candidate_sound in Hres.
    - by apply root_candidate_sound in Hres. }
  split; [done|]. intros other. by apply Hdirect.
Qed.

Lemma resolvePath_sound_witness :
  resolvePath (js "src/components/App.tsx") (js "../utils/helper")
    [js "src/components/App.tsx"; js "src/utils/helper.ts"]
  = Some (js "src/utils/helper.ts")
  /\ js "src/utils/helper.ts"
     ∈ [js "src/components/App.tsx"; js "src/utils/helper.ts"].
Proof.
  split; [reflexivity|].
  apply (proj1 (resolvePath_sound (js "src/components/App.tsx")
                  (js "../utils/helper")
                  [js "src/components/App.tsx"; js "src/utils/helper.ts"])
           (js "src/utils/helper.ts")).
  reflexivity.
Defined.
Lemma split_on_no_sep (sep : ascii) (s : jsstring) :
  sep ∉ s -> split_on sep s = [s].
Proof.
  induction s as [|c s IH]; intros Hnone; [done|].
  simpl. destruct (Ascii.eqb_spec c sep) as [->|Hc].
  - destruct Hnone. by left.
  - rewrite IH; [done|]. intros Hin. apply Hnone. by right.
Qed.

Lemma split_on_inhabited (sep : ascii) (s : jsstring) : split_on sep s <> [].
Proof.
  destruct s as [|c s]; simpl; [done|].
  destruct (Ascii.eqb c sep); [done|]. by destruct (split_on sep s).
Qed.

Lemma split_on_app (sep : ascii) (dir file : jsstring) :
  sep ∉ file ->
  split_on sep (dir ++ sep :: file) = split_on sep dir ++ [file].
Proof.
  intros Hnone. induction dir as [|c dir IH]; simpl.
  - by rewrite Ascii.eqb_refl, split_on_no_sep.
  - rewrite IH. destruct (Ascii.eqb c sep); [done|].
    pose proof (split_on_inhabited sep dir) as Hne.
    by destruct (split_on sep dir).
Qed.

Lemma join_snoc (sep : jsstring) (parts : list jsstring) (x : jsstring) :
  parts <> [] -> join sep (parts ++ [x]) = join sep parts ++ sep ++ x.
Proof.
  induction parts as [|p parts IH]; [done|]. intros _.
  destruct parts as [|q parts]; [done|].
  change (join sep ((p :: q :: parts) ++ [x]))
    with (p ++ sep ++ join sep ((q :: parts) ++ [x])).
  rewrite IH by done.
  change (join sep (p :: q :: parts)) with (p ++ sep ++ join sep (q :: parts)).
  by rewrite <- !app_assoc.
Qed.

(** Splitting at a separator and joining with it gives the string back. *)
Lemma join_split_on (sep : ascii) (s : jsstring) :
  join [sep] (split_on sep s) = s.
Proof.
  induction s as [|c s IH]; [done|]. simpl split_on.
  pose proof (split_on_inhabited sep s) as Hne.
  destruct (Ascii.eqb_spec c sep) as [->|Hc].
  - destruct (split_on sep s) as [|seg segs]; [done|].
    change (join [sep] ([] :: seg :: segs)) with (sep :: join [sep] (seg :: segs)).
    by rewrite IH.
  - destruct (split_on sep s) as [|seg segs]; [done|].
    destruct segs as [|seg' segs]; simpl in *; by rewrite <- IH.
Qed.

Lemma removelast_snoc {A} (l : list A) (x : A) : removelast (l ++ [x]) = l.
Proof. by rewrite removelast_app, app_nil_r. Qed.

Lemma walk_parts_push (cur : list jsstring) (name : jsstring) :
  name <> js "." -> name <> js ".." -> walk_parts cur [name] = cur ++ [name].
Proof.
  intros H1%str_eqb_neq H2%str_eqb_neq. unfold walk_parts. cbn [foldl].
  by rewrite H1, H2.
Qed.

(** X21: how a relative import is resolved.  For a file [dir/file], [./name]
    is resolved to [dir/name] and, one directory deeper, [../name] to the
    same; from a file outside any directory, [../name] cannot climb and is
    resolved to [name]. *)
Theorem relative_base_resolution (dir sub file name : jsstring) :
  "/"%char ∉ file -> "/"%char ∉ sub -> "/"%char ∉ name ->
  name <> js "." -> name <> js ".." ->
  relative_base (dir ++ js "/" ++ file) (js "./" ++ name)
  = dir ++ js "/" ++ name
  /\ relative_base (dir ++ js "/" ++ sub ++ js "/" ++ file) (js "../" ++ name)
     = dir ++ js "/" ++ name
  /\ relative_base file (js "../" ++ name) = name.
Proof.
  intros Hfile Hsub Hname Hdot Hdots. unfold relative_base.
  assert (split_on "/" (js "./" ++ name) = [js "."; name]) as Hhere.
  { change (js "./" ++ name) with (js "." ++ "/"%char :: name).
    by rewrite split_on_app. }
  assert (split_on "/" (js "../" ++ name) = [js ".."; name]) as Hup.
  { change (js "../" ++ name) with (js ".." ++ "/"%char :: name).
    by rewrite split_on_app. }
  pose proof (split_on_inhabited "/" dir) as Hdir.
  repeat split.
  - rewrite Hhere. change (dir ++ js "/" ++ file) with (dir ++ "/"%char :: file).
    rewrite split_on_app, removelast_snoc by done.
    change (walk_parts (split_on "/" dir) [js "."; name])
      with (walk_parts (split_on "/" dir) [name]).
    rewrite walk_parts_push, join_snoc by done.
    change (js "/") with ["/"%char]. by rewrite join_split_on.
  - rewrite Hup.
    change (dir ++ js "/" ++ sub ++ js "/" ++ file)
      with (dir ++ "/"%char :: sub ++ "/"%char :: file).
    rewrite (app_comm_cons sub), app_assoc, split_on_app, removelast_snoc by done.
    rewrite split_on_app by done.
    change (walk_parts (split_on "/" dir ++ [sub]) [js ".."; name])
      with (walk_parts (removelast (split_on "/" dir ++ [sub])) [name]).
    rewrite removelast_snoc, walk_parts_push, join_snoc by done.
    change (js "/") with ["/"%char]. by rewrite join_split_on.
  - rewrite Hup, split_on_no_sep by done.
    change (walk_parts (removelast [file]) [js ".."; name])
      with (walk_parts [] [name]).
    by rewrite walk_parts_push.
Qed.

Lemma relative_base_resolution_witness :
  relative_base (js "src/components/App.tsx") (js "./Button") = js "src/components/Button"
  /\ relative_base (js "src/components/App.tsx") (js "../utils") = js "src/utils"
  /\ relative_base (js "App.tsx") (js "../utils") = js "utils".
Proof.
  split; [|split].
  - refine (proj1 (relative_base_resolution (js "src/components") (js "x")
                     (js "App.tsx") (js "Button") _ _ _ _ _));
      try discriminate; rewrite list_elem_of_In; simpl; intuition discriminate.
  - refine (proj1 (proj2 (relative_base_resolution (js "src") (js "components")
                            (js "App.tsx") (js "utils") _ _ _ _ _)));
      try discriminate; rewrite list_elem_of_In; simpl; intuition discriminate.
  - refine (proj2 (proj2 (relative_base_resolution (js "src") (js "components")
                            (js "App.tsx") (js "utils") _ _ _ _ _)));
      try discriminate; rewrite list_elem_of_In; simpl; intuition discriminate.
Defined.

(** ** The renderer *)

Lemma json_unescape_escape (c : ascii) (r : jsstring) :
  json_unescape_head (json_escape c ++ r) = Some (c, r).
Proof. destruct c as [[] [] [] [] [] [] [] []]; reflexivity. Qed.

Lemma json_escape_head (c : ascii) (r : jsstring) :
  head (json_escape c ++ r) <> Some dquote.
Proof. destruct c as [[] [] [] [] [] [] [] []]; discriminate. Qed.

Lemma quoted_delimited (s t r1 r2 : jsstring) :
  flat_map json_escape s ++ dquote :: r1
  = flat_map json_escape t ++ dquote :: r2 ->
  s = t /\ r1 = r2.
Proof.
  revert t. induction s as [|c s IH]; intros [|d t] E; simpl in E.
  - by injection E as ->.
  - apply (f_equal head) in E. rewrite <- app_assoc in E.
    exfalso.
    apply (json_escape_head d (flat_map json_escape t ++ dquote :: r2)).
    by rewrite <- E.
  - apply (f_equal head) in E. rewrite <- app_assoc in E.
    exfalso.
    apply (json_escape_head c (flat_map json_escape s ++ dquote :: r1)).
    by rewrite E.
  - apply (f_equal json_unescape_head) in E.
    rewrite <- !app_assoc, !json_unescape_escape in E.
    injection E as -> E. destruct (IH _ E) as [-> ->]. done.
Qed.

Lemma quoteJSON_delimited (s t r1 r2 : jsstring) :
  quoteJSON s ++ r1 = quoteJSON t ++ r2 -> s = t /\ r1 = r2.
Proof.
  unfold quoteJSON. rewrite <- !app_assoc. simpl. intros E.
  injection E as E. by apply quoted_delimited.
Qed.

Lemma string_of_uint_numeric (d : Decimal.uint) :
  Forall (fun c => numeric c = true /\ c <> "-"%char)
    (js (NilEmpty.string_of_uint d)).
Proof.
  induction d; simpl; constructor; try done.
Qed.

Lemma str_of_nat_numeric (n : nat) :
  Forall (fun c => numeric c = true /\ c <> "-"%char) (str_of_nat n).
Proof.
  unfold str_of_nat, NilZero.string_of_uint.
  destruct (Nat.to_uint n) eqn:E; rewrite <- ?E;
    try apply string_of_uint_numeric.
  by repeat constructor.
Qed.

Lemma str_of_nat_inhabited (n : nat) : str_of_nat n <> [].
Proof.
  unfold str_of_nat, NilZero.string_of_uint.
  by destruct (Nat.to_uint n).
Qed.

Lemma to_uint_nonnil (n : nat) : Nat.to_uint n <> Decimal.Nil.
Proof.
  rewrite <- (DecimalNat.Unsigned.of_to n) at 1.
  rewrite DecimalNat.Unsigned.to_of. apply DecimalFacts.unorm_nonnil.
Qed.

Lemma str_of_nat_inj (a b : nat) : str_of_nat a = str_of_nat b -> a = b.
Proof.
  unfold str_of_nat, js. intros E.
  apply (f_equal string_of_list_ascii) in E.
  rewrite !string_of_list_ascii_of_string in E.
  apply (f_equal NilZero.uint_of_string) in E.
  rewrite !NilZero.usu in E by apply to_uint_nonnil.
  injection E as E. by apply DecimalNat.Unsigned.to_uint_inj.
Qed.

Lemma str_of_Z_numeric (z : Z) : Forall (fun c => numeric c = true) (str_of_Z z).
Proof.
  unfold str_of_Z.
  destruct (z <? 0); [constructor; [done|]|];
    (eapply Forall_impl; [apply str_of_nat_numeric|]); by intros c [].
Qed.

Lemma str_of_Z_inj (a b : Z) : str_of_Z a = str_of_Z b -> a = b.
Proof.
  unfold str_of_Z.
  destruct (Z.ltb_spec a 0), (Z.ltb_spec b 0); intros E.
  - simpl in E. injection E as E. apply str_of_nat_inj in E. lia.
  - pose proof (str_of_nat_numeric (Z.to_nat b)) as Hb.
    rewrite <- E in Hb. simpl in Hb. apply Forall_cons in Hb as [[_ []] _]. done.
  - pose proof (str_of_nat_numeric (Z.to_nat a)) as Ha.
    rewrite E in Ha. simpl in Ha. apply Forall_cons in Ha as [[_ []] _]. done.
  - apply str_of_nat_inj in E. lia.
Qed.

Lemma run_delimited {A} (P : A -> Prop) (a b r1 r2 : list A) (x y : A) :
  Forall P a -> Forall P b -> ~ P x -> ~ P y ->
  a ++ x :: r1 = b ++ y :: r2 -> a = b /\ x :: r1 = y :: r2.
Proof.
  intros Ha. revert b. induction Ha as [|c a Hc Ha IH]; intros b Hb Hx Hy E.
  - destruct Hb as [|d b Hd Hb]; [done|].
    simpl in E. injection E as -> _. done.
  - destruct Hb as [|d b Hd Hb].
    + simpl in E. injection E as -> _. done.
    + simpl in E. injection E as -> E.
      destruct (IH b Hb Hx Hy E) as [-> ?]. done.
Qed.

Lemma str_of_Z_delimited (a b : Z) (x y : ascii) (r1 r2 : jsstring) :
  numeric x = false -> numeric y = false ->
  str_of_Z a ++ x :: r1 = str_of_Z b ++ y :: r2 ->
  a = b /\ x :: r1 = y :: r2.
Proof.
  intros Hx Hy E.
  apply (run_delimited (fun c => numeric c = true)) in E as [E ?];
    try apply str_of_Z_numeric; try congruence.
  split; [by apply str_of_Z_inj | done].
Qed.

Ltac eval_escapes :=
  repeat match goal with
         | |- context [json_escape ?c] =>
             let v := eval vm_compute in (json_escape c) in
             change (json_escape c) with v
         end.

Ltac flatten_text := repeat (progress (rewrite <- ?app_assoc; cbn)).

Ltac strip E := repeat (injection E as E).

Lemma json_file_delimited (f g : ChunkFileEntry.t) (r1 r2 : jsstring) :
  stringify (js "    ") (json_file f) ++ r1
  = stringify (js "    ") (json_file g) ++ r2 ->
  json_view f = json_view g /\ r1 = r2.
Proof.
  unfold json_file, json_view.
  destruct (ChunkFileEntry.isSplit f), (ChunkFileEntry.isSplit g); cbn.
  all: eval_escapes; flatten_text; intros E; strip E.
  all: apply quoted_delimited in E as [-> E]; strip E.
  all: apply quoted_delimited in E as [-> E]; strip E; try discriminate E.
  - apply str_of_Z_delimited in E as [-> E]; [|done..]. strip E.
    apply str_of_Z_delimited in E as [-> E]; [|done..]. strip E.
    by subst.
  - by subst.
Qed.

Lemma join_cons_cons (sep p q : jsstring) (ps : list jsstring) :
  join sep (p :: q :: ps) = p ++ sep ++ join sep (q :: ps).
Proof. reflexivity. Qed.

Lemma json_files_delimited (fs gs : list ChunkFileEntry.t) (r1 r2 : jsstring) :
  fs <> [] -> gs <> [] ->
  join (js "," ++ [newline] ++ js "    ")
    (map (stringify (js "    ")) (map json_file fs)) ++ newline :: r1
  = join (js "," ++ [newline] ++ js "    ")
      (map (stringify (js "    ")) (map json_file gs)) ++ newline :: r2 ->
  map json_view fs = map json_view gs /\ r1 = r2.
Proof.
  revert gs. induction fs as [|f fs IH]; intros gs Hf Hg E; [done|].
  destruct gs as [|g gs]; [done|].
  destruct fs as [|f' fs], gs as [|g' gs]; rewrite ?map_cons in E;
    rewrite ?join_cons_cons in E; rewrite <- ?app_assoc in E.
  - apply json_file_delimited in E as [Hv E]. injection E as ->.
    split; [|done]. cbn [map]. by f_equal.
  - apply json_file_delimited in E as [_ E]. discriminate E.
  - apply json_file_delimited in E as [_ E]. discriminate E.
  - apply json_file_delimited in E as [Hv E].
    do 3 apply app_inv_head in E. apply (IH (g' :: gs)) in E as [E ->]; [|done..].
    split; [|done]. rewrite (map_cons _ f), (map_cons _ g). by f_equal.
Qed.

Lemma stringify_array (indent : jsstring) (items : list jvalue) :
  items <> [] ->
  stringify indent (JArr items)
  = js "[" ++ [newline] ++ (indent ++ js "  ")
    ++ join (js "," ++ [newline] ++ indent ++ js "  ")
         (map (stringify (indent ++ js "  ")) items)
    ++ [newline] ++ indent ++ js "]".
Proof. by destruct items. Qed.

(** X22: the JSON form keeps the files apart.  Two lists of files that
    render, for the same part numbers, as the same JSON text show the same
    paths, the same contents and the same split numbers, file by file. *)
Theorem generateContent_json_injective (fs gs : list ChunkFileEntry.t)
    (part totalParts : option Z) :
  generateContent JSON fs part totalParts
  = generateContent JSON gs part totalParts ->
  map json_view fs = map json_view gs.
Proof.
  unfold generateContent, json_data.
  destruct fs as [|f fs], gs as [|g gs]; [done| | |].
  1,2: destruct (num_truthy part); cbn; discriminate.
  cbn [length Nat.eqb].
  assert (map json_file (f :: fs) <> []) as Hf by done.
  assert (map json_file (g :: gs) <> []) as Hg by done.
  remember (f :: fs) as fl. remember (g :: gs) as gl.
  remember (JArr (map json_file fl)) as A.
  remember (JArr (map json_file gl)) as B.
  intros E.
  assert (stringify (js "  ") A ++ newline :: js "}"
          = stringify (js "  ") B ++ newline :: js "}") as E'.
  { revert E. destruct (num_truthy part), part as [p|], totalParts as [t|];
      cbn; eval_escapes; flatten_text; intros E; strip E; try done.
    all: repeat (first [apply app_inv_head in E | injection E as E]); done. }
  subst A B. rewrite !stringify_array in E' by done.
  revert E'. flatten_text. intros E'. strip E'.
  apply json_files_delimited in E' as [E' _]; subst; done.
Qed.

Lemma generateContent_json_injective_witness :
  let f := ChunkFileEntry.mk (js "src/a.ts#2") (js "a.ts") (js "let x;") 6
             (js "ts") (js "src/a.ts") true 2 3 in
  let g := ChunkFileEntry.mk (js "src/a.ts") (js "other") (js "let x;") 60
             (js "tsx") (js "src/a.ts") true 2 3 in
  map json_view [f] = map json_view [g].
Proof.
  intros f g.
  apply (generateContent_json_injective [f] [g] (Some 1) (Some 4)).
  reflexivity.
Defined.

Lemma xml_file_breakout (f1 f2 : ChunkFileEntry.t) :
  xml_file (ChunkFileEntry.with_content f1
              (ChunkFileEntry.content f1 ++ xml_breakout f2
               ++ ChunkFileEntry.content f2)
              (ChunkFileEntry.partIndex f1))
  = xml_file f1 ++ [newline] ++ xml_file f2.
Proof.
  unfold xml_file, xml_breakout, xml_split_attr. destruct f1.
  cbn [ChunkFileEntry.with_content ChunkFileEntry.content
       ChunkFileEntry.originalPath ChunkFileEntry.isSplit
       ChunkFileEntry.partIndex ChunkFileEntry.totalParts].
  by rewrite <- !app_assoc.
Qed.

Lemma md_file_breakout (f1 f2 : ChunkFileEntry.t) :
  md_file (ChunkFileEntry.with_content f1
             (ChunkFileEntry.content f1 ++ md_breakout f2
              ++ ChunkFileEntry.content f2)
             (ChunkFileEntry.partIndex f1))
  = md_file f1 ++ [newline; newline] ++ md_file f2.
Proof.
  unfold md_file, md_breakout, md_split_label. destruct f1.
  cbn [ChunkFileEntry.with_content ChunkFileEntry.content
       ChunkFileEntry.originalPath ChunkFileEntry.isSplit
       ChunkFileEntry.partIndex ChunkFileEntry.totalParts
       ChunkFileEntry.extension].
  by rewrite <- !app_assoc.
Qed.

(** X23: the XML and Markdown forms do not separate content from markup.
    A single file whose content closes its own element (or fence) and opens
    one for [f2] renders exactly as the two files [f1] and [f2], whatever
    the paths, the contents and the part numbers. *)
Theorem render_not_injective (f1 f2 : ChunkFileEntry.t) (part totalParts : option Z) :
  generateContent XML
    [ChunkFileEntry.with_content f1
       (ChunkFileEntry.content f1 ++ xml_breakout f2 ++ ChunkFileEntry.content f2)
       (ChunkFileEntry.partIndex f1)] part totalParts
  = generateContent XML [f1; f2] part totalParts
  /\ generateContent MARKDOWN
       [ChunkFileEntry.with_content f1
          (ChunkFileEntry.content f1 ++ md_breakout f2 ++ ChunkFileEntry.content f2)
          (ChunkFileEntry.partIndex f1)] part totalParts
     = generateContent MARKDOWN [f1; f2] part totalParts.
Proof.
  unfold generateContent, render_xml, render_markdown.
  cbn [length Nat.eqb map join].
  by rewrite xml_file_breakout, md_file_breakout.
Qed.

(** ** The rendered size against the accounted size *)

Lemma jslen_app (s t : jsstring) : jslen (s ++ t) = jslen s + jslen t.
Proof. unfold jslen. rewrite length_app. lia. Qed.

Lemma xml_file_length (f : ChunkFileEntry.t) :
  jslen (xml_file f)
  = 41 + jslen (ChunkFileEntry.originalPath f) + jslen (xml_split_attr f)
    + jslen (ChunkFileEntry.content f).
Proof.
  unfold xml_file. rewrite !jslen_app.
  change (jslen (js "  <file path=")) with 13.
  change (jslen [dquote]) with 1. change (jslen (js ">")) with 1.
  change (jslen [newline]) with 1. change (jslen (js "<![CDATA[")) with 9.
  change (jslen (js "]]>")) with 3. change (jslen (js "  </file>")) with 9.
  lia.
Qed.

Lemma xml_join_length (files : list ChunkFileEntry.t) :
  files <> [] ->
  jslen (join [newline] (map xml_file files)) + 1
  = foldr (fun f acc =>
             42 + jslen (ChunkFileEntry.originalPath f) + jslen (xml_split_attr f)
             + jslen (ChunkFileEntry.content f) + acc) 0 files.
Proof.
  induction files as [|f files IH]; [done|]. intros _.
  destruct files as [|g files].
  - cbn [map join foldr]. rewrite xml_file_length. lia.
  - change (join [newline] (map xml_file (f :: g :: files)))
      with (xml_file f ++ [newline] ++ join [newline] (map xml_file (g :: files))).
    cbn [foldr] in *. rewrite !jslen_app, xml_file_length.
    change (jslen [newline]) with 1. specialize (IH ltac:(done)). lia.
Qed.

Lemma render_xml_length (files : list ChunkFileEntry.t)
    (part totalParts : option Z) :
  files <> [] ->
  jslen (generateContent XML files part totalParts)
  = 36 + jslen (xml_part_attr part totalParts)
    + foldr (fun f acc =>
               42 + jslen (ChunkFileEntry.originalPath f)
               + jslen (xml_split_attr f)
               + jslen (ChunkFileEntry.content f) + acc) 0 files.
Proof.
  intros Hne. unfold generateContent.
  destruct files as [|f0 files0] eqn:E; [done|]. rewrite <- E in *.
  assert ((length files =? 0)%nat = false) as -> by by rewrite E.
  unfold render_xml. rewrite !jslen_app.
  change (jslen (js "<project_context")) with 16.
  change (jslen (js ">")) with 1. change (jslen [newline]) with 1.
  change (jslen (js "</project_context>")) with 18.
  pose proof (xml_join_length files Hne) as Hjoin. lia.
Qed.

Lemma xml_markup_covered (files : list ChunkFileEntry.t) :
  Forall (fun f => jslen (ChunkFileEntry.originalPath f)
                   + jslen (xml_split_attr f) <= 158) files ->
  foldr (fun f acc =>
           42 + jslen (ChunkFileEntry.originalPath f) + jslen (xml_split_attr f)
           + jslen (ChunkFileEntry.content f) + acc) 0 files + 100
  <= accounted_size files.
Proof.
  unfold accounted_size, PER_FILE_OVERHEAD, CHUNK_OVERHEAD.
  induction 1 as [|f files Hf _ IH]; [simpl; lia|].
  rewrite fmap_cons. cbn [foldr]. lia.
Qed.

(** X24: when the overheads cover the XML markup.  If the part attribute
    of the chunk takes at most 64 units and, for every file, the path and
    the split attribute together take at most 158, then the XML rendering of
    a non-empty chunk is no longer than the size the packer accounts for
    it. *)
Theorem render_xml_within_accounted (files : list ChunkFileEntry.t)
    (part totalParts : option Z) :
  files <> [] ->
  jslen (xml_part_attr part totalParts) <= 64 ->
  Forall (fun f => jslen (ChunkFileEntry.originalPath f)
                   + jslen (xml_split_attr f) <= 158) files ->
  jslen (generateContent XML files part totalParts) <= accounted_size files.
Proof.
  intros Hne Hattr Hpaths.
  rewrite render_xml_length by done.
  pose proof (xml_markup_covered files Hpaths). lia.
Qed.

Lemma render_xml_within_accounted_witness :
  let p := ChunkFileEntry.mk (js "src/app.ts") (js "app.ts") (js "let x;") 6
             (js "ts") (js "src/app.ts") true 2 3 in
  jslen (generateContent XML [p] (Some 1) (Some 3)) = 150
  /\ accounted_size [p] = 306
  /\ jslen (generateContent XML [p] (Some 1) (Some 3)) <= accounted_size [p].
Proof.
  intros p. split; [reflexivity|]. split; [reflexivity|].
  apply render_xml_within_accounted.
  - discriminate.
  - vm_compute. discriminate.
  - repeat constructor. vm_compute. discriminate.
Defined.

Lemma emitted_chunk_Forall (P : ChunkFileEntry.t -> Prop) (cs : list Chunk.t)
    (c : Chunk.t) :
  c ∈ cs -> Forall P (emitted cs) -> Forall P (Chunk.files c).
Proof.
  unfold emitted. intros Hin Hall.
  apply list_elem_of_split in Hin as (l1 & l2 & ->).
  rewrite map_app, concat_app in Hall. simpl in Hall.
  by apply Forall_app in Hall as [_ [? _]%Forall_app].
Qed.

(** X25: the rendered XML chunks keep the budget up to one unit.  From 76
    tokens on, when the attributes and paths are as short as X24 asks, the
    XML content of every chunk of a run in splitting mode holds at most
    [maxTokens * 4 + 1] units. *)
Theorem chunks_xml_within_budget fuel (files : list FileEntry.t)
    (maxTokens : Z) (cs : list Chunk.t) :
  76 <= maxTokens ->
  chunks (generateContent XML) fuel files true maxTokens = Some cs ->
  (forall i : nat,
      (i < length cs)%nat ->
      jslen (xml_part_attr (Some (Z.of_nat (i + 1)))
               (Some (Z.of_nat (length cs)))) <= 64) ->
  Forall (fun p => jslen (ChunkFileEntry.originalPath p)
                   + jslen (xml_split_attr p) <= 158) (emitted cs) ->
  Forall (fun c => jslen (Chunk.content c) <= maxTokens * 4 + 1) cs.
Proof.
  intros Hbudget Hrun Hattr Hpaths.
  destruct files as [|f files].
  { injection Hrun as <-. constructor. }
  pose proof Hrun as (st & Hpack & Hrefs & Hcs)%chunks_splitting_state; [|done].
  assert (CHUNK_OVERHEAD + PER_FILE_OVERHEAD < maxTokens * 4) as Hroom
    by (unfold CHUNK_OVERHEAD, PER_FILE_OVERHEAD; lia).
  assert (size_inv (maxTokens * 4) st) as (_ & Hsize & Hle & Hchunks & _).
  { apply (pack_files_size_inv _ _ _ _ _ Hroom Hpack).
    unfold size_inv, CHUNK_OVERHEAD, PER_FILE_OVERHEAD. simpl.
    repeat split; try done. lia. }
  pose proof (final_chunks_inhabited st
                (pack_files_inhabited _ _ _ _ _ Hpack (Forall_nil_2 _))) as Hne.
  pose proof Hrefs as Hvalid. rewrite <- final_chunks_refs in Hvalid.
  apply flat_refs_valid in Hvalid.
  assert (Forall (fun ch => accounted_size (deref (heap st) (temp_files ch))
                            <= maxTokens * 4 + 1) (final_chunks st)) as Hacc.
  { unfold final_chunks, push_chunk.
    destruct (0 <? length (currentChunkFiles st))%nat; [|done].
    apply Forall_app. split; [done|]. constructor; [|done]. simpl.
    by rewrite <- Hsize. }
  apply Forall_lookup. intros i c Hc.
  assert (c ∈ cs) as Hin by by apply list_elem_of_lookup_2 in Hc.
  pose proof (emitted_chunk_Forall _ cs c Hin Hpaths) as Hcpaths.
  specialize (Hattr i (lookup_lt_Some _ _ _ Hc)).
  rewrite Hcs in Hc, Hattr. unfold render_chunks in Hc, Hattr.
  rewrite length_imap in Hattr. rewrite list_lookup_imap in Hc.
  destruct (final_chunks st !! i) as [ch|] eqn:Hch; [|done].
  simpl in Hc. injection Hc as <-. simpl in *.
  assert (ch ∈ final_chunks st) as Hchin by by apply list_elem_of_lookup_2 in Hch.
  rewrite Forall_forall in Hne, Hvalid, Hacc.
  rewrite render_xml_length.
  - pose proof (xml_markup_covered _ Hcpaths). specialize (Hacc ch Hchin). lia.
  - intros E. apply (f_equal length) in E.
    rewrite length_deref in E by by apply Hvalid.
    specialize (Hne ch Hchin). by destruct (temp_files ch).
Qed.

Lemma chunks_xml_within_budget_witness :
  let files :=
    [FileEntry.mk (js "a.txt") (js "a.txt")
       (js "abcd" ++ [newline] ++ js "efghijkl") 13 (js "txt")] in
  exists cs,
    chunks (generateContent XML) 40 files true 76 = Some cs
    /\ map (fun c => jslen (Chunk.content c)) cs = [144; 143; 143]
    /\ Forall (fun c => jslen (Chunk.content c) <= 76 * 4 + 1) cs.
Proof.
  intros files.
  assert (exists cs, chunks (generateContent XML) 40 files true 76 = Some cs
                     /\ map (fun c => jslen (Chunk.content c)) cs
                        = [144; 143; 143]
                     /\ length cs = 3%nat
                     /\ forallb (fun p => jslen (ChunkFileEntry.originalPath p)
                                   + jslen (xml_split_attr p) <=? 158)
                          (emitted cs) = true)
    as (cs & E & Hsizes & Hlen & Hpaths).
  { eexists. split; [vm_compute; reflexivity|]. repeat split; reflexivity. }
  exists cs. split; [exact E|]. split; [exact Hsizes|].
  apply (chunks_xml_within_budget 40 files 76 cs); [lia | exact E | |].
  - rewrite Hlen. intros i Hi.
    destruct i as [|[|[|i]]]; [vm_compute; discriminate.. | lia].
  - apply Forall_forall. intros p Hp. rewrite forallb_forall in Hpaths.
    apply Z.leb_le, Hpaths. by apply list_elem_of_In.
Defined.

(** ** The ASCII tree *)

Lemma TreeNode_induction (P : TreeNode.t -> Prop) :
  (forall name type children,
      Forall P children -> P (TreeNode.mk name type children)) ->
  forall node, P node.
Proof.
  intros H. fix IH 1. intros [n k cs]. apply H.
  induction cs as [|c cs IHcs]; constructor; [apply IH | exact IHcs].
Qed.

Lemma forest_induction (P : list TreeNode.t -> Prop) :
  (forall children,
      Forall (fun c => P (TreeNode.children c)) children -> P children) ->
  forall children, P children.
Proof.
  intros H cs. apply H.
  induction cs as [|c cs IHcs]; constructor; [|exact IHcs].
  induction c as [n k cs' IH] using TreeNode_induction. simpl.
  apply H. exact IH.
Qed.

Lemma find_find_or_push (part : jsstring) (type : TreeNode.kind)
    (descend : list TreeNode.t -> list TreeNode.t) (children : list TreeNode.t) :
  find (named part) (find_or_push part type descend children)
  = Some (match find (named part) children with
          | Some c => TreeNode.mk (TreeNode.name c) (TreeNode.type c)
                        (descend (TreeNode.children c))
          | None => TreeNode.mk part type (descend [])
          end).
Proof.
  induction children as [|c rest IH]; simpl.
  - unfold named at 1. simpl. by rewrite str_eqb_refl.
  - destruct (named part c) eqn:E; simpl.
    + unfold named at 1. simpl. unfold named in E. by rewrite E.
    + by rewrite E.
Qed.

Lemma find_find_or_push_other (part other : jsstring) (type : TreeNode.kind)
    (descend : list TreeNode.t -> list TreeNode.t) (children : list TreeNode.t) :
  other <> part ->
  find (named other) (find_or_push part type descend children)
  = find (named other) children.
Proof.
  intros Hne. induction children as [|c rest IH]; simpl.
  - unfold named. simpl.
    by assert (str_eqb part other = false) as -> by by apply str_eqb_neq.
  - destruct (named part c) eqn:E; simpl.
    + unfold named in *. simpl. apply str_eqb_eq in E. rewrite E.
      by assert (str_eqb part other = false) as -> by by apply str_eqb_neq.
    + by rewrite IH.
Qed.

Lemma add_path_kind_stable (parts : list jsstring) :
  forall (added : list jsstring) (children : list TreeNode.t) (k : TreeNode.kind),
    kind_at parts children = Some k ->
    kind_at parts (add_path added children) = Some k.
Proof.
  induction parts as [|part rest IH]; intros added children k Hk; [done|].
  destruct added as [|part' rest']; [done|].
  cbn [add_path kind_at] in *.
  destruct (str_eqb part part') eqn:E;
    [apply str_eqb_eq in E as <- | apply str_eqb_neq in E].
  - rewrite find_find_or_push.
    destruct (find (named part) children) as [c|]; [|done]. simpl.
    destruct (length rest =? 0)%nat; [done|]. by apply IH.
  - by rewrite find_find_or_push_other.
Qed.

Lemma add_path_present (parts : list jsstring) :
  forall children : list TreeNode.t,
    parts <> [] -> is_Some (kind_at parts (add_path parts children)).
Proof.
  induction parts as [|part rest IH]; intros children Hne; [done|].
  cbn [add_path kind_at]. rewrite find_find_or_push.
  destruct rest as [|part' rest].
  - by destruct (find (named part) children).
  - cbn [length Nat.eqb].
    destruct (find (named part) children); cbn [TreeNode.children];
      by apply IH.
Qed.

Lemma build_kind_stable (paths : list jsstring) :
  forall (parts : list jsstring) (children : list TreeNode.t) (k : TreeNode.kind),
    kind_at parts children = Some k ->
    kind_at parts
      (foldl (fun cs path => add_path (split_on "/" path) cs) children paths)
    = Some k.
Proof.
  induction paths as [|path paths IH]; intros parts children k Hk; [done|].
  simpl. apply IH. by apply add_path_kind_stable.
Qed.

(** X26: every path is in the tree.  For each of the paths, walking its
    segments from the root ends on a node. *)
Theorem build_tree_present (paths : list jsstring) (path : jsstring) :
  path ∈ paths ->
  is_Some (kind_at (split_on "/" path) (TreeNode.children (build_tree paths))).
Proof.
  unfold build_tree. cbn [TreeNode.children].
  generalize (@nil TreeNode.t).
  induction paths as [|p paths IH]; intros children Hin.
  { by apply elem_of_nil in Hin. }
  apply elem_of_cons in Hin as [->|Hin]; [|by apply IH].
  simpl.
  destruct (add_path_present (split_on "/" p) children
              (split_on_inhabited _ _)) as [k Hk].
  exists k. by apply build_kind_stable.
Qed.

Lemma build_tree_present_witness :
  is_Some (kind_at [js "src"; js "a.ts"]
             (TreeNode.children
                (build_tree [js "README.md"; js "src/a.ts"; js "src/b.ts"]))).
Proof.
  apply (build_tree_present [js "README.md"; js "src/a.ts"; js "src/b.ts"]
           (js "src/a.ts")).
  apply list_elem_of_further, list_elem_of_here.
Defined.

(** X27: the kind of a node is that of its first mention.  A segment walk
    that ends on a file (or a folder) in the tree of some paths ends on the
    same kind after any further paths: a path listed before a longer one
    through it stays a file and gets children. *)
Theorem build_tree_kind_stable (paths more parts : list jsstring)
    (k : TreeNode.kind) :
  kind_at parts (TreeNode.children (build_tree paths)) = Some k ->
  kind_at parts (TreeNode.children (build_tree (paths ++ more))) = Some k.
Proof.
  unfold build_tree. cbn [TreeNode.children]. rewrite foldl_app.
  apply build_kind_stable.
Qed.

Lemma build_tree_kind_stable_witness :
  kind_at [js "docs"] (TreeNode.children (build_tree [js "docs"]))
  = Some TreeNode.file
  /\ build_tree [js "docs"; js "docs/a.md"]
     = TreeNode.mk (js ".") TreeNode.folder
         [TreeNode.mk (js "docs") TreeNode.file
            [TreeNode.mk (js "a.md") TreeNode.file []]]
  /\ kind_at [js "docs"]
       (TreeNode.children (build_tree ([js "docs"] ++ [js "docs/a.md"])))
     = Some TreeNode.file.
Proof.
  split; [reflexivity|]. split; [reflexivity|].
  apply (build_tree_kind_stable [js "docs"] [js "docs/a.md"] [js "docs"]).
  reflexivity.
Defined.

Lemma every_level_nil (P : list TreeNode.t -> Prop) : P [] -> every_level P [].
Proof. intros H. by constructor. Qed.

Lemma find_named_None (part : jsstring) (children : list TreeNode.t) :
  find (named part) children = None ->
  part ∉ map TreeNode.name children.
Proof.
  induction children as [|c rest IH]; simpl; [intros _; apply not_elem_of_nil|].
  destruct (named part c) eqn:E; [done|]. intros H.
  apply not_elem_of_cons. split; [|by apply IH].
  unfold named in E. apply str_eqb_neq in E. congruence.
Qed.

Lemma find_or_push_names (part : jsstring) (type : TreeNode.kind)
    (descend : list TreeNode.t -> list TreeNode.t) (children : list TreeNode.t) :
  map TreeNode.name (find_or_push part type descend children)
  = match find (named part) children with
    | Some _ => map TreeNode.name children
    | None => map TreeNode.name children ++ [part]
    end.
Proof.
  induction children as [|c rest IH]; simpl; [done|].
  destruct (named part c) eqn:E; simpl; [done|].
  rewrite IH. by destruct (find (named part) rest).
Qed.

Lemma find_or_push_Forall (Q : TreeNode.t -> Prop) (part : jsstring)
    (type : TreeNode.kind) (descend : list TreeNode.t -> list TreeNode.t)
    (children : list TreeNode.t) :
  Forall Q children ->
  Q (TreeNode.mk part type (descend [])) ->
  (forall c, c ∈ children -> named part c = true -> Q c ->
             Q (TreeNode.mk (TreeNode.name c) (TreeNode.type c)
                  (descend (TreeNode.children c)))) ->
  Forall Q (find_or_push part type descend children).
Proof.
  intros Hall Hnew Hupd.
  induction Hall as [|c rest Hc Hrest IH]; simpl; [by repeat constructor|].
  destruct (named part c) eqn:E.
  - constructor; [|done]. apply Hupd; [apply list_elem_of_here|done..].
  - constructor; [done|]. apply IH. intros c' Hin. apply Hupd.
    by apply list_elem_of_further.
Qed.

Lemma add_path_distinct (parts : list jsstring) :
  forall children : list TreeNode.t,
    every_level (fun cs => NoDup (map TreeNode.name cs)) children ->
    every_level (fun cs => NoDup (map TreeNode.name cs))
      (add_path parts children).
Proof.
  induction parts as [|part rest IH]; intros children Hd; [done|].
  cbn [add_path]. destruct Hd as [children Hnd Hall].
  constructor.
  - rewrite find_or_push_names.
    destruct (find (named part) children) eqn:E; [done|].
    apply NoDup_app. split; [done|]. split; [|apply NoDup_singleton].
    intros x Hx ->%list_elem_of_singleton.
    by apply (find_named_None _ _ E).
  - apply find_or_push_Forall; [done|..]; simpl.
    + apply IH, every_level_nil, NoDup_nil_2.
    + intros c _ _ Hc. by apply IH.
Qed.

(** X28: no two children of a node share a name, at any depth of the tree
    built from any paths. *)
Theorem build_tree_distinct_names (paths : list jsstring) :
  every_level (fun cs => NoDup (map TreeNode.name cs))
    (TreeNode.children (build_tree paths)).
Proof.
  unfold build_tree. cbn [TreeNode.children].
  assert (every_level (fun cs => NoDup (map TreeNode.name cs)) []) as H
    by apply every_level_nil, NoDup_nil_2.
  revert H. generalize (@nil TreeNode.t).
  induction paths as [|p paths IH]; intros children Hd; [done|].
  simpl. by apply IH, add_path_distinct.
Qed.
Section sorting.
Variable localeCompare : jsstring -> jsstring -> Z.

Lemma insert_node_Permutation (x : TreeNode.t) (sorted : list TreeNode.t) :
  Permutation (x :: sorted) (insert_node localeCompare x sorted).
Proof.
  induction sorted as [|y rest IH]; simpl; [done|].
  destruct (compareNodes localeCompare x y >? 0); [|done].
  rewrite <- IH. apply perm_swap.
Qed.

Lemma sort_nodes_Permutation (nodes : list TreeNode.t) :
  Permutation nodes (sort_nodes localeCompare nodes).
Proof.
  induction nodes as [|x nodes IH]; simpl; [done|].
  rewrite <- insert_node_Permutation. by constructor.
Qed.

Lemma sortNodes_name (node : TreeNode.t) :
  TreeNode.name (sortNodes localeCompare node) = TreeNode.name node.
Proof. by destruct node. Qed.

Lemma sortNodes_type (node : TreeNode.t) :
  TreeNode.type (sortNodes localeCompare node) = TreeNode.type node.
Proof. by destruct node. Qed.

Lemma compareNodes_sortNodes (a b : TreeNode.t) :
  compareNodes localeCompare (sortNodes localeCompare a)
    (sortNodes localeCompare b)
  = compareNodes localeCompare a b.
Proof.
  unfold compareNodes. by rewrite !sortNodes_name, !sortNodes_type.
Qed.

Lemma insert_node_map (x : TreeNode.t) (sorted : list TreeNode.t) :
  insert_node localeCompare (sortNodes localeCompare x)
    (map (sortNodes localeCompare) sorted)
  = map (sortNodes localeCompare) (insert_node localeCompare x sorted).
Proof.
  induction sorted as [|y rest IH]; [done|].
  cbn [map insert_node]. rewrite compareNodes_sortNodes.
  destruct (compareNodes localeCompare x y >? 0); [|done].
  cbn [map]. by rewrite IH.
Qed.

(** The order of the source: the children are sorted, then each of them is
    visited. *)
Lemma sortNodes_children (node : TreeNode.t) :
  TreeNode.children (sortNodes localeCompare node)
  = map (sortNodes localeCompare)
      (sort_nodes localeCompare (TreeNode.children node)).
Proof.
  destruct node as [n k cs]. cbn [sortNodes TreeNode.children].
  induction cs as [|c cs IH]; [done|].
  cbn [map sort_nodes foldr]. fold (sort_nodes localeCompare cs).
  fold (sort_nodes localeCompare (map (sortNodes localeCompare) cs)).
  by rewrite IH, insert_node_map.
Qed.

Lemma insert_node_folders_first (x : TreeNode.t) (sorted : list TreeNode.t) :
  folders_first sorted -> folders_first (insert_node localeCompare x sorted).
Proof.
  intros (folders & files & -> & Hfolders & Hfiles).
  induction Hfolders as [|y folders Hy Hfolders IH].
  - cbn [app]. induction Hfiles as [|y files Hy Hfiles IH].
    + destruct (TreeNode.type x) eqn:E.
      * exists [], [x]. by repeat constructor.
      * exists [x], []. by repeat constructor.
    + cbn [insert_node]. unfold compareNodes at 1. rewrite Hy.
      destruct (TreeNode.type x) eqn:E; cbn [TreeNode.kind_eqb negb].
      * destruct (localeCompare _ _ >? 0).
        -- destruct IH as (fo & fi & Heq & Hfo & Hfi).
           destruct fo as [|z fo].
           ++ exists [], (y :: fi). cbn [app] in *. rewrite Heq.
              by repeat constructor.
           ++ exfalso. apply Forall_cons in Hfo as [Hz _].
              assert (z ∈ insert_node localeCompare x files) as Hin
                by (rewrite Heq; apply list_elem_of_here).
              rewrite <- insert_node_Permutation in Hin.
              apply elem_of_cons in Hin as [->|Hin]; [congruence|].
              rewrite Forall_forall in Hfiles. specialize (Hfiles z Hin).
              congruence.
        -- exists [], (x :: y :: files). by repeat constructor.
      * exists [x], (y :: files). by repeat constructor.
  - cbn [app insert_node]. unfold compareNodes at 1. rewrite Hy.
    destruct IH as (fo & fi & Heq & Hfo & Hfi).
    destruct (TreeNode.type x) eqn:E; cbn [TreeNode.kind_eqb negb].
    + change (1 >? 0) with true. cbv iota. rewrite Heq.
      exists (y :: fo), fi. by repeat constructor.
    + destruct (localeCompare _ _ >? 0).
      * rewrite Heq. exists (y :: fo), fi. by repeat constructor.
      * exists (x :: y :: folders), files. by repeat constructor.
Qed.

Lemma sort_nodes_folders_first (nodes : list TreeNode.t) :
  folders_first (sort_nodes localeCompare nodes).
Proof.
  induction nodes as [|x nodes IH]; simpl.
  - exists [], []. by repeat constructor.
  - by apply insert_node_folders_first.
Qed.

Lemma compareNodes_total (x y : TreeNode.t) :
  total_compare localeCompare ->
  (compareNodes localeCompare x y >? 0) = true ->
  compareNodes localeCompare y x <= 0.
Proof.
  intros Htotal. unfold compareNodes.
  destruct (TreeNode.type x), (TreeNode.type y);
    cbn [TreeNode.kind_eqb negb]; try done.
  all: intros H; destruct (Htotal (TreeNode.name x) (TreeNode.name y)); lia.
Qed.

Lemma insert_node_HdRel (x y : TreeNode.t) (sorted : list TreeNode.t) :
  compareNodes localeCompare y x <= 0 ->
  HdRel (fun a b => compareNodes localeCompare a b <= 0) y sorted ->
  HdRel (fun a b => compareNodes localeCompare a b <= 0) y
    (insert_node localeCompare x sorted).
Proof.
  intros Hyx Hhd. destruct Hhd as [|z rest Hz]; simpl; [by constructor|].
  destruct (compareNodes localeCompare x z >? 0); by constructor.
Qed.

Lemma insert_node_Sorted (x : TreeNode.t) (sorted : list TreeNode.t) :
  total_compare localeCompare ->
  Sorted (fun a b => compareNodes localeCompare a b <= 0) sorted ->
  Sorted (fun a b => compareNodes localeCompare a b <= 0)
    (insert_node localeCompare x sorted).
Proof.
  intros Htotal Hs. induction Hs as [|y rest Hrest IH Hhd]; simpl.
  - by repeat constructor.
  - destruct (compareNodes localeCompare x y >? 0) eqn:E.
    + constructor; [done|].
      apply insert_node_HdRel; [|done]. by apply compareNodes_total.
    + constructor; [by constructor|]. constructor.
      rewrite Z.gtb_ltb in E. by apply Z.ltb_ge in E.
Qed.

Lemma sort_nodes_Sorted (nodes : list TreeNode.t) :
  total_compare localeCompare ->
  Sorted (fun a b => compareNodes localeCompare a b <= 0)
    (sort_nodes localeCompare nodes).
Proof.
  intros Htotal. induction nodes as [|x nodes IH]; simpl; [constructor|].
  by apply insert_node_Sorted.
Qed.

Lemma sortNodes_every_level (P : list TreeNode.t -> Prop) (node : TreeNode.t) :
  (forall nodes, P (sort_nodes localeCompare nodes)) ->
  every_level P (TreeNode.children (sortNodes localeCompare node)).
Proof.
  intros HP. induction node as [n k cs IH] using TreeNode_induction.
  cbn [sortNodes TreeNode.children]. constructor; [apply HP|].
  rewrite <- sort_nodes_Permutation. by apply Forall_fmap.
Qed.

Lemma list_sum_Permutation (l l' : list nat) :
  Permutation l l' -> list_sum l = list_sum l'.
Proof. induction 1; simpl; lia. Qed.

Lemma sortNodes_count (node : TreeNode.t) :
  node_count (sortNodes localeCompare node) = node_count node.
Proof.
  induction node as [n k cs IH] using TreeNode_induction.
  cbn [sortNodes node_count]. f_equal.
  rewrite <- (list_sum_Permutation _ _
                (Permutation_map node_count
                   (sort_nodes_Permutation (map (sortNodes localeCompare) cs)))).
  f_equal. rewrite map_map. apply map_ext_Forall. exact IH.
Qed.

Lemma sortNodes_names (Q : jsstring -> Prop) (node : TreeNode.t) :
  every_level (Forall (fun c => Q (TreeNode.name c))) (TreeNode.children node) ->
  every_level (Forall (fun c => Q (TreeNode.name c)))
    (TreeNode.children (sortNodes localeCompare node)).
Proof.
  induction node as [n k cs IH] using TreeNode_induction.
  cbn [sortNodes TreeNode.children]. intros Hl.
  destruct Hl as [cs Hnames Hbelow]. constructor.
  - rewrite <- sort_nodes_Permutation. apply Forall_fmap.
    eapply Forall_impl; [exact Hnames|]. intros c Hc. simpl.
    by rewrite sortNodes_name.
  - rewrite <- sort_nodes_Permutation. apply Forall_fmap.
    rewrite Forall_forall in IH, Hbelow. apply Forall_forall.
    intros c Hc. simpl. apply IH; [done|]. by apply Hbelow.
Qed.
End sorting.

(** X29: folders first, then by name.  When the comparison of names
    orders any two names one way or the other, the children of every node of
    the sorted tree are its folders followed by its files, and each child
    compares at most equal to the next one. *)
Theorem sortNodes_folders_first (localeCompare : jsstring -> jsstring -> Z)
    (node : TreeNode.t) :
  total_compare localeCompare ->
  every_level
    (fun cs => folders_first cs
               /\ Sorted (fun a b => compareNodes localeCompare a b <= 0) cs)
    (TreeNode.children (sortNodes localeCompare node)).
Proof.
  intros Htotal. apply sortNodes_every_level. intros nodes. split.
  - apply sort_nodes_folders_first.
  - by apply sort_nodes_Sorted.
Qed.

Lemma sortNodes_folders_first_witness :
  let by_length := fun a b : jsstring => jslen a - jslen b in
  let tree := build_tree [js "README.md"; js "src/main.ts"; js "src/a.ts";
                          js "lib/x.js"] in
  map TreeNode.name (TreeNode.children (sortNodes by_length tree))
  = [js "src"; js "lib"; js "README.md"]
  /\ every_level
       (fun cs => folders_first cs
                  /\ Sorted (fun a b => compareNodes by_length a b <= 0) cs)
       (TreeNode.children (sortNodes by_length tree)).
Proof.
  intros by_length tree. split; [reflexivity|].
  apply (sortNodes_folders_first by_length tree).
  intros a b. unfold by_length. lia.
Defined.

Lemma draw_node_eq (prefix : list Z) (isLast : bool) (node : TreeNode.t) :
  draw_node prefix isLast node
  = (prefix ++ connector isLast ++ units (TreeNode.name node) ++ [10])
    ++ (if (0 <? length (TreeNode.children node))%nat
        then draw (TreeNode.children node) (prefix ++ indentation isLast)
        else []).
Proof.
  destruct node as [n k cs]. cbn [draw_node TreeNode.name TreeNode.children].
  f_equal. destruct (0 <? length cs)%nat; [|done].
  induction cs as [|c cs IH]; [done|]. cbn [draw]. by rewrite <- IH.
Qed.

Lemma units_no_newline (name : jsstring) :
  Forall (fun c => c <> newline) name ->
  count_occ Z.eq_dec (units name) 10 = 0%nat.
Proof.
  induction 1 as [|c name Hc _ IH]; [done|].
  cbn [units map count_occ]. fold (units name).
  destruct (Z.eq_dec (code c) 10) as [E|_]; [|done].
  destruct Hc. unfold code in E.
  assert (nat_of_ascii c = 10%nat) as E' by lia.
  apply (f_equal ascii_of_nat) in E'. by rewrite ascii_nat_embedding in E'.
Qed.

Lemma node_count_eq (node : TreeNode.t) :
  node_count node = S (forest_count (TreeNode.children node)).
Proof. by destruct node. Qed.

Lemma every_level_tail (P : list TreeNode.t -> Prop) (c : TreeNode.t)
    (rest : list TreeNode.t) :
  (forall x l, P (x :: l) -> P l) ->
  every_level P (c :: rest) ->
  every_level P (TreeNode.children c) /\ every_level P rest.
Proof.
  intros Htail Hl. inversion Hl as [cs HP Hbelow]; subst.
  apply Forall_cons in Hbelow as [Hc Hrest]. split; [done|].
  constructor; [by eapply Htail | done].
Qed.

Lemma draw_lines (nodes : list TreeNode.t) :
  every_level (Forall (fun c => Forall (fun u => u <> newline) (TreeNode.name c)))
    nodes ->
  forall prefix : list Z,
    count_occ Z.eq_dec prefix 10 = 0%nat ->
    count_occ Z.eq_dec (draw nodes prefix) 10 = forest_count nodes.
Proof.
  induction nodes as [nodes IH] using forest_induction.
  induction IH as [|c rest Hc _ IHrest]; intros Hl prefix Hprefix; [done|].
  pose proof Hl as [Hbelow Hrest]%every_level_tail;
    [|by intros x l [_ ?]%Forall_cons].
  inversion Hl as [? Hnames _]; subst.
  apply Forall_cons in Hnames as [Hname _].
  assert (count_occ Z.eq_dec
            (draw_node prefix (length rest =? 0)%nat c) 10
          = node_count c) as Hnode.
  { rewrite draw_node_eq, node_count_eq.
    rewrite !count_occ_app, Hprefix, (units_no_newline _ Hname).
    assert (count_occ Z.eq_dec (connector (length rest =? 0)%nat) 10 = 0%nat)
      as -> by by destruct (length rest =? 0)%nat.
    cbn [count_occ]. destruct (Z.eq_dec 10 10); [|done].
    destruct (TreeNode.children c) as [|c' cs'] eqn:E; [done|].
    cbn [length Nat.ltb Nat.leb]. rewrite <- E in *.
    rewrite Hc; [lia|done|].
    rewrite count_occ_app, Hprefix. by destruct (length rest =? 0)%nat. }
  cbn [draw]. rewrite count_occ_app, Hnode, (IHrest Hrest prefix Hprefix).
  reflexivity.
Qed.

Lemma split_on_Forall (Q : ascii -> Prop) (sep : ascii) (s : jsstring) :
  Forall Q s -> Forall (Forall Q) (split_on sep s).
Proof.
  induction 1 as [|c s Hc _ IH]; simpl; [by repeat constructor|].
  destruct (Ascii.eqb c sep); [by constructor|].
  destruct (split_on sep s) as [|seg segs]; [by repeat constructor|].
  apply Forall_cons in IH as [Hseg Hsegs]. by repeat constructor.
Qed.

Lemma add_path_names (Q : jsstring -> Prop) (parts : list jsstring) :
  Forall Q parts ->
  forall children : list TreeNode.t,
    every_level (Forall (fun c => Q (TreeNode.name c))) children ->
    every_level (Forall (fun c => Q (TreeNode.name c)))
      (add_path parts children).
Proof.
  induction 1 as [|part rest Hpart _ IH]; intros children Hl; [done|].
  cbn [add_path]. destruct Hl as [children Hnames Hbelow]. constructor.
  - apply (find_or_push_Forall (fun c => Q (TreeNode.name c))); done.
  - apply find_or_push_Forall; [done|..]; simpl.
    + apply IH, every_level_nil, Forall_nil_2.
    + intros c _ _ Hc. by apply IH.
Qed.

(** X30: one line per node.  When no path holds a line feed, the drawing
    has as many line feeds as the tree of the paths has nodes, and one more
    for the root line. *)
Theorem generateAsciiTree_lines (localeCompare : jsstring -> jsstring -> Z)
    (paths : list jsstring) :
  Forall (Forall (fun c => c <> newline)) paths ->
  count_occ Z.eq_dec (generateAsciiTree localeCompare paths) 10
  = S (forest_count (TreeNode.children (build_tree paths))).
Proof.
  intros Hpaths. unfold generateAsciiTree.
  rewrite count_occ_app. cbn [count_occ].
  destruct (Z.eq_dec 46 10) as [|_]; [done|].
  destruct (Z.eq_dec 10 10) as [_|]; [|done]. cbn [Nat.add]. f_equal.
  rewrite draw_lines; [|apply sortNodes_names|done].
  - pose proof (sortNodes_count localeCompare (build_tree paths)) as Hcount.
    rewrite !node_count_eq in Hcount. lia.
  - unfold build_tree. cbn [TreeNode.children].
    assert (every_level
              (Forall (fun c => Forall (fun u => u <> newline) (TreeNode.name c)))
              []) as H by apply every_level_nil, Forall_nil_2.
    revert H. generalize (@nil TreeNode.t).
    induction Hpaths as [|p paths Hp _ IH]; intros children Hl; [done|].
    simpl. apply IH, add_path_names; [|done]. by apply split_on_Forall.
Qed.

Lemma generateAsciiTree_lines_witness :
  let by_length := fun a b : jsstring => jslen a - jslen b in
  let paths := [js "README.md"; js "src/main.ts"; js "src/a.ts"] in
  forest_count (TreeNode.children (build_tree paths)) = 4%nat
  /\ count_occ Z.eq_dec (generateAsciiTree by_length paths) 10 = 5%nat.
Proof.
  intros by_length paths. split; [reflexivity|].
  apply (generateAsciiTree_lines by_length paths).
  repeat constructor; discriminate.
Defined.
